(** * The continuous wavelet transform layer of [CWT/cwt.py]

    A shallow embedding of the two classes of [cwt.py],
    [ContinuousWaveletTransform] and [ComplexMorletCWT], and the properties
    of the scale generation, of the complex Morlet wavelet bank and of the
    strided convolution with border cropping.

    Numbers.  Python and numpy floats and the entries of TensorFlow tensors
    are real numbers here ([R]): rounding, overflow and infinities are not
    part of the model.  Python integers are [Z].  A NaN appears in one
    place only, where the source turns it into an exception: [np.sqrt] of a
    negative Python float is NaN and [int(nan)] raises.

    Exceptions.  Everything that may raise returns a [result]; a raised
    exception carries no value, and the rest of the computation is skipped.

    Tensors.  A tensor is its shape together with a function from index
    lists to entries; the TensorFlow primitives used by the layer
    ([tf.transpose], [tf.expand_dims], [tf.nn.conv2d] with SAME padding,
    slicing, [tf.concat], [tf.stack]) are written after their documentation
    for tensors of any rank, with the shape errors they raise.  The layer
    is run eagerly: an operation on the variable [wavelet_width] reads the
    value the variable has at that moment. *)

From Stdlib Require Import Reals Lra Lia ZArith String Bool Arith List.
Import ListNotations.

Open Scope R_scope.

(** ** Exceptions *)

Inductive exn : Type :=
| ValueError (msg : string)
| ZeroDivisionError
| IndexError
| InvalidArgumentError (msg : string).

Inductive result (A : Type) : Type :=
| Ok (a : A)
| Raise (e : exn).

Arguments Ok {A} a.
Arguments Raise {A} e.

Definition bind {A B : Type} (c : result A) (k : A -> result B) : result B :=
  match c with
  | Ok a => k a
  | Raise e => Raise e
  end.

Notation "x <- c ;; k" := (bind c (fun x => k))
  (at level 61, c at next level, right associativity).

Definition raises {A : Type} (c : result A) : Prop := exists e, c = Raise e.

Definition returns {A : Type} (c : result A) : Prop := exists a, c = Ok a.

(** ** Python and numpy scalars and arrays *)

Module Py.

(** [a / b] on Python numbers (true division, [from __future__ import
    division]): a zero divisor raises. *)
Definition truediv (a b : R) : result R :=
  if Req_dec_T b 0 then Raise ZeroDivisionError else Ok (a / b).

(** [a // b] on Python integers: floor division, a zero divisor raises. *)
Definition floordiv (a b : Z) : result Z :=
  if (b =? 0)%Z then Raise ZeroDivisionError else Ok (a / b)%Z.

(** A Python float that may be NaN. *)
Definition float_or_nan : Type := option R.

(** [np.sqrt] on a scalar: NaN (with a warning, no exception) below zero. *)
Definition np_sqrt (x : R) : float_or_nan :=
  if Rlt_dec x 0 then None else Some (sqrt x).

(** [int(x)] on a float: truncation toward zero; [int(nan)] raises. *)
Definition int (x : float_or_nan) : result Z :=
  match x with
  | None => Raise (ValueError "cannot convert float NaN to integer")
  | Some r => Ok (if Rle_dec 0 r then Zfloor r else Zceil r)
  end.

(** [np.power(x, y)] for a positive base [x]; the constructor never has
    another one, its bases being a quotient of two positive numbers and a
    power of it. *)
Definition np_power (x y : R) : R := Rpower x y.

(** [np.arange(n)]: the integers [0 .. n-1], none when [n <= 0]. *)
Definition np_arange (n : Z) : list nat := seq 0 (Z.to_nat n).

(** [a.max()] on a one-dimensional array: raises on an empty array. *)
Definition np_max (a : list R) : result R :=
  match a with
  | [] => Raise (ValueError "zero-size array to reduction operation maximum which has no identity")
  | x :: xs => Ok (fold_left Rmax xs x)
  end.

(** Elementwise product of two arrays of the same length. *)
Fixpoint mul (a b : list R) : list R :=
  match a, b with
  | x :: a', y :: b' => x * y :: mul a' b'
  | _, _ => []
  end.

(** [x in l] for strings. *)
Definition str_in (x : string) (l : list string) : bool :=
  existsb (String.eqb x) l.

(** The bounds of the slice [start:stop] on an axis of length [len]:
    negative bounds count from the end, [None] is the end of the axis, and
    both bounds are clipped to the axis. *)
Definition clip (len i : Z) : Z :=
  if (i <? 0)%Z then Z.max (i + len) 0 else Z.min i len.

Definition slice_start (len start : Z) : Z := clip len start.

Definition slice_stop (len : Z) (stop : option Z) : Z :=
  match stop with
  | None => len
  | Some e => clip len e
  end.

Definition slice_len (len start : Z) (stop : option Z) : nat :=
  Z.to_nat (slice_stop len stop - slice_start len start).

End Py.

(** ** TensorFlow tensors and the primitives the layer calls *)

Module TF.

Record tensor : Type := mkTensor {
  shape : list nat;
  data : list nat -> R
}.

Definition rank (a : tensor) : nat := length (shape a).

Fixpoint index_of (x : nat) (l : list nat) : nat :=
  match l with
  | [] => 0
  | y :: l' => if (x =? y)%nat then 0%nat else S (index_of x l')
  end.

(** [tf.transpose(a, perm)]: axis [i] of the result is axis [perm[i]] of
    [a]; the length of [perm] must be the rank of [a]. *)
Definition transpose (a : tensor) (perm : list nat) : result tensor :=
  if (length perm =? rank a)%nat then
    Ok {| shape := map (fun p => nth p (shape a) 0%nat) perm;
          data := fun idx =>
            data a (map (fun ax => nth (index_of ax perm) idx 0%nat)
                        (seq 0 (rank a))) |}
  else Raise (ValueError "transpose: perm does not match the rank of the input").

(** [tf.expand_dims(a, axis)] for [0 <= axis]: a new axis of length one at
    position [axis], which may be at most the rank of [a]. *)
Definition expand_dims (a : tensor) (axis : nat) : result tensor :=
  if (axis <=? rank a)%nat then
    Ok {| shape := firstn axis (shape a) ++ 1%nat :: skipn axis (shape a);
          data := fun idx => data a (firstn axis idx ++ skipn (S axis) idx) |}
  else Raise (ValueError "expand_dims: axis out of range").

(** The sum of [f 0 .. f (n-1)]. *)
Fixpoint sum_upto (n : nat) (f : nat -> R) : R :=
  match n with
  | O => 0
  | S m => sum_upto m f + f m
  end.

(** SAME padding: the output has [ceil(n / stride)] positions, and the
    input is padded with zeros, the smaller half before. *)
Definition same_out (n stride : nat) : nat := ((n + stride - 1) / stride)%nat.

Definition same_pad_before (n k stride : nat) : nat :=
  (((same_out n stride - 1) * stride + k - n) / 2)%nat.

(** The entry of the zero-padded input at batch index [b], row [y], column
    [z] and channel [c]. *)
Definition at_padded (a : tensor) (h w : nat) (b : list nat) (y z : Z)
    (c : nat) : R :=
  if ((0 <=? y) && (y <? Z.of_nat h) && (0 <=? z) && (z <? Z.of_nat w))%Z
  then data a (b ++ [Z.to_nat y; Z.to_nat z; c])
  else 0.

(** [tf.nn.conv2d(input, filters, strides=[1, sh, sw, 1], padding="SAME")]:
    [input] has shape [batch_shape + [h, w, c]] with rank at least 4,
    [filters] has shape [[fh, fw, c, oc]]; the filter is not flipped. *)
Definition conv2d_same (input filters : tensor) (sh sw : Z) : result tensor :=
  let r := rank input in
  if (r <? 4)%nat then Raise (ValueError "conv2d: input must have rank at least 4")
  else if ((sh <=? 0) || (sw <=? 0))%Z
  then Raise (ValueError "conv2d: strides must be positive")
  else
    match skipn (r - 3) (shape input), shape filters with
    | [h; w; c], [fh; fw; fc; oc] =>
        if (c =? fc)%nat then
          let sh' := Z.to_nat sh in
          let sw' := Z.to_nat sw in
          let pt := same_pad_before h fh sh' in
          let pl := same_pad_before w fw sw' in
          Ok {| shape := firstn (r - 3) (shape input)
                         ++ [same_out h sh'; same_out w sw'; oc];
                data := fun idx =>
                  let b := firstn (r - 3) idx in
                  let i := nth (r - 3) idx 0%nat in
                  let j := nth (r - 2) idx 0%nat in
                  let o := nth (r - 1) idx 0%nat in
                  sum_upto fh (fun di =>
                  sum_upto fw (fun dj =>
                  sum_upto c (fun ci =>
                    at_padded input h w b
                      (Z.of_nat (i * sh' + di) - Z.of_nat pt)
                      (Z.of_nat (j * sw' + dj) - Z.of_nat pl) ci
                    * data filters [di; dj; ci; o]))) |}
        else Raise (InvalidArgumentError "conv2d: input depth must match the filter depth")
    | _, _ => Raise (ValueError "conv2d: filters must have rank 4")
    end.

(** The slice [a[:, :, 0, start:stop, :]]: axis 2 is dropped at index 0
    and axis 3 is cut; [a] needs five axes at least. *)
Definition crop_axis3 (a : tensor) (start : Z) (stop : option Z) : result tensor :=
  match shape a with
  | d0 :: d1 :: d2 :: d3 :: d4 :: rest =>
      if (d2 =? 0)%nat
      then Raise (InvalidArgumentError "slice index 0 of dimension 2 out of bounds")
      else
        Ok {| shape := d0 :: d1 :: Py.slice_len (Z.of_nat d3) start stop :: d4 :: rest;
              data := fun idx =>
                data a (nth 0 idx 0%nat :: nth 1 idx 0%nat :: 0%nat
                        :: (Z.to_nat (Py.slice_start (Z.of_nat d3) start)
                            + nth 2 idx 0)%nat
                        :: skipn 3 idx) |}
  | _ => Raise (ValueError "slice: too many indices for the tensor")
  end.

(** [tf.concat([a, b], axis=1)]: the shapes agree outside axis 1. *)
Definition concat1 (a b : tensor) : result tensor :=
  match shape a, shape b with
  | a0 :: a1 :: ar, b0 :: b1 :: br =>
      if list_eq_dec Nat.eq_dec (a0 :: ar) (b0 :: br) then
        Ok {| shape := a0 :: (a1 + b1)%nat :: ar;
              data := fun idx =>
                if (nth 1 idx 0 <? a1)%nat then data a idx
                else data b (nth 0 idx 0%nat :: (nth 1 idx 0 - a1)%nat
                             :: skipn 2 idx) |}
      else Raise (InvalidArgumentError "concat: dimensions of inputs should match")
  | _, _ => Raise (InvalidArgumentError "concat: axis 1 out of range")
  end.

(** Elementwise operations; the two operands of a binary operation have
    the same shape wherever the layer uses one. *)
Definition map1 (f : R -> R) (a : tensor) : tensor :=
  {| shape := shape a; data := fun idx => f (data a idx) |}.

Definition map2 (f : R -> R -> R) (a b : tensor) : tensor :=
  {| shape := shape a; data := fun idx => f (data a idx) (data b idx) |}.

Definition neg (a : tensor) : tensor := map1 Ropp a.

Definition square (a : tensor) : tensor := map1 (fun x => x ^ 2) a.

Definition add (a b : tensor) : tensor := map2 Rplus a b.

(** The angle of the point [(x, y)], in [(-PI, PI]]. *)
Definition atan2_R (y x : R) : R :=
  if Rlt_dec 0 x then atan (y / x)
  else if Rlt_dec x 0 then
    (if Rle_dec 0 y then atan (y / x) + PI else atan (y / x) - PI)
  else if Rlt_dec 0 y then PI / 2
  else if Rlt_dec y 0 then - (PI / 2)
  else 0.

Definition atan2 (y x : tensor) : tensor := map2 atan2_R y x.

(** [tf.stack(cols, axis=-1)] on one-dimensional tensors of one length:
    entry [[i, j]] is entry [i] of [cols[j]]. *)
Definition stack_last (cols : list (list R)) : result tensor :=
  match cols with
  | [] => Raise IndexError
  | c :: _ =>
      if forallb (fun c' => (length c' =? length c)%nat) cols then
        Ok {| shape := [length c; length cols];
              data := fun idx =>
                nth (nth 0 idx 0%nat) (nth (nth 1 idx 0%nat) cols []) 0 |}
      else Raise (ValueError "stack: shapes of all inputs must match")
  end.

End TF.

(** ** The two classes of [cwt.py]

    [ContinuousWaveletTransform] leaves [_build_wavelet_bank] to its
    subclass, and [ComplexMorletCWT] is the only one: a layer is an object
    of the subclass, and [self._build_wavelet_bank()] in the constructor of
    the base class is the method of [ComplexMorletCWT]. *)

Module CWT.

Import TF.

(** The attributes [ComplexMorletCWT.__init__] sets before it calls the
    constructor of the base class; [wavelet_width] is the current value of
    the [tf.Variable] of that name. *)
Record MorletAttrs : Type := mkMorletAttrs {
  initial_wavelet_width : R;
  fs : R;
  lower_freq : R;
  upper_freq : R;
  size_factor : R;
  trainable : bool;
  scales : list R;
  frequencies : list R;
  wavelet_width : R
}.

(** The layer object once constructed: the attributes of the subclass, the
    attributes of [ContinuousWaveletTransform] and the two tensors that its
    constructor stores. *)
Record Layer : Type := mkLayer {
  attrs : MorletAttrs;
  n_scales : Z;
  border_crop : Z;
  stride : Z;
  outputformat : string;
  data_format : string;
  real_part : tensor;
  imaginary_part : tensor
}.

(** The arguments of [ComplexMorletCWT.__init__] ([name] is left out). *)
Record Args : Type := mkArgs {
  arg_wavelet_width : R;
  arg_fs : R;
  arg_lower_freq : R;
  arg_upper_freq : R;
  arg_n_scales : Z;
  arg_size_factor : R;
  arg_trainable : bool;
  arg_border_crop : Z;
  arg_stride : Z;
  arg_output : string;
  arg_data_format : string
}.

(** The sizing of the kernel, lines 200 to 202. *)
Definition truncation_size (self : MorletAttrs) : result Py.float_or_nan :=
  m <- Py.np_max (scales self) ;;
  Ok (option_map (fun q => m * q * fs self)
        (Py.np_sqrt (4.5 * initial_wavelet_width self))).

Definition one_side (self : MorletAttrs) : result Z :=
  t <- truncation_size self ;;
  Py.int (option_map (fun q => size_factor self * q) t).

Definition kernel_size (self : MorletAttrs) : result Z :=
  o <- one_side self ;;
  Ok (2 * o + 1)%Z.

(** Lines 203 and 204: the tap indices and the time axis. *)
Definition k_array (kernel_size one_side : Z) : list R :=
  map (fun i => INR i - IZR one_side) (Py.np_arange kernel_size).

Definition t_array (self : MorletAttrs) (kernel_size one_side : Z) : list R :=
  map (fun k => k / fs self) (k_array kernel_size one_side).

(** The body of the loop over the scales, lines 209 to 214. *)
Definition norm_constant (self : MorletAttrs) (scale : R) : R :=
  sqrt (PI * wavelet_width self) * scale * fs self / 2.

Definition scaled_t (t_arr : list R) (scale : R) : list R :=
  map (fun t => t / scale) t_arr.

Definition kernel_base (self : MorletAttrs) (t_arr : list R) (scale : R) : list R :=
  let exp_term :=
    map (fun u => exp (- (u ^ 2) / wavelet_width self)) (scaled_t t_arr scale) in
  map (fun e => e / norm_constant self scale) exp_term.

Definition kernel_real (self : MorletAttrs) (t_arr : list R) (scale : R) : list R :=
  Py.mul (kernel_base self t_arr scale)
         (map (fun u => cos (2 * PI * u)) (scaled_t t_arr scale)).

Definition kernel_imag (self : MorletAttrs) (t_arr : list R) (scale : R) : list R :=
  Py.mul (kernel_base self t_arr scale)
         (map (fun u => sin (2 * PI * u)) (scaled_t t_arr scale)).

(** [ComplexMorletCWT._build_wavelet_bank]: both parts have shape
    [[1, kernel_size, 1, n_scales]]. *)
Definition _build_wavelet_bank (self : MorletAttrs) : result (tensor * tensor) :=
  one_side <- one_side self ;;
  let kernel_size := (2 * one_side + 1)%Z in
  let t_arr := t_array self kernel_size one_side in
  let wavelet_bank_real := map (kernel_real self t_arr) (scales self) in
  let wavelet_bank_imag := map (kernel_imag self t_arr) (scales self) in
  wavelet_bank_real <- stack_last wavelet_bank_real ;;
  wavelet_bank_imag <- stack_last wavelet_bank_imag ;;
  wavelet_bank_real <- expand_dims wavelet_bank_real 0 ;;
  wavelet_bank_imag <- expand_dims wavelet_bank_imag 0 ;;
  wavelet_bank_real <- expand_dims wavelet_bank_real 2 ;;
  wavelet_bank_imag <- expand_dims wavelet_bank_imag 2 ;;
  Ok (wavelet_bank_real, wavelet_bank_imag).

(** [ContinuousWaveletTransform.__init__]: the bank is built here, once,
    and stored in [real_part] and [imaginary_part]. *)
Definition ContinuousWaveletTransform_init (self : MorletAttrs)
    (n_scales border_crop stride : Z) (outputformat data_format : string)
    : result Layer :=
  bank <- _build_wavelet_bank self ;;
  Ok {| attrs := self;
        n_scales := n_scales;
        border_crop := border_crop;
        stride := stride;
        outputformat := outputformat;
        data_format := data_format;
        real_part := fst bank;
        imaginary_part := snd bank |}.

(** Lines 180 to 186: the scales and the frequencies. *)
Definition generate_scales (lower_freq upper_freq : R) (n_scales : Z)
    : result (list R * list R) :=
  s_0 <- Py.truediv 1 upper_freq ;;
  s_n <- Py.truediv 1 lower_freq ;;
  ratio <- Py.truediv s_n s_0 ;;
  expo <- Py.truediv 1 (IZR (n_scales - 1)) ;;
  let base := Py.np_power ratio expo in
  let scales := map (fun i => s_0 * Py.np_power base (INR i))
                    (Py.np_arange n_scales) in
  let frequencies := map (fun s => 1 / s) scales in
  Ok (scales, frequencies).

(** [ComplexMorletCWT.__init__]. *)
Definition ComplexMorletCWT_init (a : Args) : result Layer :=
  if Rgt_dec (arg_lower_freq a) (arg_upper_freq a)
  then Raise (ValueError "lower_freq should be lower than upper_freq")
  else if Rlt_dec (arg_lower_freq a) 0
  then Raise (ValueError "Expected positive lower_freq.")
  else if negb (Py.str_in (arg_output a) ["complex"; "magnitude"; "phase"]%string)
  then Raise (ValueError "Expected output to be 'complex', 'magnitude' or 'phase'.")
  else if negb (Py.str_in (arg_data_format a) ["channels_last"; "channels_first"]%string)
  then Raise (ValueError "Expected output to be 'channels_last' or 'channels_first'.")
  else
    sf <- generate_scales (arg_lower_freq a) (arg_upper_freq a) (arg_n_scales a) ;;
    let self :=
      {| initial_wavelet_width := arg_wavelet_width a;
         fs := arg_fs a;
         lower_freq := arg_lower_freq a;
         upper_freq := arg_upper_freq a;
         size_factor := arg_size_factor a;
         trainable := arg_trainable a;
         scales := fst sf;
         frequencies := snd sf;
         wavelet_width := arg_wavelet_width a |} in
    ContinuousWaveletTransform_init self (arg_n_scales a) (arg_border_crop a)
      (arg_stride a) (arg_output a) (arg_data_format a).

(** An optimizer step, [wavelet_width.assign(w)]: the variable changes,
    nothing else of the layer does. *)
Definition set_wavelet_width (self : MorletAttrs) (w : R) : MorletAttrs :=
  {| initial_wavelet_width := initial_wavelet_width self;
     fs := fs self;
     lower_freq := lower_freq self;
     upper_freq := upper_freq self;
     size_factor := size_factor self;
     trainable := trainable self;
     scales := scales self;
     frequencies := frequencies self;
     wavelet_width := w |}.

Definition assign_wavelet_width (self : Layer) (w : R) : Layer :=
  {| attrs := set_wavelet_width (attrs self) w;
     n_scales := n_scales self;
     border_crop := border_crop self;
     stride := stride self;
     outputformat := outputformat self;
     data_format := data_format self;
     real_part := real_part self;
     imaginary_part := imaginary_part self |}.

(** The formatting of the two responses, lines 81 to 86. *)
Definition format_output (outputformat : string) (out_real out_imag : tensor)
    : result tensor :=
  if (outputformat =? "magnitude")%string
  then Ok (map1 sqrt (add (square out_real) (square out_imag)))
  else if (outputformat =? "phase")%string
  then Ok (atan2 out_imag out_real)
  else concat1 out_real out_imag.

(** [ContinuousWaveletTransform.call]. *)
Definition call (self : Layer) (inputs : tensor) : result tensor :=
  border_crop <- Py.floordiv (border_crop self) (stride self) ;;
  let start := border_crop in
  let stop := if (0 <? border_crop)%Z then Some (- border_crop)%Z else None in
  inputs <- (if (data_format self =? "channels_last")%string
             then transpose inputs [0; 2; 1]%nat
             else Ok inputs) ;;
  inputs_expand <- expand_dims inputs 2 ;;
  inputs_expand <- expand_dims inputs_expand 4 ;;
  out_real <- conv2d_same inputs_expand (real_part self) 1 (stride self) ;;
  out_imag <- conv2d_same inputs_expand (neg (imaginary_part self)) 1 (stride self) ;;
  out_real <- crop_axis3 out_real start stop ;;
  out_imag <- crop_axis3 out_imag start stop ;;
  scalograms <- format_output (outputformat self) out_real out_imag ;;
  if (data_format self =? "channels_last")%string
  then transpose scalograms [0; 2; 3; 1]%nat
  else Ok scalograms.

End CWT.

(** ** Vocabulary of the statements *)

Import TF CWT.

Definition strictly_increasing (l : list R) : Prop :=
  forall i, (S i < length l)%nat -> nth i l 0 < nth (S i) l 0.

Definition strictly_decreasing (l : list R) : Prop :=
  forall i, (S i < length l)%nat -> nth (S i) l 0 < nth i l 0.

(** [m] is the largest element of [l]. *)
Definition is_max (m : R) (l : list R) : Prop :=
  In m l /\ forall x, In x l -> x <= m.

(** *** Valid ranges *)

(** The arguments of the constructor in their valid range. *)
Definition valid_args (a : Args) : Prop :=
  0 < arg_wavelet_width a /\
  0 < arg_fs a /\
  0 < arg_lower_freq a /\
  arg_lower_freq a < arg_upper_freq a /\
  (2 <= arg_n_scales a)%Z /\
  1 <= arg_size_factor a /\
  (0 <= arg_border_crop a)%Z /\
  (1 <= arg_stride a)%Z /\
  Py.str_in (arg_output a) ["complex"; "magnitude"; "phase"]%string = true /\
  Py.str_in (arg_data_format a) ["channels_last"; "channels_first"]%string = true.

(** What a constructor that validates every argument would reject. *)
Definition malformed (a : Args) : Prop :=
  arg_lower_freq a >= arg_upper_freq a \/
  arg_lower_freq a <= 0 \/
  Py.str_in (arg_output a) ["complex"; "magnitude"; "phase"]%string = false \/
  Py.str_in (arg_data_format a) ["channels_last"; "channels_first"]%string = false \/
  (arg_n_scales a < 2)%Z \/
  arg_fs a <= 0 \/
  arg_wavelet_width a <= 0.

(** The attributes of a layer in their valid range: positive widths and
    sampling frequency, positive scales, a size factor of one at least. *)
Definition valid_attrs (self : MorletAttrs) : Prop :=
  0 < initial_wavelet_width self /\
  0 < wavelet_width self /\
  0 < fs self /\
  1 <= size_factor self /\
  scales self <> [] /\
  Forall (fun s => 0 < s) (scales self).

(** *** The bank *)

(** The shape and the entries of the bank that [_build_wavelet_bank]
    returns for the attributes [self], [o] being [one_side]. *)
Definition is_bank (self : MorletAttrs) (o : Z) (re im : tensor) : Prop :=
  shape re = [1; Z.to_nat (2 * o + 1); 1; length (scales self)]%nat /\
  shape im = [1; Z.to_nat (2 * o + 1); 1; length (scales self)]%nat /\
  forall b i c j,
    (j < length (scales self))%nat ->
    data re [b; i; c; j]
    = nth i (kernel_real self (t_array self (2 * o + 1) o) (nth j (scales self) 0)) 0 /\
    data im [b; i; c; j]
    = nth i (kernel_imag self (t_array self (2 * o + 1) o) (nth j (scales self) 0)) 0.

(** The bank stored in a layer has [ks] taps and [ns] scales. *)
Definition bank_shape (self : Layer) (ks ns : nat) : Prop :=
  shape (real_part self) = [1; ks; 1; ns]%nat /\
  shape (imaginary_part self) = [1; ks; 1; ns]%nat.

(** *** The layout of the input of [call] and of its result *)

Definition channels_last (self : Layer) : bool :=
  (data_format self =? "channels_last")%string.

Definition time_in (self : Layer) (x : tensor) : nat :=
  nth (if channels_last self then 1 else 2)%nat (shape x) 0%nat.

Definition n_channels (self : Layer) (x : tensor) : nat :=
  nth (if channels_last self then 2 else 1)%nat (shape x) 0%nat.

Definition time_out (self : Layer) (y : tensor) : nat :=
  nth (if channels_last self then 1 else 2)%nat (shape y) 0%nat.

Definition channels_out (self : Layer) (y : tensor) : nat :=
  nth (if channels_last self then 3 else 1)%nat (shape y) 0%nat.

(** The index of batch [b], channel [c], time [t] and scale [s] in the
    result of [call]. *)
Definition out_index (self : Layer) (b c t s : nat) : list nat :=
  if channels_last self then [b; t; s; c] else [b; c; t; s].

(** The number of border samples [call] cuts on each side, line 59. *)
Definition crop (self : Layer) : Z := (border_crop self / stride self)%Z.

(** The two responses of [call] before they are formatted, lines 58 to
    79. *)
Definition responses (self : Layer) (inputs : tensor) : result (tensor * tensor) :=
  border_crop <- Py.floordiv (border_crop self) (stride self) ;;
  let start := border_crop in
  let stop := if (0 <? border_crop)%Z then Some (- border_crop)%Z else None in
  inputs <- (if (data_format self =? "channels_last")%string
             then transpose inputs [0; 2; 1]%nat
             else Ok inputs) ;;
  inputs_expand <- expand_dims inputs 2 ;;
  inputs_expand <- expand_dims inputs_expand 4 ;;
  out_real <- conv2d_same inputs_expand (real_part self) 1 (stride self) ;;
  out_imag <- conv2d_same inputs_expand (neg (imaginary_part self)) 1 (stride self) ;;
  out_real <- crop_axis3 out_real start stop ;;
  out_imag <- crop_axis3 out_imag start stop ;;
  Ok (out_real, out_imag).

(** The same layer with another output format. *)
Definition set_outputformat (self : Layer) (f : string) : Layer :=
  {| attrs := attrs self;
     n_scales := n_scales self;
     border_crop := border_crop self;
     stride := stride self;
     outputformat := f;
     data_format := data_format self;
     real_part := real_part self;
     imaginary_part := imaginary_part self |}.

(** *** Concrete inputs *)

(** Arguments in their valid range: three scales from 1 Hz to 25 Hz at
    100 Hz, the defaults of the source elsewhere but for [trainable]. *)
Definition args_with (wavelet_width fs lower_freq : R) (trainable : bool)
    (border_crop : Z) (data_format : string) : Args :=
  {| arg_wavelet_width := wavelet_width;
     arg_fs := fs;
     arg_lower_freq := lower_freq;
     arg_upper_freq := 25;
     arg_n_scales := 3;
     arg_size_factor := 1;
     arg_trainable := trainable;
     arg_border_crop := border_crop;
     arg_stride := 1;
     arg_output := "complex";
     arg_data_format := data_format |}.

Definition example_args : Args := args_with 1 100 1 false 0 "channels_last".

(** The same with a trainable wavelet width. *)
Definition trainable_args : Args := args_with 1 100 1 true 0 "channels_last".

(** Arguments outside the valid range that the constructor takes. *)
Definition zero_fs_args : Args := args_with 1 0 1 false 0 "channels_last".

Definition zero_width_args : Args := args_with 0 100 1 false 0 "channels_last".

Definition equal_freq_args : Args := args_with 1 100 25 false 0 "channels_last".

(** Valid arguments with a border crop of 2, and with the channels first. *)
Definition crop_2_args : Args := args_with 1 100 1 false 2 "channels_last".

Definition channels_first_args : Args := args_with 1 100 1 false 0 "channels_first".

(** A tensor of a given shape, all zeros. *)
Definition zeros (sh : list nat) : tensor :=
  {| shape := sh; data := fun _ => 0 |}.

(** The attributes and a layer for [example_args]; the bank of the layer
    is left at zero, only its shape matters to [call]. *)
Definition example_attrs : MorletAttrs :=
  {| initial_wavelet_width := 1;
     fs := 100;
     lower_freq := 1;
     upper_freq := 25;
     size_factor := 1;
     trainable := false;
     scales := [0.04; 0.2; 1];
     frequencies := [25; 5; 1];
     wavelet_width := 1 |}.

Definition example_layer : Layer :=
  {| attrs := example_attrs;
     n_scales := 3;
     border_crop := 0;
     stride := 1;
     outputformat := "complex";
     data_format := "channels_last";
     real_part := zeros [1; 5; 1; 3]%nat;
     imaginary_part := zeros [1; 5; 1; 3]%nat |}.

(** A signal [1, 2, 3, 4] of shape [[1, 1, 1, 4, 1]] and a filter with the
    taps [1, 10, 100] of shape [[1, 3, 1, 1]]. *)
Definition ramp : tensor :=
  {| shape := [1; 1; 1; 4; 1]%nat;
     data := fun idx => INR (nth 3 idx 0%nat) + 1 |}.

Definition taps_1_10_100 : tensor :=
  {| shape := [1; 3; 1; 1]%nat;
     data := fun idx =>
       match nth 1 idx 0%nat with
       | 0%nat => 1
       | 1%nat => 10
       | _ => 100
       end |}.

(** One signal [1, 2, 3, 4] on one channel, channels last, and a layer
    whose bank has the taps [1, 10, 100] in both parts and which cuts one
    border sample. *)
Definition ramp_signal : tensor :=
  {| shape := [1; 4; 1]%nat;
     data := fun idx => INR (nth 1 idx 0%nat) + 1 |}.

Definition tiny_layer : Layer :=
  {| attrs := example_attrs;
     n_scales := 1;
     border_crop := 1;
     stride := 1;
     outputformat := "complex";
     data_format := "channels_last";
     real_part := taps_1_10_100;
     imaginary_part := taps_1_10_100 |}.

(** *** The responses of [call], entry by entry *)

(** The index of batch [b], time [t] and channel [c] in the input of
    [call]. *)
Definition in_index (self : Layer) (b t c : nat) : list nat :=
  if channels_last self then [b; t; c] else [b; c; t].

(** The signal of batch [b] and channel [c] at time [z], zero outside the
    time axis. *)
Definition padded_input (self : Layer) (x : tensor) (b : nat) (z : Z) (c : nat) : R :=
  if ((0 <=? z) && (z <? Z.of_nat (time_in self x)))%Z
  then data x (in_index self b (Z.to_nat z) c)
  else 0.

(** The number of zeros SAME padding puts before the signal. *)
Definition pad_before (self : Layer) (x : tensor) : nat :=
  same_pad_before (time_in self x) (nth 1 (shape (real_part self)) 0%nat)
    (Z.to_nat (stride self)).

(** The first position of the convolution that the crop keeps. *)
Definition first_kept (self : Layer) (x : tensor) : nat :=
  Z.to_nat (Py.slice_start
              (Z.of_nat (same_out (time_in self x) (Z.to_nat (stride self))))
              (crop self)).

(** The sliding product of the signal of batch [b] and channel [c] with
    column [s] of [bank], at position [t] of the result. *)
Definition correlate (self : Layer) (x bank : tensor) (b c t s : nat) : R :=
  sum_upto (nth 1 (shape bank) 0%nat) (fun j =>
    padded_input self x b
      (Z.of_nat ((first_kept self x + t) * Z.to_nat (stride self) + j)
       - Z.of_nat (pad_before self x)) c
    * data bank [0; j; 0; s]%nat).

(** The number of positions of the convolution and the number the crop
    keeps. *)
Definition conv_len (self : Layer) (x : tensor) : nat :=
  same_out (time_in self x) (Z.to_nat (stride self)).

Definition kept_len (self : Layer) (x : tensor) : nat :=
  Py.slice_len (Z.of_nat (conv_len self x)) (crop self)
    (if (0 <? crop self)%Z then Some (- crop self)%Z else None).

(** The shape of the result of [call] for [ch] output channels. *)
Definition out_shape (self : Layer) (x : tensor) (ch ns : nat) : list nat :=
  if channels_last self
  then [nth 0 (shape x) 0%nat; kept_len self x; ns; ch]
  else [nth 0 (shape x) 0%nat; ch; kept_len self x; ns].

(** The signal [a * x + y], entry by entry. *)
Definition lin_comb (a : R) (x y : tensor) : tensor :=
  {| shape := shape x; data := fun idx => a * data x idx + data y idx |}.

(** The same layer with another border crop, and with another data
    format. *)
Definition with_border_crop (self : Layer) (b : Z) : Layer :=
  {| attrs := attrs self;
     n_scales := n_scales self;
     border_crop := b;
     stride := stride self;
     outputformat := outputformat self;
     data_format := data_format self;
     real_part := real_part self;
     imaginary_part := imaginary_part self |}.

Definition with_data_format (self : Layer) (f : string) : Layer :=
  {| attrs := attrs self;
     n_scales := n_scales self;
     border_crop := border_crop self;
     stride := stride self;
     outputformat := outputformat self;
     data_format := f;
     real_part := real_part self;
     imaginary_part := imaginary_part self |}.

Definition with_stride (self : Layer) (s : Z) : Layer :=
  {| attrs := attrs self;
     n_scales := n_scales self;
     border_crop := border_crop self;
     stride := s;
     outputformat := outputformat self;
     data_format := data_format self;
     real_part := real_part self;
     imaginary_part := imaginary_part self |}.

(** Arguments at the edges of the constructor: a stride of zero, one
    scale only. *)
Definition zero_stride_args : Args :=
  {| arg_wavelet_width := 1;
     arg_fs := 100;
     arg_lower_freq := 1;
     arg_upper_freq := 25;
     arg_n_scales := 3;
     arg_size_factor := 1;
     arg_trainable := false;
     arg_border_crop := 0;
     arg_stride := 0;
     arg_output := "complex";
     arg_data_format := "channels_last" |}.

Definition one_scale_args : Args :=
  {| arg_wavelet_width := 1;
     arg_fs := 100;
     arg_lower_freq := 1;
     arg_upper_freq := 25;
     arg_n_scales := 1;
     arg_size_factor := 1;
     arg_trainable := false;
     arg_border_crop := 0;
     arg_stride := 1;
     arg_output := "complex";
     arg_data_format := "channels_last" |}.

(** * Properties *)

(** ** The primitives on small inputs *)

Example conv2d_same_stride_1 :
  exists y,
    conv2d_same ramp taps_1_10_100 1 1 = Ok y /\
    shape y = [1; 1; 1; 4; 1]%nat /\
    data y [0; 0; 0; 0; 0]%nat = 210 /\
    data y [0; 0; 0; 1; 0]%nat = 321 /\
    data y [0; 0; 0; 2; 0]%nat = 432 /\
    data y [0; 0; 0; 3; 0]%nat = 43.
Proof.
  eexists. split; [reflexivity |]. split; [reflexivity |].
  cbv -[Rplus Rmult IZR INR Rinv Ropp]. simpl INR. repeat split; lra.
Qed.

Example conv2d_same_stride_2 :
  exists y,
    conv2d_same ramp taps_1_10_100 1 2 = Ok y /\
    shape y = [1; 1; 1; 2; 1]%nat /\
    data y [0; 0; 0; 0; 0]%nat = 321 /\
    data y [0; 0; 0; 1; 0]%nat = 43.
Proof.
  eexists. split; [reflexivity |]. split; [reflexivity |].
  cbv -[Rplus Rmult IZR INR Rinv Ropp]. simpl INR. repeat split; lra.
Qed.

Example transpose_last_two :
  exists y,
    transpose (zeros [2; 128; 3]%nat) [0; 2; 1]%nat = Ok y /\
    shape y = [2; 3; 128]%nat.
Proof. eexists. split; reflexivity. Qed.

Example slice_len_examples :
  Py.slice_len 10 2 (Some (-2)%Z) = 6%nat /\
  Py.slice_len 10 0 None = 10%nat /\
  Py.slice_len 3 2 (Some (-2)%Z) = 0%nat.
Proof. repeat split. Qed.

Example int_truncates :
  Py.int (Some 2.5) = Ok 2%Z /\ Py.int (Some (-2.5)) = Ok (-2)%Z.
Proof.
  unfold Py.int. split.
  - destruct (Rle_dec 0 2.5) as [_ | N]; [| lra].
    f_equal. apply Zfloor_eq. simpl. lra.
  - destruct (Rle_dec 0 (-2.5)) as [H | _]; [lra |].
    f_equal. apply Zceil_eq. simpl. lra.
Qed.

(** [call] on the ramp: the two inner positions of the convolution, the
    real response in channel 0 and the response to the negated imaginary
    part in channel 1. *)
Example call_tiny_layer :
  exists y,
    call tiny_layer ramp_signal = Ok y /\
    shape y = [1; 2; 1; 2]%nat /\
    data y [0; 0; 0; 0]%nat = 321 /\
    data y [0; 1; 0; 0]%nat = 432 /\
    data y [0; 0; 0; 1]%nat = -321 /\
    data y [0; 1; 0; 1]%nat = -432.
Proof.
  eexists. split; [reflexivity |]. split; [reflexivity |].
  cbv -[Rplus Rmult IZR INR Rinv Ropp]. simpl INR. repeat split; lra.
Qed.



(** ** Scale generation *)

(** The constructor reaches its last line whenever no division is by
    zero. *)
Lemma generate_scales_returns (l u : R) (n : Z) :
  l <> 0 -> u <> 0 -> n <> 1%Z ->
  generate_scales l u n =
  Ok (map (fun i => 1 / u * Rpower (Rpower (1 / l / (1 / u)) (1 / IZR (n - 1))) (INR i))
          (seq 0 (Z.to_nat n)),
      map (fun s => 1 / s)
          (map (fun i => 1 / u
                         * Rpower (Rpower (1 / l / (1 / u)) (1 / IZR (n - 1))) (INR i))
               (seq 0 (Z.to_nat n)))).
Proof.
  intros Hl Hu Hn. unfold generate_scales, Py.truediv.
  destruct (Req_dec_T u 0) as [E | _]; [contradiction |].
  destruct (Req_dec_T l 0) as [E | _]; [contradiction |].
  cbn [bind].
  destruct (Req_dec_T (1 / u) 0) as [E | _].
  { unfold Rdiv in E. rewrite Rmult_1_l in E.
    apply Rinv_neq_0_compat in Hu. contradiction. }
  cbn [bind].
  destruct (Req_dec_T (IZR (n - 1)) 0) as [E | _].
  { apply eq_IZR in E. lia. }
  reflexivity.
Qed.

Section Scales.

Variables lower upper : R.
Variable n : Z.
Hypothesis lower_pos : 0 < lower.
Hypothesis lower_upper : lower < upper.
Hypothesis n_ge_2 : (2 <= n)%Z.

Let s_0 : R := 1 / upper.
Let s_n : R := 1 / lower.
Let base : R := Rpower (s_n / s_0) (1 / IZR (n - 1)).

Lemma upper_pos : 0 < upper.
Proof. lra. Qed.

Lemma s_0_pos : 0 < s_0.
Proof. unfold s_0. apply Rdiv_lt_0_compat; [lra | apply upper_pos]. Qed.

Lemma ratio_eq : s_n / s_0 = upper / lower.
Proof. unfold s_n, s_0. pose proof upper_pos. field. lra. Qed.

Lemma ratio_gt_1 : 1 < s_n / s_0.
Proof.
  rewrite ratio_eq. apply (Rmult_lt_reg_r lower); [exact lower_pos |].
  unfold Rdiv. rewrite Rmult_assoc, Rinv_l; lra.
Qed.

Lemma expo_pos : 0 < 1 / IZR (n - 1).
Proof.
  apply Rdiv_lt_0_compat; [lra |]. apply IZR_lt. lia.
Qed.

Lemma base_gt_1 : 1 < base.
Proof.
  unfold base. pose proof ratio_gt_1 as Hr.
  rewrite <- (Rpower_O (s_n / s_0)) at 1 by lra.
  apply Rpower_lt; [exact Hr | apply expo_pos].
Qed.

Lemma base_top : Rpower base (IZR (n - 1)) = s_n / s_0.
Proof.
  unfold base. rewrite Rpower_mult.
  replace (1 / IZR (n - 1) * IZR (n - 1)) with 1.
  - apply Rpower_1. pose proof ratio_gt_1. lra.
  - field. apply not_0_IZR. lia.
Qed.

Lemma generate_scales_eq :
  generate_scales lower upper n =
  Ok (map (fun i => s_0 * Rpower base (INR i)) (seq 0 (Z.to_nat n)),
      map (fun s => 1 / s)
          (map (fun i => s_0 * Rpower base (INR i)) (seq 0 (Z.to_nat n)))).
Proof.
  apply generate_scales_returns; [lra | pose proof upper_pos; lra | lia].
Qed.

Lemma scale_nth (i : nat) :
  (i < Z.to_nat n)%nat ->
  nth i (map (fun i => s_0 * Rpower base (INR i)) (seq 0 (Z.to_nat n))) 0
  = s_0 * Rpower base (INR i).
Proof.
  intros Hi.
  rewrite (nth_indep _ 0 (s_0 * Rpower base (INR 0)))
    by (rewrite length_map, length_seq; exact Hi).
  rewrite (map_nth (fun i => s_0 * Rpower base (INR i))).
  rewrite seq_nth by exact Hi. reflexivity.
Qed.

Lemma scale_pos (i : nat) : 0 < s_0 * Rpower base (INR i).
Proof.
  apply Rmult_lt_0_compat; [apply s_0_pos | apply exp_pos].
Qed.

Lemma scale_step (i : nat) :
  s_0 * Rpower base (INR i) < s_0 * Rpower base (INR (S i)).
Proof.
  apply Rmult_lt_compat_l; [apply s_0_pos |].
  apply Rpower_lt; [apply base_gt_1 |]. rewrite S_INR. lra.
Qed.

End Scales.

Lemma recip_lt (a b : R) : 0 < a -> a < b -> 1 / b < 1 / a.
Proof.
  intros Ha Hab. unfold Rdiv. rewrite !Rmult_1_l.
  apply Rinv_lt_contravar; [apply Rmult_lt_0_compat; lra | exact Hab].
Qed.

Lemma Rpower_25_half : Rpower (1 / 1 / (1 / 25)) (1 / IZR (3 - 1)) = 5.
Proof.
  replace (1 / 1 / (1 / 25)) with 25 by field.
  replace (1 / IZR (3 - 1)) with (/ 2) by (simpl; field).
  rewrite Rpower_sqrt by lra.
  apply sqrt_lem_1; lra.
Qed.

Theorem generate_scales_spec :
  (forall (lower upper : R) (n : Z),
      0 < lower -> lower < upper -> (2 <= n)%Z ->
      exists scales frequencies,
        generate_scales lower upper n = Ok (scales, frequencies) /\
        length scales = Z.to_nat n /\
        length frequencies = Z.to_nat n /\
        (forall i, (i < Z.to_nat n)%nat ->
           nth i scales 0
           = 1 / upper
             * Rpower (1 / lower / (1 / upper)) (1 / IZR (n - 1)) ^ i /\
           nth i frequencies 0 = 1 / nth i scales 0) /\
        strictly_increasing scales /\
        strictly_decreasing frequencies /\
        nth 0 frequencies 0 = upper /\
        nth (Z.to_nat n - 1) frequencies 0 = lower)
  /\ generate_scales 1 25 3 = Ok ([0.04; 0.2; 1], [25; 5; 1]).
Proof.
  split.
  - intros lower upper n Hl Hlu Hn.
    set (sc := map (fun i => 1 / upper
                      * Rpower (Rpower (1 / lower / (1 / upper)) (1 / IZR (n - 1))) (INR i))
                   (seq 0 (Z.to_nat n))).
    exists sc, (map (fun s => 1 / s) sc).
    assert (Hb := base_gt_1 lower upper n Hl Hlu Hn).
    assert (Hlen : length sc = Z.to_nat n)
      by (unfold sc; rewrite length_map, length_seq; reflexivity).
    assert (Hnth : forall i, (i < Z.to_nat n)%nat ->
              nth i sc 0 = 1 / upper
                * Rpower (Rpower (1 / lower / (1 / upper)) (1 / IZR (n - 1))) (INR i))
      by (intros i Hi; apply (scale_nth lower upper n i Hi)).
    assert (Hfr : forall i, (i < Z.to_nat n)%nat ->
              nth i (map (fun s => 1 / s) sc) 0 = 1 / nth i sc 0).
    { intros i Hi.
      rewrite (nth_indep _ 0 (1 / 0)) by (rewrite length_map, Hlen; exact Hi).
      apply (map_nth (fun s => 1 / s)). }
    split; [apply (generate_scales_eq lower upper n Hl Hlu Hn) |].
    split; [exact Hlen |].
    split; [rewrite length_map; exact Hlen |].
    split.
    { intros i Hi. split; [| apply Hfr; exact Hi].
      rewrite Hnth by exact Hi. rewrite Rpower_pow by lra. reflexivity. }
    split.
    { intros i Hi. rewrite Hlen in Hi.
      rewrite !Hnth by lia. apply (scale_step lower upper n Hl Hlu Hn). }
    split.
    { intros i Hi. rewrite length_map, Hlen in Hi.
      rewrite !Hfr, !Hnth by lia.
      pose proof (scale_pos lower upper n Hl Hlu i) as P1.
      pose proof (scale_step lower upper n Hl Hlu Hn i) as P2.
      apply recip_lt; assumption. }
    split.
    { rewrite Hfr, Hnth by lia. simpl INR. rewrite Rpower_O by lra.
      pose proof (upper_pos lower upper Hl Hlu). field. lra. }
    { rewrite Hfr, Hnth by lia.
      replace (INR (Z.to_nat n - 1)) with (IZR (n - 1)).
      - rewrite (base_top lower upper n Hl Hlu Hn).
        pose proof (upper_pos lower upper Hl Hlu). field. lra.
      - rewrite INR_IZR_INZ. f_equal. lia. }
  - rewrite (generate_scales_eq 1 25 3) by (lra || lia).
    rewrite Rpower_25_half.
    change (Z.to_nat 3) with 3%nat. cbn [seq map].
    rewrite !Rpower_pow by lra. simpl INR.
    replace (1 / 25 * 5 ^ 0) with 0.04 by (simpl; lra).
    replace (1 / 25 * 5 ^ 1) with 0.2 by (simpl; lra).
    replace (1 / 25 * 5 ^ 2) with 1 by (simpl; lra).
    replace (1 / 0.04) with 25 by lra.
    replace (1 / 0.2) with 5 by lra.
    replace (1 / 1) with 1 by lra.
    reflexivity.
Qed.

(** ** The wavelet bank *)

Lemma fold_left_Rmax_ge (xs : list R) (x : R) : x <= fold_left Rmax xs x.
Proof.
  revert x. induction xs as [| y ys IH]; intros x; simpl.
  - apply Rle_refl.
  - eapply Rle_trans; [apply (Rmax_l x y) | apply IH].
Qed.

Lemma fold_left_Rmax_is_max (xs : list R) (x : R) :
  is_max (fold_left Rmax xs x) (x :: xs).
Proof.
  revert x. induction xs as [| y ys IH]; intros x.
  - split; [left; reflexivity |].
    intros z [<- | []]. apply Rle_refl.
  - simpl fold_left. destruct (IH (Rmax x y)) as [Hin Hub]. split.
    + destruct Hin as [E | Hin]; [| right; right; exact Hin].
      rewrite <- E. unfold Rmax. destruct (Rle_dec x y); [right | ]; left; reflexivity.
    + intros z [<- | [<- | Hz]].
      * eapply Rle_trans; [apply (Rmax_l x y) | apply fold_left_Rmax_ge].
      * eapply Rle_trans; [apply (Rmax_r x y) | apply fold_left_Rmax_ge].
      * apply Hub. right. exact Hz.
Qed.

Lemma np_max_returns (l : list R) :
  l <> [] -> exists m, Py.np_max l = Ok m /\ is_max m l.
Proof.
  destruct l as [| x xs]; [congruence |]. intros _.
  exists (fold_left Rmax xs x). split; [reflexivity | apply fold_left_Rmax_is_max].
Qed.

Lemma is_max_pos (m : R) (l : list R) :
  is_max m l -> Forall (fun s => 0 < s) l -> 0 < m.
Proof.
  intros [Hin _] Hall. rewrite Forall_forall in Hall. apply Hall, Hin.
Qed.

Lemma length_mul_map {A : Type} (f g : A -> R) (l : list A) :
  length (Py.mul (map f l) (map g l)) = length l.
Proof. induction l as [| a l IH]; simpl; [reflexivity | now rewrite IH]. Qed.

Lemma nth_mul_map {A : Type} (f g : A -> R) (l : list A) (d : A) (i : nat) :
  (i < length l)%nat ->
  nth i (Py.mul (map f l) (map g l)) 0 = f (nth i l d) * g (nth i l d).
Proof.
  revert i. induction l as [| a l IH]; intros i Hi; simpl in *; [lia |].
  destruct i as [| i]; [reflexivity | apply IH; lia].
Qed.

Lemma length_t_array (self : MorletAttrs) (ks o : Z) :
  length (t_array self ks o) = Z.to_nat ks.
Proof.
  unfold t_array, k_array, Py.np_arange. now rewrite !length_map, length_seq.
Qed.

Lemma nth_t_array (self : MorletAttrs) (ks o : Z) (i : nat) :
  (i < Z.to_nat ks)%nat ->
  nth i (t_array self ks o) 0 = (INR i - IZR o) / fs self.
Proof.
  intros Hi. unfold t_array, k_array, Py.np_arange.
  rewrite map_map.
  rewrite (nth_indep _ 0 ((INR 0 - IZR o) / fs self))
    by (rewrite length_map, length_seq; exact Hi).
  rewrite (map_nth (fun i => (INR i - IZR o) / fs self)).
  now rewrite seq_nth.
Qed.

Lemma length_kernel_real (self : MorletAttrs) (t_arr : list R) (s : R) :
  length (kernel_real self t_arr s) = length t_arr.
Proof.
  unfold kernel_real, kernel_base, scaled_t.
  rewrite !map_map. apply length_mul_map.
Qed.

Lemma length_kernel_imag (self : MorletAttrs) (t_arr : list R) (s : R) :
  length (kernel_imag self t_arr s) = length t_arr.
Proof.
  unfold kernel_imag, kernel_base, scaled_t.
  rewrite !map_map. apply length_mul_map.
Qed.

(** One tap of a kernel, as the source computes it. *)
Lemma nth_kernel_real (self : MorletAttrs) (t_arr : list R) (s : R) (i : nat) :
  (i < length t_arr)%nat ->
  nth i (kernel_real self t_arr s) 0
  = exp (- (nth i t_arr 0 / s) ^ 2 / wavelet_width self)
    / norm_constant self s
    * cos (2 * PI * (nth i t_arr 0 / s)).
Proof.
  intros Hi. unfold kernel_real, kernel_base, scaled_t.
  rewrite !map_map. now rewrite (nth_mul_map _ _ t_arr 0).
Qed.

Lemma nth_kernel_imag (self : MorletAttrs) (t_arr : list R) (s : R) (i : nat) :
  (i < length t_arr)%nat ->
  nth i (kernel_imag self t_arr s) 0
  = exp (- (nth i t_arr 0 / s) ^ 2 / wavelet_width self)
    / norm_constant self s
    * sin (2 * PI * (nth i t_arr 0 / s)).
Proof.
  intros Hi. unfold kernel_imag, kernel_base, scaled_t.
  rewrite !map_map. now rewrite (nth_mul_map _ _ t_arr 0).
Qed.

Lemma stack_last_map {A : Type} (f : A -> list R) (l : list A) (len : nat) :
  l <> [] -> (forall a, length (f a) = len) ->
  exists t, stack_last (map f l) = Ok t /\
            shape t = [len; length l] /\
            forall idx, data t idx
                        = nth (nth 0 idx 0%nat) (nth (nth 1 idx 0%nat) (map f l) []) 0.
Proof.
  intros Hl Hlen. destruct l as [| a l]; [congruence |].
  unfold stack_last. cbn [map].
  assert (Hall : forallb (fun c' => (length c' =? length (f a))%nat)
                   (f a :: map f l) = true).
  { apply forallb_forall. intros c Hc.
    change (f a :: map f l) with (map f (a :: l)) in Hc.
    apply in_map_iff in Hc. destruct Hc as [a' [<- _]].
    rewrite !Hlen. apply Nat.eqb_refl. }
  rewrite Hall. eexists. split; [reflexivity |]. cbn [shape data].
  split; [| reflexivity].
  rewrite Hlen. cbn [length]. now rewrite length_map.
Qed.

Lemma build_returns (self : MorletAttrs) (o : Z) :
  one_side self = Ok o -> scales self <> [] ->
  exists re im, _build_wavelet_bank self = Ok (re, im) /\ is_bank self o re im.
Proof.
  intros Ho Hsc. unfold _build_wavelet_bank. rewrite Ho. cbn [bind].
  set (t_arr := t_array self (2 * o + 1) o).
  destruct (stack_last_map (kernel_real self t_arr) (scales self) (length t_arr) Hsc
              (length_kernel_real self t_arr)) as [re0 [Ere [Sre Dre]]].
  destruct (stack_last_map (kernel_imag self t_arr) (scales self) (length t_arr) Hsc
              (length_kernel_imag self t_arr)) as [im0 [Eim [Sim Dim]]].
  rewrite Ere, Eim. cbn [bind].
  unfold expand_dims, rank. rewrite Sre, Sim. cbn.
  eexists. eexists. split; [reflexivity |].
  unfold is_bank. cbn [shape data].
  unfold t_arr. rewrite length_t_array.
  split; [reflexivity |]. split; [reflexivity |].
  intros b i c j Hj. cbn. rewrite Dre, Dim. cbn.
  split.
  - rewrite (nth_indep _ [] (kernel_real self (t_array self (2 * o + 1) o) 0))
      by (rewrite length_map; exact Hj).
    now rewrite (map_nth (kernel_real self (t_array self (2 * o + 1) o))).
  - rewrite (nth_indep _ [] (kernel_imag self (t_array self (2 * o + 1) o) 0))
      by (rewrite length_map; exact Hj).
    now rewrite (map_nth (kernel_imag self (t_array self (2 * o + 1) o))).
Qed.

(** The sizing of the kernel. *)
Lemma truncation_size_returns (self : MorletAttrs) :
  scales self <> [] -> 0 <= initial_wavelet_width self ->
  exists m, is_max m (scales self) /\
    truncation_size self
    = Ok (Some (m * sqrt (4.5 * initial_wavelet_width self) * fs self)).
Proof.
  intros Hsc Hw. destruct (np_max_returns _ Hsc) as [m [Em Hm]].
  exists m. split; [exact Hm |].
  unfold truncation_size. rewrite Em. cbn [bind]. unfold Py.np_sqrt.
  destruct (Rlt_dec (4.5 * initial_wavelet_width self) 0) as [H | _]; [lra |].
  reflexivity.
Qed.

Lemma one_side_returns (self : MorletAttrs) :
  scales self <> [] -> 0 <= initial_wavelet_width self ->
  exists o, one_side self = Ok o.
Proof.
  intros Hsc Hw. destruct (truncation_size_returns self Hsc Hw) as [m [_ Et]].
  unfold one_side. rewrite Et. cbn. eexists. reflexivity.
Qed.

Lemma one_side_valid (self : MorletAttrs) :
  valid_attrs self ->
  exists m, is_max m (scales self) /\
    truncation_size self
    = Ok (Some (m * sqrt (4.5 * initial_wavelet_width self) * fs self)) /\
    one_side self
    = Ok (Zfloor (size_factor self
                  * (m * sqrt (4.5 * initial_wavelet_width self) * fs self))) /\
    (0 <= Zfloor (size_factor self
                  * (m * sqrt (4.5 * initial_wavelet_width self) * fs self)))%Z.
Proof.
  intros (Hiw & Hw & Hfs & Hsf & Hsc & Hpos).
  destruct (truncation_size_returns self Hsc (Rlt_le _ _ Hiw)) as [m [Hm Et]].
  exists m. split; [exact Hm |]. split; [exact Et |].
  assert (Hmpos : 0 < m) by (eapply is_max_pos; eassumption).
  assert (Hsq : 0 < sqrt (4.5 * initial_wavelet_width self))
    by (apply sqrt_lt_R0; lra).
  assert (Ht : 0 <= size_factor self
                    * (m * sqrt (4.5 * initial_wavelet_width self) * fs self)).
  { apply Rmult_le_pos; [lra |]. apply Rlt_le.
    apply Rmult_lt_0_compat; [apply Rmult_lt_0_compat |]; assumption. }
  split.
  - unfold one_side. rewrite Et. cbn.
    destruct (Rle_dec 0 _) as [_ | N]; [reflexivity | contradiction].
  - apply Zfloor_lub. simpl. exact Ht.
Qed.

Lemma one_side_set_wavelet_width (self : MorletAttrs) (w : R) :
  one_side (set_wavelet_width self w) = one_side self.
Proof. reflexivity. Qed.

Lemma tap_index (k o : Z) :
  (- o <= k <= o)%Z -> INR (Z.to_nat (k + o)) - IZR o = IZR k.
Proof.
  intros Hk. rewrite INR_IZR_INZ, Z2Nat.id by lia. rewrite plus_IZR. ring.
Qed.

(** The entries of a bank, by tap index [k] in [[-o, o]] and scale [j]. *)
Lemma bank_tap (self : MorletAttrs) (o : Z) (re im : tensor) (b c : nat)
    (k : Z) (j : nat) :
  is_bank self o re im ->
  (- o <= k <= o)%Z -> (j < length (scales self))%nat ->
  let s := nth j (scales self) 0 in
  let t := IZR k / fs self in
  data re [b; Z.to_nat (k + o); c; j]
  = exp (- (t / s) ^ 2 / wavelet_width self) / norm_constant self s
    * cos (2 * PI * (t / s)) /\
  data im [b; Z.to_nat (k + o); c; j]
  = exp (- (t / s) ^ 2 / wavelet_width self) / norm_constant self s
    * sin (2 * PI * (t / s)).
Proof.
  intros (_ & _ & Hd) Hk Hj s t.
  destruct (Hd b (Z.to_nat (k + o)) c j Hj) as [Hre Him].
  assert (Hi : (Z.to_nat (k + o) < Z.to_nat (2 * o + 1))%nat) by lia.
  rewrite Hre, Him.
  rewrite nth_kernel_real, nth_kernel_imag by (rewrite length_t_array; exact Hi).
  rewrite nth_t_array by exact Hi.
  rewrite tap_index by exact Hk. split; reflexivity.
Qed.

(** C2.  The bank that [_build_wavelet_bank] returns holds, at tap [k] of
    the column of scale [s], with [t = k / fs], the value
    [exp(-(t/s)^2 / w) / (sqrt(pi * w) * s * fs / 2)] times [cos(2*pi*t/s)]
    in the real part and times [sin(2*pi*t/s)] in the imaginary part, where
    [w] is the value the variable [wavelet_width] has when the bank is
    built, whatever the initial width that sizes the kernel. *)
Theorem build_wavelet_bank_formula :
  forall (self : MorletAttrs) (w : R),
    scales self <> [] -> 0 <= initial_wavelet_width self ->
    exists re im o,
      _build_wavelet_bank (set_wavelet_width self w) = Ok (re, im) /\
      one_side self = Ok o /\
      shape re = [1; Z.to_nat (2 * o + 1); 1; length (scales self)]%nat /\
      shape im = [1; Z.to_nat (2 * o + 1); 1; length (scales self)]%nat /\
      forall (k : Z) (j : nat),
        (- o <= k <= o)%Z -> (j < length (scales self))%nat ->
        let s := nth j (scales self) 0 in
        let t := IZR k / fs self in
        data re [0; Z.to_nat (k + o); 0; j]%nat
        = exp (- (t / s) ^ 2 / w) / (sqrt (PI * w) * s * fs self / 2)
          * cos (2 * PI * (t / s)) /\
        data im [0; Z.to_nat (k + o); 0; j]%nat
        = exp (- (t / s) ^ 2 / w) / (sqrt (PI * w) * s * fs self / 2)
          * sin (2 * PI * (t / s)).
Proof.
  intros self w Hsc Hw.
  destruct (one_side_returns self Hsc Hw) as [o Ho].
  destruct (build_returns (set_wavelet_width self w) o) as (re & im & Eb & Hb);
    [exact Ho | exact Hsc |].
  exists re, im, o. split; [exact Eb |]. split; [exact Ho |].
  split; [apply Hb |]. split; [apply Hb |].
  intros k j Hk Hj.
  exact (bank_tap (set_wavelet_width self w) o re im 0 0 k j Hb Hk Hj).
Qed.

(** The sizing of the kernel for valid attributes, whatever value the
    variable [wavelet_width] takes later. *)
Lemma kernel_sizing :
  forall self : MorletAttrs,
    valid_attrs self ->
    exists m : R,
      is_max m (scales self) /\
      let truncation := m * sqrt (4.5 * initial_wavelet_width self) * fs self in
      let o := Zfloor (size_factor self * truncation) in
      truncation_size self = Ok (Some truncation) /\
      one_side self = Ok o /\
      kernel_size self = Ok (2 * o + 1)%Z /\
      (0 <= o)%Z /\
      Z.odd (2 * o + 1) = true /\
      forall w : R,
        truncation_size (set_wavelet_width self w) = Ok (Some truncation) /\
        one_side (set_wavelet_width self w) = Ok o /\
        kernel_size (set_wavelet_width self w) = Ok (2 * o + 1)%Z.
Proof.
  intros self Hv.
  destruct (one_side_valid self Hv) as (m & Hm & Et & Eo & Hpos).
  exists m. split; [exact Hm |]. cbv zeta.
  assert (Ek : kernel_size self
               = Ok (2 * Zfloor (size_factor self
                       * (m * sqrt (4.5 * initial_wavelet_width self) * fs self)) + 1)%Z)
    by (unfold kernel_size; rewrite Eo; reflexivity).
  split; [exact Et |]. split; [exact Eo |]. split; [exact Ek |].
  split; [exact Hpos |].
  split; [apply Z.odd_odd |].
  intros w. split; [exact Et |]. split; [exact Eo | exact Ek].
Qed.

(** C7.  In every scale column of a built bank the real part is even and
    the imaginary part is odd about the center tap [one_side]. *)
Theorem bank_symmetry :
  forall self : MorletAttrs,
    scales self <> [] -> 0 <= initial_wavelet_width self ->
    exists re im o,
      _build_wavelet_bank self = Ok (re, im) /\
      one_side self = Ok o /\
      shape re = [1; Z.to_nat (2 * o + 1); 1; length (scales self)]%nat /\
      shape im = [1; Z.to_nat (2 * o + 1); 1; length (scales self)]%nat /\
      forall (k : Z) (j : nat),
        (0 <= k <= o)%Z -> (j < length (scales self))%nat ->
        data re [0; Z.to_nat (o + k); 0; j]%nat
        = data re [0; Z.to_nat (o - k); 0; j]%nat /\
        data im [0; Z.to_nat (o + k); 0; j]%nat
        = - data im [0; Z.to_nat (o - k); 0; j]%nat.
Proof.
  intros self Hsc Hw.
  destruct (one_side_returns self Hsc Hw) as [o Ho].
  destruct (build_returns self o Ho Hsc) as (re & im & Eb & Hb).
  exists re, im, o. split; [exact Eb |]. split; [exact Ho |].
  split; [apply Hb |]. split; [apply Hb |].
  intros k j Hk Hj.
  assert (H1 : (- o <= k <= o)%Z) by lia.
  assert (H2 : (- o <= - k <= o)%Z) by lia.
  destruct (bank_tap self o re im 0 0 k j Hb H1 Hj) as [Rp Ip].
  destruct (bank_tap self o re im 0 0 (- k) j Hb H2 Hj) as [Rm Im].
  cbv zeta in Rp, Ip, Rm, Im.
  replace (o + k)%Z with (k + o)%Z by lia.
  replace (o - k)%Z with (- k + o)%Z by lia.
  rewrite Rp, Ip, Rm, Im. rewrite opp_IZR.
  set (u := IZR k / fs self / nth j (scales self) 0).
  replace (- IZR k / fs self / nth j (scales self) 0) with (- u)
    by (unfold u, Rdiv; ring).
  replace ((- u) ^ 2) with (u ^ 2) by ring.
  replace (2 * PI * - u) with (- (2 * PI * u)) by ring.
  rewrite cos_neg, sin_neg. split; ring.
Qed.

Lemma norm_constant_pos (self : MorletAttrs) (s : R) :
  0 < wavelet_width self -> 0 < fs self -> 0 < s -> 0 < norm_constant self s.
Proof.
  intros Hw Hfs Hs. unfold norm_constant.
  assert (Hpi := PI_RGT_0).
  assert (Hsq : 0 < sqrt (PI * wavelet_width self))
    by (apply sqrt_lt_R0, Rmult_lt_0_compat; assumption).
  apply Rdiv_lt_0_compat; [| lra].
  apply Rmult_lt_0_compat; [apply Rmult_lt_0_compat |]; assumption.
Qed.

(** The center tap of a column of a bank. *)
Lemma bank_center (self : MorletAttrs) (o : Z) (re im : tensor) (b c j : nat) :
  is_bank self o re im -> (0 <= o)%Z -> (j < length (scales self))%nat ->
  data re [b; Z.to_nat o; c; j] = 1 / norm_constant self (nth j (scales self) 0) /\
  data im [b; Z.to_nat o; c; j] = 0.
Proof.
  intros Hb Ho Hj.
  assert (Hk : (- o <= 0 <= o)%Z) by lia.
  destruct (bank_tap self o re im b c 0 j Hb Hk Hj) as [Hre Him].
  cbv zeta in Hre, Him. rewrite Z.add_0_l in Hre, Him. rewrite Hre, Him.
  set (s := nth j (scales self) 0).
  replace (0 / fs self / s) with 0 by (unfold Rdiv; ring).
  replace (- 0 ^ 2 / wavelet_width self) with 0 by (unfold Rdiv; ring).
  rewrite Rmult_0_r, exp_0, cos_0, sin_0. split; ring.
Qed.

(** C10.  For valid attributes, in every scale column of the built bank the
    center tap of the imaginary part is zero and the center tap of the real
    part is [1 / norm], that is [2 / (sqrt(pi * wavelet_width) * scale * fs)],
    a positive number. *)
Theorem bank_center_tap :
  forall self : MorletAttrs,
    valid_attrs self ->
    exists re im o,
      _build_wavelet_bank self = Ok (re, im) /\
      one_side self = Ok o /\
      (0 <= o)%Z /\
      (Z.to_nat o < nth 1 (shape re) 0)%nat /\
      forall j : nat,
        (j < length (scales self))%nat ->
        let scale := nth j (scales self) 0 in
        data im [0; Z.to_nat o; 0; j]%nat = 0 /\
        data re [0; Z.to_nat o; 0; j]%nat = 1 / norm_constant self scale /\
        data re [0; Z.to_nat o; 0; j]%nat
        = 2 / (sqrt (PI * wavelet_width self) * scale * fs self) /\
        0 < data re [0; Z.to_nat o; 0; j]%nat.
Proof.
  intros self Hv.
  destruct (one_side_valid self Hv) as (m & _ & _ & Eo & Hpos).
  set (o := Zfloor _) in Eo, Hpos.
  destruct Hv as (Hiw & Hw & Hfs & Hsf & Hsc & Hall).
  destruct (build_returns self o Eo Hsc) as (re & im & Eb & Hb).
  exists re, im, o. split; [exact Eb |]. split; [exact Eo |].
  split; [exact Hpos |].
  split; [destruct Hb as (-> & _); cbn [nth]; lia |].
  intros j Hj scale.
  destruct (bank_center self o re im 0 0 j Hb Hpos Hj) as [Hre Him].
  assert (Hs : 0 < scale).
  { rewrite Forall_forall in Hall. apply Hall, nth_In, Hj. }
  assert (Hn := norm_constant_pos self scale Hw Hfs Hs).
  assert (E : 1 / norm_constant self scale
              = 2 / (sqrt (PI * wavelet_width self) * scale * fs self)).
  { assert (Hsq : 0 < sqrt (PI * wavelet_width self))
      by (apply sqrt_lt_R0, Rmult_lt_0_compat; [apply PI_RGT_0 | exact Hw]).
    unfold norm_constant. field. repeat split; lra. }
  split; [exact Him |]. fold scale in Hre. rewrite Hre.
  split; [reflexivity |]. split; [exact E |].
  apply Rdiv_lt_0_compat; lra.
Qed.

(** ** Construction *)

(** The attributes that [ComplexMorletCWT.__init__] computes from its
    arguments. *)
Lemma init_returns (a : Args) :
  0 < arg_lower_freq a -> arg_lower_freq a <= arg_upper_freq a ->
  (2 <= arg_n_scales a)%Z ->
  Py.str_in (arg_output a) ["complex"; "magnitude"; "phase"]%string = true ->
  Py.str_in (arg_data_format a) ["channels_last"; "channels_first"]%string = true ->
  0 <= arg_wavelet_width a ->
  exists layer o,
    ComplexMorletCWT_init a = Ok layer /\
    generate_scales (arg_lower_freq a) (arg_upper_freq a) (arg_n_scales a)
    = Ok (scales (attrs layer), frequencies (attrs layer)) /\
    initial_wavelet_width (attrs layer) = arg_wavelet_width a /\
    wavelet_width (attrs layer) = arg_wavelet_width a /\
    fs (attrs layer) = arg_fs a /\
    size_factor (attrs layer) = arg_size_factor a /\
    n_scales layer = arg_n_scales a /\
    border_crop layer = arg_border_crop a /\
    stride layer = arg_stride a /\
    outputformat layer = arg_output a /\
    data_format layer = arg_data_format a /\
    one_side (attrs layer) = Ok o /\
    is_bank (attrs layer) o (real_part layer) (imaginary_part layer).
Proof.
  intros Hl Hlu Hn Hout Hfmt Hw.
  unfold ComplexMorletCWT_init.
  destruct (Rgt_dec (arg_lower_freq a) (arg_upper_freq a)) as [H | _]; [lra |].
  destruct (Rlt_dec (arg_lower_freq a) 0) as [H | _]; [lra |].
  rewrite Hout, Hfmt. cbn [negb].
  rewrite generate_scales_returns by (lra || lia). cbn [bind fst snd].
  match goal with
  | |- context [ContinuousWaveletTransform_init ?s _ _ _ _ _] => set (self := s)
  end.
  assert (Hsc : scales self <> []).
  { unfold self. cbn [scales].
    destruct (Z.to_nat (arg_n_scales a)) as [| k] eqn:E; [lia |].
    cbn. discriminate. }
  destruct (one_side_returns self Hsc Hw) as [o Ho].
  destruct (build_returns self o Ho Hsc) as (re & im & Eb & Hb).
  unfold ContinuousWaveletTransform_init. rewrite Eb. cbn [bind fst snd].
  eexists. exists o. split; [reflexivity |]. cbn.
  repeat (split; [reflexivity |]). split; [exact Ho | exact Hb].
Qed.

Lemma is_bank_shape (self : Layer) (o : Z) :
  is_bank (attrs self) o (real_part self) (imaginary_part self) ->
  bank_shape self (Z.to_nat (2 * o + 1)) (length (scales (attrs self))).
Proof. intros (Hre & Him & _). split; assumption. Qed.

(** Valid arguments give a layer with valid attributes. *)
Lemma init_valid (a : Args) :
  valid_args a ->
  exists layer o,
    ComplexMorletCWT_init a = Ok layer /\
    valid_attrs (attrs layer) /\
    initial_wavelet_width (attrs layer) = arg_wavelet_width a /\
    length (scales (attrs layer)) = Z.to_nat (arg_n_scales a) /\
    stride layer = arg_stride a /\
    border_crop layer = arg_border_crop a /\
    outputformat layer = arg_output a /\
    data_format layer = arg_data_format a /\
    one_side (attrs layer) = Ok o /\
    is_bank (attrs layer) o (real_part layer) (imaginary_part layer).
Proof.
  intros (Hw & Hfs & Hl & Hlu & Hn & Hsf & Hbc & Hst & Hout & Hfmt).
  destruct (init_returns a Hl (Rlt_le _ _ Hlu) Hn Hout Hfmt (Rlt_le _ _ Hw))
    as (layer & o & Ei & Eg & Eiw & Eww & Efs & Esf & _ & Ebc & Est & Eo & Ef & Eos & Hb).
  exists layer, o. split; [exact Ei |].
  rewrite (generate_scales_eq _ _ _ Hl Hlu Hn) in Eg.
  injection Eg as Esc _.
  assert (Hlen : length (scales (attrs layer)) = Z.to_nat (arg_n_scales a))
    by (rewrite <- Esc, length_map, length_seq; reflexivity).
  split.
  { unfold valid_attrs. rewrite Eiw, Eww, Efs, Esf.
    repeat (split; [assumption |]). split.
    - intros E. rewrite E in Hlen. cbn in Hlen. lia.
    - rewrite <- Esc. apply Forall_forall. intros s Hs.
      apply in_map_iff in Hs. destruct Hs as [i [<- _]].
      apply scale_pos; assumption. }
  repeat (split; [assumption |]). exact Hb.
Qed.

Lemma example_args_valid : valid_args example_args.
Proof.
  unfold valid_args, example_args. cbn.
  repeat split; try lra; try lia.
Qed.

(** C3.  For every valid configuration the kernel is sized from the
    largest scale, the wavelet width given to the constructor and the
    sampling frequency: [truncation = max(scales) * sqrt(4.5 *
    initial_wavelet_width) * fs], [one_side = floor(size_factor *
    truncation)] and [kernel_size = 2 * one_side + 1], which is odd and is
    the number of taps of the bank; whatever value [w] the variable
    [wavelet_width] takes later, the sizing is the same. *)
Theorem kernel_size_spec :
  forall a : Args,
    valid_args a ->
    exists (layer : Layer) (m : R),
      ComplexMorletCWT_init a = Ok layer /\
      initial_wavelet_width (attrs layer) = arg_wavelet_width a /\
      is_max m (scales (attrs layer)) /\
      let truncation := m * sqrt (4.5 * arg_wavelet_width a) * arg_fs a in
      let o := Zfloor (arg_size_factor a * truncation) in
      (0 <= o)%Z /\
      Z.odd (2 * o + 1) = true /\
      bank_shape layer (Z.to_nat (2 * o + 1)) (Z.to_nat (arg_n_scales a)) /\
      forall w : R,
        let self := set_wavelet_width (attrs layer) w in
        truncation_size self = Ok (Some truncation) /\
        one_side self = Ok o /\
        kernel_size self = Ok (2 * o + 1)%Z.
Proof.
  intros a Hv.
  destruct (init_valid a Hv)
    as (layer & o & Ei & Hva & Eiw & Hlen & _ & _ & _ & _ & Eo & Hb).
  destruct Hv as (Hw & Hfs & Hl & Hlu & Hn & Hsf & Hbc & Hst & Hout & Hfmt).
  destruct (init_returns a Hl (Rlt_le _ _ Hlu) Hn Hout Hfmt (Rlt_le _ _ Hw))
    as (l2 & o2 & Ei2 & _ & _ & _ & Efs & Esf & _).
  rewrite Ei in Ei2. injection Ei2 as <-.
  destruct (kernel_sizing (attrs layer) Hva)
    as (m & Hm & Et & Eo' & Ek & Hpos & Hodd & Hall).
  rewrite Eiw, Efs in Et, Eo', Ek, Hpos, Hodd, Hall.
  rewrite Esf in Eo', Ek, Hpos, Hodd, Hall.
  exists layer, m. split; [exact Ei |]. split; [exact Eiw |].
  split; [exact Hm |]. cbv zeta.
  split; [exact Hpos |]. split; [exact Hodd |].
  split; [| exact Hall].
  rewrite Eo in Eo'. injection Eo' as <-. rewrite <- Hlen.
  apply is_bank_shape with (o := o). exact Hb.
Qed.

Lemma generate_scales_length (l u : R) (n : Z) (sc fr : list R) :
  generate_scales l u n = Ok (sc, fr) ->
  n <> 1%Z /\ length sc = Z.to_nat n.
Proof.
  unfold generate_scales, Py.truediv.
  destruct (Req_dec_T u 0); [discriminate |]. cbn [bind].
  destruct (Req_dec_T l 0); [discriminate |]. cbn [bind].
  destruct (Req_dec_T (1 / u) 0); [discriminate |]. cbn [bind].
  destruct (Req_dec_T (IZR (n - 1)) 0) as [E | N]; [discriminate |]. cbn [bind].
  intros H. injection H as <- _. split.
  - intros ->. apply N. reflexivity.
  - unfold Py.np_arange. now rewrite length_map, length_seq.
Qed.

Lemma raises_bind {A B : Type} (c : result A) (k : A -> result B) :
  (forall a, c = Ok a -> raises (k a)) -> raises (bind c k).
Proof.
  intros H. destruct c as [a | e]; cbn.
  - apply H. reflexivity.
  - exists e. reflexivity.
Qed.

Lemma build_raises (self : MorletAttrs) :
  raises (one_side self) -> raises (_build_wavelet_bank self).
Proof.
  intros [e He]. exists e. unfold _build_wavelet_bank. rewrite He. reflexivity.
Qed.

Lemma one_side_raises_empty (self : MorletAttrs) :
  scales self = [] -> raises (one_side self).
Proof.
  intros E. unfold one_side, truncation_size. rewrite E. cbn. eexists. reflexivity.
Qed.

Lemma one_side_raises_negative (self : MorletAttrs) :
  initial_wavelet_width self < 0 -> raises (one_side self).
Proof.
  intros Hw. unfold one_side, truncation_size.
  destruct (Py.np_max (scales self)) as [m | e]; cbn; [| eexists; reflexivity].
  unfold Py.np_sqrt.
  destruct (Rlt_dec (4.5 * initial_wavelet_width self) 0) as [_ | N]; [| lra].
  cbn. eexists. reflexivity.
Qed.

(** Past the four explicit checks, construction fails exactly when the
    scale generation or the sizing of the kernel does. *)
Lemma init_raises_later (a : Args) :
  (forall sc fr,
      generate_scales (arg_lower_freq a) (arg_upper_freq a) (arg_n_scales a)
      = Ok (sc, fr) ->
      forall self, scales self = sc ->
                   initial_wavelet_width self = arg_wavelet_width a ->
                   raises (one_side self)) ->
  raises (ComplexMorletCWT_init a).
Proof.
  intros H. unfold ComplexMorletCWT_init.
  destruct (Rgt_dec _ _); [eexists; reflexivity |].
  destruct (Rlt_dec _ _); [eexists; reflexivity |].
  destruct (negb _); [eexists; reflexivity |].
  destruct (negb _); [eexists; reflexivity |].
  apply raises_bind. intros [sc fr] E.
  unfold ContinuousWaveletTransform_init.
  apply raises_bind. intros bank Eb.
  match type of Eb with _build_wavelet_bank ?s = _ => set (self := s) in Eb end.
  assert (Hr : raises (one_side self)) by (apply (H sc fr E); reflexivity).
  destruct (build_raises self Hr) as [e He].
  rewrite He in Eb. discriminate.
Qed.

(** C8, as the code has it.  Construction raises a [ValueError] when
    [lower_freq > upper_freq], when [lower_freq < 0] and when the output or
    the data format is not one of the known strings; it also fails when
    [n_scales < 2] and when [wavelet_width < 0].  Neither [fs] nor a zero
    [wavelet_width] is checked: with [0 < lower_freq < upper_freq],
    [2 <= n_scales], known strings and [0 <= wavelet_width] construction
    returns a layer, whatever [fs] is. *)
Theorem init_validation :
  forall a : Args,
    (arg_lower_freq a > arg_upper_freq a \/
     arg_lower_freq a < 0 \/
     Py.str_in (arg_output a) ["complex"; "magnitude"; "phase"]%string = false \/
     Py.str_in (arg_data_format a) ["channels_last"; "channels_first"]%string = false ->
     exists msg, ComplexMorletCWT_init a = Raise (ValueError msg)) /\
    ((arg_n_scales a < 2)%Z -> raises (ComplexMorletCWT_init a)) /\
    (arg_wavelet_width a < 0 -> raises (ComplexMorletCWT_init a)) /\
    (0 < arg_lower_freq a -> arg_lower_freq a < arg_upper_freq a ->
     (2 <= arg_n_scales a)%Z ->
     Py.str_in (arg_output a) ["complex"; "magnitude"; "phase"]%string = true ->
     Py.str_in (arg_data_format a) ["channels_last"; "channels_first"]%string = true ->
     0 <= arg_wavelet_width a ->
     returns (ComplexMorletCWT_init a)).
Proof.
  intros a. split; [| split; [| split]].
  - intros H. unfold ComplexMorletCWT_init.
    destruct (Rgt_dec _ _) as [_ | N1]; [eexists; reflexivity |].
    destruct (Rlt_dec _ _) as [_ | N2]; [eexists; reflexivity |].
    destruct (Py.str_in (arg_output a) _) eqn:E1; cbn [negb];
      [| eexists; reflexivity].
    destruct (Py.str_in (arg_data_format a) _) eqn:E2; cbn [negb];
      [| eexists; reflexivity].
    destruct H as [H | [H | [H | H]]]; try contradiction; discriminate.
  - intros Hn. apply init_raises_later. intros sc fr E self Hsc _.
    destruct (generate_scales_length _ _ _ _ _ E) as [N1 Hlen].
    apply one_side_raises_empty. rewrite Hsc.
    destruct sc; [reflexivity |]. cbn in Hlen. lia.
  - intros Hw. apply init_raises_later. intros sc fr E self _ Hiw.
    apply one_side_raises_negative. rewrite Hiw. exact Hw.
  - intros Hl Hlu Hn Hout Hfmt Hw.
    destruct (init_returns a Hl (Rlt_le _ _ Hlu) Hn Hout Hfmt Hw)
      as (layer & o & Ei & _).
    exists layer. exact Ei.
Qed.

(** A zero wavelet width passes construction. *)
Lemma init_validation_witness :
  returns (ComplexMorletCWT_init zero_width_args).
Proof.
  apply (proj2 (proj2 (proj2 (init_validation zero_width_args))));
    cbn; try lra; try lia; reflexivity.
Defined.

(** C8, as the specification has it, fails: a sampling frequency of zero
    is malformed, and construction returns a layer all the same. *)
Lemma init_accepts_zero_fs :
  malformed zero_fs_args /\
  returns (ComplexMorletCWT_init zero_fs_args) /\
  ~ raises (ComplexMorletCWT_init zero_fs_args).
Proof.
  assert (R0 : returns (ComplexMorletCWT_init zero_fs_args)).
  { destruct (init_returns zero_fs_args) as (layer & o & Ei & _);
      cbn; try lra; try lia; try reflexivity.
    exists layer. exact Ei. }
  split; [| split; [exact R0 |]].
  - unfold malformed. cbn. do 5 right. left. lra.
  - intros [e He]. destruct R0 as [l Hl]. rewrite Hl in He. discriminate.
Qed.

(** The first check lets equal frequencies through: all the scales are
    then the same. *)
Lemma init_accepts_equal_frequencies :
  arg_lower_freq equal_freq_args = arg_upper_freq equal_freq_args /\
  returns (ComplexMorletCWT_init equal_freq_args).
Proof.
  split; [reflexivity |].
  destruct (init_returns equal_freq_args) as (layer & o & Ei & _);
    cbn; try lra; try lia; try reflexivity.
  exists layer. exact Ei.
Qed.

(** ** The bank that [call] uses *)

Lemma call_assign_wavelet_width (layer : Layer) (w : R) (x : tensor) :
  call (assign_wavelet_width layer w) x = call layer x.
Proof. reflexivity. Qed.

Lemma norm_constant_width (self : MorletAttrs) (w s : R) :
  0 < wavelet_width self -> 0 < w -> wavelet_width self <> w ->
  0 < fs self -> 0 < s ->
  1 / norm_constant self s <> 1 / norm_constant (set_wavelet_width self w) s.
Proof.
  intros Hw0 Hw Hne Hfs Hs E.
  assert (P1 := norm_constant_pos self s Hw0 Hfs Hs).
  assert (P2 := norm_constant_pos (set_wavelet_width self w) s Hw Hfs Hs).
  assert (E' : norm_constant self s = norm_constant (set_wavelet_width self w) s).
  { unfold Rdiv in E. rewrite !Rmult_1_l in E.
    apply Rinv_eq_reg in E. exact E. }
  unfold norm_constant in E'. cbn [wavelet_width fs set_wavelet_width] in E'.
  assert (Hpi := PI_RGT_0).
  assert (Esq : sqrt (PI * wavelet_width self) = sqrt (PI * w)).
  { apply (Rmult_eq_reg_r (s * fs self / 2)).
    - lra.
    - assert (0 < s * fs self) by (apply Rmult_lt_0_compat; assumption). lra. }
  apply sqrt_inj in Esq.
  - apply Rmult_eq_reg_l in Esq; [contradiction | lra].
  - apply Rlt_le, Rmult_lt_0_compat; assumption.
  - apply Rlt_le, Rmult_lt_0_compat; assumption.
Qed.

Lemma trainable_args_valid : valid_args trainable_args.
Proof.
  unfold valid_args, trainable_args. cbn.
  repeat split; try lra; try lia.
Qed.

(** C1, on the code.  The layer built from [trainable_args] keeps the bank
    of its construction: after the variable [wavelet_width] is assigned 2,
    [call] returns what it returned before on every input, and the stored
    real part differs at its center tap from the bank that
    [_build_wavelet_bank] gives for the current width. *)
Theorem call_uses_bank_of_construction :
  exists layer : Layer,
    ComplexMorletCWT_init trainable_args = Ok layer /\
    let layer' := assign_wavelet_width layer 2 in
    (forall x : tensor, call layer' x = call layer x) /\
    real_part layer' = real_part layer /\
    imaginary_part layer' = imaginary_part layer /\
    exists re im o,
      _build_wavelet_bank (attrs layer') = Ok (re, im) /\
      one_side (attrs layer') = Ok o /\
      data (real_part layer') [0; Z.to_nat o; 0; 0]%nat
      <> data re [0; Z.to_nat o; 0; 0]%nat.
Proof.
  destruct (init_valid trainable_args trainable_args_valid)
    as (layer & o & Ei & Hv & Eiw & Hlen & _ & _ & _ & _ & Eo & Hb).
  exists layer. split; [exact Ei |]. cbv zeta.
  split; [intros x; apply call_assign_wavelet_width |].
  split; [reflexivity |]. split; [reflexivity |].
  cbn [attrs assign_wavelet_width real_part].
  destruct (one_side_valid _ Hv) as (m & _ & _ & Eo' & Hpos).
  rewrite Eo in Eo'. injection Eo' as Eo'. rewrite <- Eo' in Hpos.
  destruct Hv as (Hiw & Hw & Hfs & Hsf & Hsc & Hall).
  destruct (build_returns (set_wavelet_width (attrs layer) 2) o Eo Hsc)
    as (re & im & Eb & Hb').
  exists re, im, o. split; [exact Eb |]. split; [exact Eo |].
  assert (Hj : (0 < length (scales (attrs layer)))%nat)
    by (rewrite Hlen; cbn; lia).
  destruct (bank_center _ o _ _ 0 0 0 Hb Hpos Hj) as [C1 _].
  destruct (bank_center _ o _ _ 0 0 0 Hb' Hpos Hj) as [C2 _].
  rewrite C1, C2. cbn [scales set_wavelet_width].
  assert (Hs : 0 < nth 0 (scales (attrs layer)) 0).
  { rewrite Forall_forall in Hall. apply Hall, nth_In, Hj. }
  assert (Eww : wavelet_width (attrs layer) = 1).
  { destruct (init_returns trainable_args) as (l2 & o2 & Ei2 & _ & _ & Eww & _);
      cbn; try lra; try lia; try reflexivity.
    rewrite Ei in Ei2. injection Ei2 as <-. exact Eww. }
  apply norm_constant_width; try assumption; try lra.
Qed.

(** ** The transform *)

Lemma call_responses (self : Layer) (x : tensor) :
  call self x
  = (p <- responses self x ;;
     scalograms <- format_output (outputformat self) (fst p) (snd p) ;;
     if (data_format self =? "channels_last")%string
     then transpose scalograms [0; 2; 3; 1]%nat
     else Ok scalograms).
Proof.
  unfold call, responses.
  repeat match goal with
         | |- bind ?c _ = bind (bind ?c _) _ =>
             destruct c; cbn [bind]; [| reflexivity]
         end.
  reflexivity.
Qed.

Lemma responses_returns (self : Layer) (x : tensor) (d0 d1 d2 ks ns : nat) :
  shape x = [d0; d1; d2] -> bank_shape self ks ns -> (1 <= stride self)%Z ->
  exists out_real out_imag,
    responses self x = Ok (out_real, out_imag) /\
    shape out_real
    = [d0; n_channels self x;
       Py.slice_len (Z.of_nat (same_out (time_in self x) (Z.to_nat (stride self))))
         (crop self)
         (if (0 <? crop self)%Z then Some (- crop self)%Z else None);
       ns] /\
    shape out_imag = shape out_real.
Proof.
  intros Hx [Hre Him] Hst.
  unfold responses, Py.floordiv, n_channels, time_in, channels_last, crop.
  destruct (Z.eqb_spec (stride self) 0) as [E | _]; [lia |]. cbn [bind].
  assert (Hs : ((1 <=? 0) || (stride self <=? 0))%Z = false).
  { cbn. apply Z.leb_gt. lia. }
  assert (H11 : same_out 1 (Z.to_nat 1) = 1%nat) by reflexivity.
  destruct (data_format self =? "channels_last")%string.
  - unfold transpose, rank. rewrite Hx. cbn [length Nat.eqb bind map nth].
    unfold expand_dims, rank. cbn [shape length Nat.leb bind firstn skipn app].
    unfold conv2d_same, rank.
    cbn [shape length Nat.ltb Nat.leb Nat.sub skipn firstn app neg map1].
    rewrite Hs, Hre, Him. cbn [Nat.eqb bind].
    unfold crop_axis3. cbn [shape app]. rewrite H11. cbn [Nat.eqb bind].
    eexists. eexists. split; [reflexivity |]. cbn [shape]. split; reflexivity.
  - cbn [bind].
    unfold expand_dims, rank. rewrite Hx.
    cbn [shape length Nat.leb bind firstn skipn app nth].
    unfold conv2d_same, rank.
    cbn [shape length Nat.ltb Nat.leb Nat.sub skipn firstn app neg map1].
    rewrite Hs, Hre, Him. cbn [Nat.eqb bind].
    unfold crop_axis3. cbn [shape app]. rewrite H11. cbn [Nat.eqb bind].
    eexists. eexists. split; [reflexivity |]. cbn [shape]. split; reflexivity.
Qed.

Lemma responses_set_outputformat (self : Layer) (f : string) (x : tensor) :
  responses (set_outputformat self f) x = responses self x.
Proof. reflexivity. Qed.

(** The result of [call] in terms of the two responses, for each of the
    three branches of the formatting. *)
Lemma call_magnitude (self : Layer) (x out_real out_imag : tensor)
    (d0 ch T ns : nat) :
  responses self x = Ok (out_real, out_imag) ->
  shape out_real = [d0; ch; T; ns] -> shape out_imag = shape out_real ->
  exists ym,
    call (set_outputformat self "magnitude") x = Ok ym /\
    shape ym = (if channels_last self then [d0; T; ns; ch] else [d0; ch; T; ns]) /\
    forall b c t s,
      data ym (out_index self b c t s)
      = sqrt (data out_real [b; c; t; s] ^ 2 + data out_imag [b; c; t; s] ^ 2).
Proof.
  intros Er Sre Sim. rewrite Sre in Sim.
  rewrite call_responses, responses_set_outputformat, Er.
  cbn [bind fst snd outputformat set_outputformat data_format].
  unfold format_output. cbn [String.eqb Ascii.eqb Bool.eqb bind].
  unfold out_index, channels_last.
  destruct (data_format self =? "channels_last")%string.
  - unfold transpose, rank. cbn [shape map1 add map2 square].
    rewrite Sre. cbn [length Nat.eqb map nth].
    eexists. split; [reflexivity |]. cbn [shape data]. split; [reflexivity |].
    intros b c t s. reflexivity.
  - eexists. split; [reflexivity |]. cbn [shape data map1 add map2 square].
    split; [exact Sre |]. intros b c t s. reflexivity.
Qed.

Lemma call_phase (self : Layer) (x out_real out_imag : tensor)
    (d0 ch T ns : nat) :
  responses self x = Ok (out_real, out_imag) ->
  shape out_real = [d0; ch; T; ns] -> shape out_imag = shape out_real ->
  exists yp,
    call (set_outputformat self "phase") x = Ok yp /\
    shape yp = (if channels_last self then [d0; T; ns; ch] else [d0; ch; T; ns]) /\
    forall b c t s,
      data yp (out_index self b c t s)
      = atan2_R (data out_imag [b; c; t; s]) (data out_real [b; c; t; s]).
Proof.
  intros Er Sre Sim. rewrite Sre in Sim.
  rewrite call_responses, responses_set_outputformat, Er.
  cbn [bind fst snd outputformat set_outputformat data_format].
  unfold format_output. cbn [String.eqb Ascii.eqb Bool.eqb bind].
  unfold out_index, channels_last.
  destruct (data_format self =? "channels_last")%string.
  - unfold transpose, rank. cbn [shape atan2 map2].
    rewrite Sim. cbn [length Nat.eqb map nth].
    eexists. split; [reflexivity |]. cbn [shape data]. split; [reflexivity |].
    intros b c t s. reflexivity.
  - eexists. split; [reflexivity |]. cbn [shape data atan2 map2].
    split; [exact Sim |]. intros b c t s. reflexivity.
Qed.

(** Every other output format is the complex one. *)
Lemma call_complex (self : Layer) (f : string) (x out_real out_imag : tensor)
    (d0 ch T ns : nat) :
  (f =? "magnitude")%string = false -> (f =? "phase")%string = false ->
  responses self x = Ok (out_real, out_imag) ->
  shape out_real = [d0; ch; T; ns] -> shape out_imag = shape out_real ->
  exists yc,
    call (set_outputformat self f) x = Ok yc /\
    shape yc = (if channels_last self
                then [d0; T; ns; (ch + ch)%nat] else [d0; (ch + ch)%nat; T; ns]) /\
    forall b c t s,
      (c < ch)%nat ->
      data yc (out_index self b c t s) = data out_real [b; c; t; s] /\
      data yc (out_index self b (c + ch) t s) = data out_imag [b; c; t; s].
Proof.
  intros F1 F2 Er Sre Sim. rewrite Sre in Sim.
  rewrite call_responses, responses_set_outputformat, Er.
  cbn [bind fst snd outputformat set_outputformat data_format].
  unfold format_output. rewrite F1, F2.
  unfold concat1. rewrite Sre, Sim.
  destruct (list_eq_dec Nat.eq_dec [d0; T; ns] [d0; T; ns]) as [_ | N];
    [| contradiction N; reflexivity].
  cbn [bind].
  unfold out_index, channels_last.
  destruct (data_format self =? "channels_last")%string.
  - unfold transpose, rank. cbn [shape length Nat.eqb map nth].
    eexists. split; [reflexivity |]. cbn [shape data]. split; [reflexivity |].
    intros b c t s Hc. cbn [map seq index_of Nat.eqb nth length skipn].
    assert (L1 : (c <? ch)%nat = true) by (apply Nat.ltb_lt; exact Hc).
    assert (L2 : (c + ch <? ch)%nat = false) by (apply Nat.ltb_ge; lia).
    rewrite L1, L2. replace (c + ch - ch)%nat with c by lia.
    split; reflexivity.
  - eexists. split; [reflexivity |]. cbn [shape data]. split; [reflexivity |].
    intros b c t s Hc. cbn [nth skipn].
    assert (L1 : (c <? ch)%nat = true) by (apply Nat.ltb_lt; exact Hc).
    assert (L2 : (c + ch <? ch)%nat = false) by (apply Nat.ltb_ge; lia).
    rewrite L1, L2. replace (c + ch - ch)%nat with c by lia.
    split; reflexivity.
Qed.

Lemma set_outputformat_same (self : Layer) :
  set_outputformat self (outputformat self) = self.
Proof. destruct self; reflexivity. Qed.

(** C6.  On one input, for layers that differ in the output format only:
    the magnitude output is [sqrt(re^2 + im^2)] and the phase output is
    [atan2(im, re)] of the real and imaginary parts of the complex output,
    entry by entry; the complex output has twice the channels of the
    input, the two others as many as the input. *)
Theorem output_formats_agree :
  forall (layer : Layer) (x : tensor) (d0 d1 d2 ks ns : nat),
    shape x = [d0; d1; d2] -> bank_shape layer ks ns -> (1 <= stride layer)%Z ->
    exists yc ym yp,
      call (set_outputformat layer "complex") x = Ok yc /\
      call (set_outputformat layer "magnitude") x = Ok ym /\
      call (set_outputformat layer "phase") x = Ok yp /\
      channels_out layer yc = (2 * n_channels layer x)%nat /\
      channels_out layer ym = n_channels layer x /\
      channels_out layer yp = n_channels layer x /\
      time_out layer ym = time_out layer yc /\
      time_out layer yp = time_out layer yc /\
      forall b c t s,
        (c < n_channels layer x)%nat ->
        let re := data yc (out_index layer b c t s) in
        let im := data yc (out_index layer b (c + n_channels layer x) t s) in
        data ym (out_index layer b c t s) = sqrt (re ^ 2 + im ^ 2) /\
        data yp (out_index layer b c t s) = atan2_R im re.
Proof.
  intros layer x d0 d1 d2 ks ns Hx Hb Hst.
  destruct (responses_returns layer x d0 d1 d2 ks ns Hx Hb Hst)
    as (R & I & Er & SR & SI).
  destruct (call_complex layer "complex" x R I _ _ _ _ eq_refl eq_refl Er SR SI)
    as (yc & Ec & Sc & Dc).
  destruct (call_magnitude layer x R I _ _ _ _ Er SR SI) as (ym & Em & Sm & Dm).
  destruct (call_phase layer x R I _ _ _ _ Er SR SI) as (yp & Ep & Sp & Dp).
  exists yc, ym, yp.
  split; [exact Ec |]. split; [exact Em |]. split; [exact Ep |].
  unfold channels_out, time_out. rewrite Sc, Sm, Sp.
  split; [destruct (channels_last layer); cbn [nth]; lia |].
  split; [destruct (channels_last layer); reflexivity |].
  split; [destruct (channels_last layer); reflexivity |].
  split; [destruct (channels_last layer); reflexivity |].
  split; [destruct (channels_last layer); reflexivity |].
  intros b c t s Hc. cbv zeta.
  destruct (Dc b c t s Hc) as [-> ->]. split; [apply Dm | apply Dp].
Qed.

(** ** The length of the time axis *)

Lemma same_out_ceil (n s : nat) :
  (0 < s)%nat -> Z.of_nat (same_out n s) = Zceil (INR n / INR s).
Proof.
  intros Hs. symmetry. apply Zceil_eq.
  unfold same_out.
  assert (Hq := Nat.div_mod_eq (n + s - 1) s).
  assert (Hr := Nat.mod_upper_bound (n + s - 1) s ltac:(lia)).
  set (q := ((n + s - 1) / s)%nat) in *.
  set (r := ((n + s - 1) mod s)%nat) in *.
  assert (H1 : (n <= q * s)%nat) by nia.
  assert (H2 : (q * s < n + s)%nat) by nia.
  assert (Hs' : 0 < INR s) by (apply lt_0_INR; exact Hs).
  rewrite <- INR_IZR_INZ.
  apply le_INR in H1. apply lt_INR in H2.
  rewrite mult_INR in H1. rewrite mult_INR, plus_INR in H2.
  split.
  - apply (Rmult_lt_reg_r (INR s)); [exact Hs' |].
    unfold Rdiv. rewrite Rmult_assoc, Rinv_l by lra. lra.
  - apply (Rmult_le_reg_r (INR s)); [exact Hs' |].
    unfold Rdiv. rewrite Rmult_assoc, Rinv_l by lra. lra.
Qed.

Lemma crop_floor (self : Layer) :
  (1 <= stride self)%Z ->
  crop self = Zfloor (IZR (border_crop self) / IZR (stride self)).
Proof.
  intros Hst. symmetry. apply Zfloor_eq. unfold crop.
  assert (Hs : 0 < IZR (stride self)) by (apply IZR_lt; lia).
  assert (Hq := Z.div_mod (border_crop self) (stride self) ltac:(lia)).
  assert (Hr := Z.mod_pos_bound (border_crop self) (stride self) ltac:(lia)).
  set (q := (border_crop self / stride self)%Z) in *.
  set (r := (border_crop self mod stride self)%Z) in *.
  assert (H1 : (q * stride self <= border_crop self)%Z) by lia.
  assert (H2 : (border_crop self < (q + 1) * stride self)%Z) by lia.
  apply IZR_le in H1. apply IZR_lt in H2.
  rewrite mult_IZR in H1. rewrite mult_IZR, plus_IZR in H2.
  split.
  - apply (Rmult_le_reg_r (IZR (stride self))); [exact Hs |].
    unfold Rdiv. rewrite Rmult_assoc, Rinv_l by lra. lra.
  - apply (Rmult_lt_reg_r (IZR (stride self))); [exact Hs |].
    unfold Rdiv. rewrite Rmult_assoc, Rinv_l by lra. lra.
Qed.

(** The length of the slice [c : -c] (all of the axis when [c = 0]) of an
    axis of length [len]. *)
Lemma slice_len_crop (len : nat) (c : Z) :
  (0 <= c)%Z ->
  Z.of_nat (Py.slice_len (Z.of_nat len) c
              (if (0 <? c)%Z then Some (- c)%Z else None))
  = Z.max 0 (Z.of_nat len - 2 * c).
Proof.
  intros Hc. unfold Py.slice_len, Py.slice_start, Py.slice_stop, Py.clip.
  destruct (Z.ltb_spec 0 c) as [Hpos | H0].
  - destruct (Z.ltb_spec c 0); [lia |].
    destruct (Z.ltb_spec (- c) 0); lia.
  - destruct (Z.ltb_spec c 0); lia.
Qed.

(** [call] returns on every input of rank 3, with the time axis cut. *)
Lemma call_returns (self : Layer) (x : tensor) (d0 d1 d2 ks ns : nat) :
  shape x = [d0; d1; d2] -> bank_shape self ks ns -> (1 <= stride self)%Z ->
  exists y,
    call self x = Ok y /\
    time_out self y
    = Py.slice_len (Z.of_nat (same_out (time_in self x) (Z.to_nat (stride self))))
        (crop self)
        (if (0 <? crop self)%Z then Some (- crop self)%Z else None).
Proof.
  intros Hx Hb Hst.
  destruct (responses_returns self x d0 d1 d2 ks ns Hx Hb Hst)
    as (R & I & Er & SR & SI).
  enough (G : forall f, exists y,
             call (set_outputformat self f) x = Ok y /\
             time_out self y
             = Py.slice_len
                 (Z.of_nat (same_out (time_in self x) (Z.to_nat (stride self))))
                 (crop self)
                 (if (0 <? crop self)%Z then Some (- crop self)%Z else None)).
  { specialize (G (outputformat self)).
    rewrite set_outputformat_same in G. exact G. }
  intros f.
  destruct (f =? "magnitude")%string eqn:F1.
  { apply String.eqb_eq in F1. rewrite F1.
    destruct (call_magnitude self x R I _ _ _ _ Er SR SI) as (y & Ey & Sy & _).
    exists y. split; [exact Ey |]. unfold time_out. rewrite Sy.
    destruct (channels_last self); reflexivity. }
  destruct (f =? "phase")%string eqn:F2.
  { apply String.eqb_eq in F2. rewrite F2.
    destruct (call_phase self x R I _ _ _ _ Er SR SI) as (y & Ey & Sy & _).
    exists y. split; [exact Ey |]. unfold time_out. rewrite Sy.
    destruct (channels_last self); reflexivity. }
  destruct (call_complex self f x R I _ _ _ _ F1 F2 Er SR SI) as (y & Ey & Sy & _).
  exists y. split; [exact Ey |]. unfold time_out. rewrite Sy.
  destruct (channels_last self); reflexivity.
Qed.

(** C5, as the code has it.  On an input of rank 3 the convolution leaves
    [ceil(time_in / stride)] time steps, and the slice that removes
    [crop = floor(border_crop / stride)] of them at each end leaves
    [max(0, ceil(time_in / stride) - 2 * crop)]: nothing is cut when
    [crop = 0]; with [stride = 1] the result has [time_in] steps when
    [border_crop = 0] and [time_in - 2 * border_crop] steps when
    [2 * border_crop <= time_in]. *)
Theorem time_out_spec :
  forall (layer : Layer) (x : tensor) (d0 d1 d2 ks ns : nat),
    shape x = [d0; d1; d2] -> bank_shape layer ks ns ->
    (1 <= stride layer)%Z -> (0 <= border_crop layer)%Z ->
    exists y,
      call layer x = Ok y /\
      let conv_len := Zceil (INR (time_in layer x) / IZR (stride layer)) in
      crop layer = Zfloor (IZR (border_crop layer) / IZR (stride layer)) /\
      Z.of_nat (time_out layer y) = Z.max 0 (conv_len - 2 * crop layer) /\
      (crop layer = 0%Z -> Z.of_nat (time_out layer y) = conv_len) /\
      (stride layer = 1%Z -> border_crop layer = 0%Z ->
       time_out layer y = time_in layer x) /\
      (stride layer = 1%Z ->
       (2 * border_crop layer <= Z.of_nat (time_in layer x))%Z ->
       Z.of_nat (time_out layer y)
       = (Z.of_nat (time_in layer x) - 2 * border_crop layer)%Z).
Proof.
  intros layer x d0 d1 d2 ks ns Hx Hb Hst Hbc.
  destruct (call_returns layer x d0 d1 d2 ks ns Hx Hb Hst) as (y & Ey & Ty).
  exists y. split; [exact Ey |]. cbv zeta.
  assert (Hc : (0 <= crop layer)%Z) by (unfold crop; apply Z.div_pos; lia).
  assert (Hlen : Z.of_nat (same_out (time_in layer x) (Z.to_nat (stride layer)))
                 = Zceil (INR (time_in layer x) / IZR (stride layer))).
  { rewrite same_out_ceil by lia.
    rewrite (INR_IZR_INZ (Z.to_nat (stride layer))), Z2Nat.id by lia. reflexivity. }
  assert (Hout : Z.of_nat (time_out layer y)
                 = Z.max 0 (Zceil (INR (time_in layer x) / IZR (stride layer))
                            - 2 * crop layer)).
  { rewrite Ty, slice_len_crop by exact Hc. rewrite Hlen. reflexivity. }
  assert (H1 : stride layer = 1%Z ->
               Zceil (INR (time_in layer x) / IZR (stride layer))
               = Z.of_nat (time_in layer x)).
  { intros ->. unfold Rdiv. rewrite Rinv_1, Rmult_1_r, INR_IZR_INZ.
    unfold Zceil. rewrite <- opp_IZR, ZfloorZ. lia. }
  assert (H2 : stride layer = 1%Z -> crop layer = border_crop layer)
    by (intros E; unfold crop; rewrite E; apply Z.div_1_r).
  split; [apply crop_floor; exact Hst |].
  split; [exact Hout |].
  split; [intros E; rewrite Hout, E; lia |].
  split.
  - intros E1 E0. apply Nat2Z.inj. rewrite Hout, (H1 E1), (H2 E1), E0. lia.
  - intros E1 Hle. rewrite Hout, (H1 E1), (H2 E1). lia.
Qed.

(** C5, as the specification has it, fails: with [border_crop = 2] and
    [stride = 1] an input of three time steps gives an output with no time
    step, not with [3 - 2 * 2] of them. *)
Lemma time_out_short_input :
  exists layer y,
    ComplexMorletCWT_init crop_2_args = Ok layer /\
    call layer (zeros [1; 3; 1]%nat) = Ok y /\
    stride layer = 1%Z /\
    border_crop layer = 2%Z /\
    time_in layer (zeros [1; 3; 1]%nat) = 3%nat /\
    time_out layer y = 0%nat /\
    Z.of_nat (time_out layer y)
    <> (Z.of_nat (time_in layer (zeros [1; 3; 1]%nat)) - 2 * border_crop layer)%Z.
Proof.
  assert (Hv : valid_args crop_2_args).
  { unfold valid_args. cbn. repeat split; try lra; try lia. }
  destruct (init_valid _ Hv)
    as (layer & o & Ei & _ & _ & _ & Est & Ebc & _ & Efmt & _ & Hb).
  cbn in Est, Ebc, Efmt.
  destruct (call_returns layer (zeros [1; 3; 1]%nat) 1 3 1 _ _ eq_refl
              (is_bank_shape layer o Hb) ltac:(lia)) as (y & Ey & Ty).
  assert (Hin : time_in layer (zeros [1; 3; 1]%nat) = 3%nat)
    by (unfold time_in, channels_last; rewrite Efmt; reflexivity).
  assert (Hout : time_out layer y = 0%nat).
  { rewrite Ty, Hin. unfold crop. rewrite Est, Ebc. reflexivity. }
  exists layer, y.
  repeat (split; [assumption |]).
  rewrite Hout, Hin, Ebc. lia.
Qed.

(** ** Inputs of another rank *)

Lemma call_raises_channels_last (self : Layer) (x : tensor) :
  channels_last self = true -> rank x <> 3%nat ->
  raises (call self x) /\
  (stride self <> 0%Z -> exists msg, call self x = Raise (ValueError msg)).
Proof.
  unfold channels_last. intros Hf Hr.
  unfold call, Py.floordiv. rewrite Hf.
  destruct (Z.eqb_spec (stride self) 0) as [E | N]; cbn [bind].
  - split; [eexists; reflexivity | contradiction].
  - unfold transpose. cbn [length].
    destruct (Nat.eqb_spec 3 (rank x)) as [E | _]; [congruence |].
    cbn [bind]. split; [eexists; reflexivity |]. intros _. eexists. reflexivity.
Qed.

Lemma expand_dims_cases (a : tensor) (axis : nat) :
  (exists t, expand_dims a axis = Ok t /\ rank t = S (rank a)) \/
  (exists msg, expand_dims a axis = Raise (ValueError msg) /\ (rank a < axis)%nat).
Proof.
  unfold expand_dims. destruct (Nat.leb_spec axis (rank a)) as [H | H].
  - left. eexists. split; [reflexivity |]. unfold rank in *. cbn [shape].
    rewrite length_app. cbn [length]. rewrite length_firstn, length_skipn. lia.
  - right. eexists. split; [reflexivity | exact H].
Qed.

Lemma call_raises_channels_first (self : Layer) (x : tensor) :
  channels_last self = false -> (rank x < 3)%nat ->
  raises (call self x) /\
  (stride self <> 0%Z -> exists msg, call self x = Raise (ValueError msg)).
Proof.
  unfold channels_last. intros Hf Hr.
  unfold call, Py.floordiv. rewrite Hf.
  destruct (Z.eqb_spec (stride self) 0) as [E | N]; cbn [bind].
  { split; [eexists; reflexivity | contradiction]. }
  destruct (expand_dims_cases x 2) as [(t & -> & Ht) | (msg & -> & _)]; cbn [bind].
  - destruct (expand_dims_cases t 4) as [(t' & Et' & _) | (msg & -> & _)].
    + exfalso. unfold expand_dims in Et'.
      destruct (Nat.leb_spec 4 (rank t)); [lia | discriminate].
    + cbn [bind]. split; [eexists; reflexivity |]. intros _. eexists. reflexivity.
  - split; [eexists; reflexivity |]. intros _. eexists. reflexivity.
Qed.

(** C9, as the code has it.  [call] checks no shape itself.  With
    [channels_last] an input whose rank is not 3 makes [tf.transpose]
    raise, and with [channels_first] an input of rank below 3 makes
    [tf.expand_dims] raise: the call fails and returns nothing.  No number
    of channels is configured: every input of rank 3 is accepted. *)
Theorem call_shape_errors :
  forall (layer : Layer) (x : tensor),
    (channels_last layer = true -> rank x <> 3%nat -> raises (call layer x)) /\
    (channels_last layer = true -> rank x <> 3%nat -> stride layer <> 0%Z ->
     exists msg, call layer x = Raise (ValueError msg)) /\
    (channels_last layer = false -> (rank x < 3)%nat -> raises (call layer x)) /\
    (channels_last layer = false -> (rank x < 3)%nat -> stride layer <> 0%Z ->
     exists msg, call layer x = Raise (ValueError msg)) /\
    (forall d0 d1 d2 ks ns,
        shape x = [d0; d1; d2] -> bank_shape layer ks ns ->
        (1 <= stride layer)%Z ->
        returns (call layer x)).
Proof.
  intros layer x.
  split; [intros Hf Hr; apply (call_raises_channels_last layer x Hf Hr) |].
  split; [intros Hf Hr; apply (call_raises_channels_last layer x Hf Hr) |].
  split; [intros Hf Hr; apply (call_raises_channels_first layer x Hf Hr) |].
  split; [intros Hf Hr; apply (call_raises_channels_first layer x Hf Hr) |].
  intros d0 d1 d2 ks ns Hx Hb Hst.
  destruct (call_returns layer x d0 d1 d2 ks ns Hx Hb Hst) as (y & Ey & _).
  exists y. exact Ey.
Qed.

(** C9, as the specification has it, fails: a [channels_first] layer takes
    an input of rank 4 and returns a tensor. *)
Lemma call_accepts_rank_4 :
  exists layer y,
    ComplexMorletCWT_init channels_first_args = Ok layer /\
    channels_last layer = false /\
    rank (zeros [1; 1; 4; 1]%nat) = 4%nat /\
    call layer (zeros [1; 1; 4; 1]%nat) = Ok y /\
    ~ raises (call layer (zeros [1; 1; 4; 1]%nat)).
Proof.
  assert (Hv : valid_args channels_first_args).
  { unfold valid_args. cbn. repeat split; try lra; try lia. }
  destruct (init_valid _ Hv)
    as (layer & o & Ei & _ & _ & _ & Est & Ebc & Eout & Efmt & _ & Hb).
  cbn in Est, Ebc, Eout, Efmt.
  destruct (is_bank_shape layer o Hb) as [Hre Him].
  assert (Ec : exists y, call layer (zeros [1; 1; 4; 1]%nat) = Ok y).
  { unfold call, Py.floordiv. rewrite Est, Ebc, Eout, Efmt.
    cbn [Z.eqb bind String.eqb Ascii.eqb Bool.eqb Z.div Z.ltb].
    unfold expand_dims, rank, zeros.
    cbn [shape length Nat.leb bind firstn skipn app].
    unfold conv2d_same, rank.
    cbn [shape length Nat.ltb Nat.leb Nat.sub skipn firstn app neg map1].
    rewrite Hre, Him.
    cbn [Z.leb Z.compare orb Nat.eqb bind].
    unfold crop_axis3. cbn [shape app].
    change (same_out 4 (Z.to_nat 1)) with 4%nat.
    change (same_out 1 (Z.to_nat 1)) with 1%nat.
    cbn [Nat.eqb bind].
    unfold format_output. cbn [String.eqb Ascii.eqb Bool.eqb].
    unfold concat1. cbn [shape].
    destruct (list_eq_dec Nat.eq_dec _ _) as [_ | N]; [| contradiction N; reflexivity].
    eexists. reflexivity. }
  destruct Ec as [y Ey].
  exists layer, y. split; [exact Ei |].
  split; [unfold channels_last; rewrite Efmt; reflexivity |].
  split; [reflexivity |]. split; [exact Ey |].
  intros [e He]. rewrite Ey in He. discriminate.
Qed.

(** ** The entries of the transform *)

Lemma sum_upto_ext (n : nat) (f g : nat -> R) :
  (forall j, (j < n)%nat -> f j = g j) -> sum_upto n f = sum_upto n g.
Proof.
  induction n as [| n IH]; intros H; cbn; [reflexivity |].
  rewrite IH by (intros j Hj; apply H; lia). rewrite H by lia. reflexivity.
Qed.

Lemma sum_upto_1 (f : nat -> R) : sum_upto 1 f = f 0%nat.
Proof. cbn. ring. Qed.

Lemma at_padded_row_0 (a : tensor) (w : nat) (b : list nat) (z : Z) :
  at_padded a 1 w b
    (Z.of_nat (0 * Z.to_nat 1 + 0) - Z.of_nat (same_pad_before 1 1 (Z.to_nat 1)))
    z 0
  = if ((0 <=? z) && (z <? Z.of_nat w))%Z
    then data a (b ++ [0%nat; Z.to_nat z; 0%nat]) else 0.
Proof.
  unfold at_padded.
  change (Z.of_nat (0 * Z.to_nat 1 + 0)
          - Z.of_nat (same_pad_before 1 1 (Z.to_nat 1)))%Z with 0%Z.
  cbn [Z.leb Z.ltb Z.compare Z.of_nat Pos.of_succ_nat andb]. reflexivity.
Qed.

Ltac response_entry :=
  rewrite sum_upto_1; apply sum_upto_ext; intros j _;
  rewrite sum_upto_1, at_padded_row_0;
  match goal with
  | |- context [Z.ltb ?z (Z.of_nat _)] =>
      generalize z; let z' := fresh "z" in
      intros z'; destruct ((0 <=? z') && (z' <? _))%Z; reflexivity
  end.

Lemma responses_value (self : Layer) (x : tensor) (d0 d1 d2 ks ns : nat) :
  shape x = [d0; d1; d2] -> bank_shape self ks ns -> (1 <= stride self)%Z ->
  exists out_real out_imag,
    responses self x = Ok (out_real, out_imag) /\
    shape out_real
    = [d0; n_channels self x;
       Py.slice_len (Z.of_nat (same_out (time_in self x) (Z.to_nat (stride self))))
         (crop self)
         (if (0 <? crop self)%Z then Some (- crop self)%Z else None);
       ns] /\
    shape out_imag = shape out_real /\
    forall b c t s,
      data out_real [b; c; t; s] = correlate self x (real_part self) b c t s /\
      data out_imag [b; c; t; s] = correlate self x (neg (imaginary_part self)) b c t s.
Proof.
  intros Hx [Hre Him] Hst.
  unfold responses, Py.floordiv.
  destruct (Z.eqb_spec (stride self) 0) as [E | _]; [lia |]. cbn [bind].
  assert (Hs : ((1 <=? 0) || (stride self <=? 0))%Z = false).
  { cbn. apply Z.leb_gt. lia. }
  assert (H11 : same_out 1 (Z.to_nat 1) = 1%nat) by reflexivity.
  unfold correlate, padded_input, pad_before, first_kept, in_index, time_in, crop,
    n_channels, channels_last.
  destruct (data_format self =? "channels_last")%string.
  - unfold transpose, rank. rewrite Hx. cbn [length Nat.eqb bind map nth].
    unfold expand_dims, rank. cbn [shape length Nat.leb bind firstn skipn app].
    unfold conv2d_same, rank.
    cbn [shape length Nat.ltb Nat.leb Nat.sub skipn firstn app neg map1].
    rewrite Hs, Hre, Him. cbn [Nat.eqb bind].
    unfold crop_axis3. cbn [shape app]. rewrite H11. cbn [Nat.eqb bind].
    eexists. eexists. split; [reflexivity |]. cbn [shape].
    split; [reflexivity |]. split; [reflexivity |].
    intros b c t s. cbn [data nth skipn firstn app Nat.sub shape map1].
    split; response_entry.
  - cbn [bind].
    unfold expand_dims, rank. rewrite Hx.
    cbn [shape length Nat.leb bind firstn skipn app nth].
    unfold conv2d_same, rank.
    cbn [shape length Nat.ltb Nat.leb Nat.sub skipn firstn app neg map1].
    rewrite Hs, Hre, Him. cbn [Nat.eqb bind].
    unfold crop_axis3. cbn [shape app]. rewrite H11. cbn [Nat.eqb bind].
    eexists. eexists. split; [reflexivity |]. cbn [shape].
    split; [reflexivity |]. split; [reflexivity |].
    intros b c t s. cbn [data nth skipn firstn app Nat.sub shape map1].
    split; response_entry.
Qed.

Lemma sum_upto_opp (n : nat) (f : nat -> R) :
  sum_upto n (fun j => - f j) = - sum_upto n f.
Proof. induction n as [| n IH]; cbn; [ring | rewrite IH; ring]. Qed.

Lemma sum_upto_lin (n : nat) (a : R) (f g : nat -> R) :
  sum_upto n (fun j => a * f j + g j) = a * sum_upto n f + sum_upto n g.
Proof. induction n as [| n IH]; cbn; [ring | rewrite IH; ring]. Qed.

Lemma correlate_neg (self : Layer) (x bank : tensor) (b c t s : nat) :
  correlate self x (neg bank) b c t s = - correlate self x bank b c t s.
Proof.
  unfold correlate. cbn [neg map1 shape data].
  rewrite <- sum_upto_opp. apply sum_upto_ext. intros j _. ring.
Qed.

(** The three results of [call] on one input, entry by entry. *)
Lemma call_values (self : Layer) (x : tensor) (d0 d1 d2 ks ns : nat) :
  shape x = [d0; d1; d2] -> bank_shape self ks ns -> (1 <= stride self)%Z ->
  exists yc ym yp,
    call (set_outputformat self "complex") x = Ok yc /\
    call (set_outputformat self "magnitude") x = Ok ym /\
    call (set_outputformat self "phase") x = Ok yp /\
    shape yc = out_shape self x (n_channels self x + n_channels self x) ns /\
    shape ym = out_shape self x (n_channels self x) ns /\
    shape yp = out_shape self x (n_channels self x) ns /\
    forall b c t s,
      let re := correlate self x (real_part self) b c t s in
      let im := - correlate self x (imaginary_part self) b c t s in
      data ym (out_index self b c t s) = sqrt (re ^ 2 + im ^ 2) /\
      data yp (out_index self b c t s) = atan2_R im re /\
      ((c < n_channels self x)%nat ->
       data yc (out_index self b c t s) = re /\
       data yc (out_index self b (c + n_channels self x) t s) = im).
Proof.
  intros Hx Hb Hst.
  destruct (responses_value self x d0 d1 d2 ks ns Hx Hb Hst)
    as (R & I & Er & SR & SI & D).
  destruct (call_complex self "complex" x R I _ _ _ _ eq_refl eq_refl Er SR SI)
    as (yc & Ec & Sc & Dc).
  destruct (call_magnitude self x R I _ _ _ _ Er SR SI) as (ym & Em & Sm & Dm).
  destruct (call_phase self x R I _ _ _ _ Er SR SI) as (yp & Ep & Sp & Dp).
  exists yc, ym, yp.
  split; [exact Ec |]. split; [exact Em |]. split; [exact Ep |].
  unfold out_shape, kept_len, conv_len. rewrite Hx. cbn [nth].
  split; [exact Sc |]. split; [exact Sm |]. split; [exact Sp |].
  intros b c t s. cbv zeta.
  destruct (D b c t s) as [DR DI]. rewrite correlate_neg in DI.
  rewrite Dm, Dp, DR, DI.
  split; [reflexivity |]. split; [reflexivity |].
  intros Hc. destruct (Dc b c t s Hc) as [-> ->]. split; assumption.
Qed.

(** X1.  In the complex format, entry (batch [b], time [t], scale [s]) of
    output channel [c] is the sliding product of input channel [c] with
    column [s] of the real part of the stored bank, and that of output
    channel [c + n_channels] is the sliding product with the imaginary part,
    negated; position [t] of the result reads the zero-padded signal from
    time [(first_kept + t) * stride - pad_before] on. *)
Theorem call_complex_entries :
  forall (layer : Layer) (x : tensor) (d0 d1 d2 ks ns : nat),
    shape x = [d0; d1; d2] -> bank_shape layer ks ns -> (1 <= stride layer)%Z ->
    exists y,
      call (set_outputformat layer "complex") x = Ok y /\
      forall b c t s,
        (c < n_channels layer x)%nat ->
        data y (out_index layer b c t s)
        = sum_upto ks (fun j =>
            padded_input layer x b
              (Z.of_nat ((first_kept layer x + t) * Z.to_nat (stride layer) + j)
               - Z.of_nat (pad_before layer x)) c
            * data (real_part layer) [0; j; 0; s]%nat) /\
        data y (out_index layer b (c + n_channels layer x) t s)
        = - sum_upto ks (fun j =>
              padded_input layer x b
                (Z.of_nat ((first_kept layer x + t) * Z.to_nat (stride layer) + j)
                 - Z.of_nat (pad_before layer x)) c
              * data (imaginary_part layer) [0; j; 0; s]%nat).
Proof.
  intros layer x d0 d1 d2 ks ns Hx Hb Hst.
  destruct (call_values layer x d0 d1 d2 ks ns Hx Hb Hst)
    as (yc & ym & yp & Ec & _ & _ & _ & _ & _ & D).
  exists yc. split; [exact Ec |].
  intros b c t s Hc. destruct (D b c t s) as (_ & _ & Dc).
  destruct (Dc Hc) as [-> ->]. unfold correlate.
  destruct Hb as [-> ->]. cbn [nth]. split; reflexivity.
Qed.

(** ** Linearity, channels and layouts *)

Lemma padded_input_lin (self : Layer) (a : R) (x y : tensor) (b : nat) (z : Z)
    (c : nat) :
  shape y = shape x ->
  padded_input self (lin_comb a x y) b z c
  = a * padded_input self x b z c + padded_input self y b z c.
Proof.
  intros Hy. unfold padded_input, time_in. cbn [lin_comb shape data]. rewrite Hy.
  destruct ((0 <=? z) && (z <? _))%Z; ring.
Qed.

Lemma correlate_lin (self : Layer) (a : R) (x y bank : tensor) (b c t s : nat) :
  shape y = shape x ->
  correlate self (lin_comb a x y) bank b c t s
  = a * correlate self x bank b c t s + correlate self y bank b c t s.
Proof.
  intros Hy. unfold correlate, first_kept, pad_before, time_in.
  cbn [lin_comb shape]. rewrite Hy. rewrite <- sum_upto_lin.
  apply sum_upto_ext. intros j _.
  rewrite padded_input_lin by exact Hy. ring.
Qed.

(** Every channel of the complex result is below [2 * n_channels]: the
    real responses first, the imaginary ones after. *)
Lemma complex_channel_cases (n c : nat) :
  (c < 2 * n)%nat -> (c < n)%nat \/ exists c', (c' < n)%nat /\ c = (c' + n)%nat.
Proof.
  intros Hc. destruct (Nat.lt_ge_cases c n) as [H | H]; [left; exact H |].
  right. exists (c - n)%nat. split; lia.
Qed.

(** X2.  In the complex format the transform is linear in the signal: on
    [a * x + y] every entry of the result is [a] times the entry for [x]
    plus the entry for [y]. *)
Theorem call_complex_linear :
  forall (layer : Layer) (a : R) (x y : tensor) (d0 d1 d2 ks ns : nat),
    shape x = [d0; d1; d2] -> shape y = shape x ->
    bank_shape layer ks ns -> (1 <= stride layer)%Z ->
    exists zx zy z,
      call (set_outputformat layer "complex") x = Ok zx /\
      call (set_outputformat layer "complex") y = Ok zy /\
      call (set_outputformat layer "complex") (lin_comb a x y) = Ok z /\
      shape z = shape zx /\
      forall b c t s,
        (c < 2 * n_channels layer x)%nat ->
        data z (out_index layer b c t s)
        = a * data zx (out_index layer b c t s) + data zy (out_index layer b c t s).
Proof.
  intros layer a x y d0 d1 d2 ks ns Hx Hy Hb Hst.
  assert (Hy' : shape y = [d0; d1; d2]) by (rewrite Hy; exact Hx).
  assert (Hl : shape (lin_comb a x y) = [d0; d1; d2]) by exact Hx.
  destruct (call_values layer x d0 d1 d2 ks ns Hx Hb Hst)
    as (zx & mx & px & Ex & _ & _ & Sx & _ & _ & Dx).
  destruct (call_values layer y d0 d1 d2 ks ns Hy' Hb Hst)
    as (zy & my & py & Ey & _ & _ & _ & _ & _ & Dy).
  destruct (call_values layer (lin_comb a x y) d0 d1 d2 ks ns Hl Hb Hst)
    as (z & mz & pz & Ez & _ & _ & Sz & _ & _ & Dz).
  assert (Hn : n_channels layer y = n_channels layer x)
    by (unfold n_channels; rewrite Hy; reflexivity).
  assert (Hnl : n_channels layer (lin_comb a x y) = n_channels layer x)
    by reflexivity.
  exists zx, zy, z. split; [exact Ex |]. split; [exact Ey |]. split; [exact Ez |].
  split; [rewrite Sz, Sx; reflexivity |].
  intros b c t s Hc.
  destruct (complex_channel_cases _ _ Hc) as [H | (c' & H & ->)].
  - destruct (Dx b c t s) as (_ & _ & Cx). destruct (Cx H) as [-> _].
    destruct (Dy b c t s) as (_ & _ & Cy).
    destruct (Cy ltac:(rewrite Hn; exact H)) as [-> _].
    destruct (Dz b c t s) as (_ & _ & Cz).
    destruct (Cz ltac:(rewrite Hnl; exact H)) as [-> _].
    apply correlate_lin. exact Hy.
  - destruct (Dx b c' t s) as (_ & _ & Cx). destruct (Cx H) as [_ ->].
    destruct (Dy b c' t s) as (_ & _ & Cy).
    destruct (Cy ltac:(rewrite Hn; exact H)) as [_ Ey'].
    rewrite Hn in Ey'. rewrite Ey'.
    destruct (Dz b c' t s) as (_ & _ & Cz).
    destruct (Cz ltac:(rewrite Hnl; exact H)) as [_ Ez'].
    rewrite Hnl in Ez'. rewrite Ez'.
    rewrite correlate_lin by exact Hy. ring.
Qed.

Lemma correlate_ext (self : Layer) (x x' bank : tensor) (b c t s : nat) :
  shape x' = shape x ->
  (forall u, data x' (in_index self b u c) = data x (in_index self b u c)) ->
  correlate self x' bank b c t s = correlate self x bank b c t s.
Proof.
  intros Hs Hd. unfold correlate, first_kept, pad_before, padded_input, time_in.
  rewrite Hs. apply sum_upto_ext. intros j _.
  destruct ((0 <=? _) && (_ <? _))%Z; [rewrite Hd |]; reflexivity.
Qed.

(** X3.  Channels and batch entries are transformed independently: when
    two signals agree on channel [c] of batch entry [b], the results agree on
    that channel of that batch entry, in each of the three formats (in the
    complex format on both output channels [c] and [c + n_channels]). *)
Theorem call_channel_independent :
  forall (layer : Layer) (x x' : tensor) (d0 d1 d2 ks ns b c : nat),
    shape x = [d0; d1; d2] -> shape x' = shape x ->
    bank_shape layer ks ns -> (1 <= stride layer)%Z ->
    (c < n_channels layer x)%nat ->
    (forall u, data x' (in_index layer b u c) = data x (in_index layer b u c)) ->
    exists yc ym yp yc' ym' yp',
      call (set_outputformat layer "complex") x = Ok yc /\
      call (set_outputformat layer "magnitude") x = Ok ym /\
      call (set_outputformat layer "phase") x = Ok yp /\
      call (set_outputformat layer "complex") x' = Ok yc' /\
      call (set_outputformat layer "magnitude") x' = Ok ym' /\
      call (set_outputformat layer "phase") x' = Ok yp' /\
      forall t s,
        data yc' (out_index layer b c t s) = data yc (out_index layer b c t s) /\
        data yc' (out_index layer b (c + n_channels layer x) t s)
        = data yc (out_index layer b (c + n_channels layer x) t s) /\
        data ym' (out_index layer b c t s) = data ym (out_index layer b c t s) /\
        data yp' (out_index layer b c t s) = data yp (out_index layer b c t s).
Proof.
  intros layer x x' d0 d1 d2 ks ns b c Hx Hx' Hb Hst Hc Hd.
  assert (Hx2 : shape x' = [d0; d1; d2]) by (rewrite Hx'; exact Hx).
  assert (Hn : n_channels layer x' = n_channels layer x)
    by (unfold n_channels; rewrite Hx'; reflexivity).
  destruct (call_values layer x d0 d1 d2 ks ns Hx Hb Hst)
    as (yc & ym & yp & Ec & Em & Ep & _ & _ & _ & D).
  destruct (call_values layer x' d0 d1 d2 ks ns Hx2 Hb Hst)
    as (yc' & ym' & yp' & Ec' & Em' & Ep' & _ & _ & _ & D').
  exists yc, ym, yp, yc', ym', yp'.
  repeat (split; [assumption |]).
  intros t s.
  destruct (D b c t s) as (Dm & Dp & Dc). destruct (Dc Hc) as [C1 C2].
  destruct (D' b c t s) as (Dm' & Dp' & Dc').
  destruct (Dc' ltac:(rewrite Hn; exact Hc)) as [C1' C2']. rewrite Hn in C2'.
  rewrite C1, C2, C1', C2', Dm, Dm', Dp, Dp'.
  rewrite !(correlate_ext layer x x' _ b c t s Hx' Hd).
  repeat split; reflexivity.
Qed.

(** ** Cropping, layouts and strides *)

Lemma first_kept_crop (self : Layer) (x : tensor) (B : Z) :
  (1 <= stride self)%Z -> (0 <= B)%Z ->
  (B / stride self <= Z.of_nat (conv_len self x))%Z ->
  first_kept (with_border_crop self B) x = Z.to_nat (B / stride self).
Proof.
  intros Hst HB Hle. unfold first_kept, crop, Py.slice_start, Py.clip.
  cbn [with_border_crop border_crop stride].
  assert (0 <= B / stride self)%Z by (apply Z.div_pos; lia).
  destruct (Z.ltb_spec (B / stride self) 0); [lia |].
  unfold conv_len in Hle. change (time_in (with_border_crop self B) x)
    with (time_in self x). lia.
Qed.

Lemma first_kept_no_crop (self : Layer) (x : tensor) :
  (1 <= stride self)%Z -> first_kept (with_border_crop self 0) x = 0%nat.
Proof.
  intros Hst. unfold first_kept, crop, Py.slice_start, Py.clip.
  cbn [with_border_crop border_crop stride]. rewrite Z.div_0_l by lia.
  cbn [Z.ltb Z.compare]. lia.
Qed.

Lemma correlate_crop (self : Layer) (x bank : tensor) (B : Z) (b c t s : nat) :
  (1 <= stride self)%Z -> (0 <= B)%Z ->
  (B / stride self <= Z.of_nat (conv_len self x))%Z ->
  correlate (with_border_crop self B) x bank b c t s
  = correlate (with_border_crop self 0) x bank b c (t + Z.to_nat (B / stride self)) s.
Proof.
  intros Hst HB Hle. unfold correlate.
  rewrite first_kept_crop, first_kept_no_crop by assumption.
  apply sum_upto_ext. intros j _.
  replace (0 + (t + Z.to_nat (B / stride self)))%nat
    with (Z.to_nat (B / stride self) + t)%nat by lia.
  reflexivity.
Qed.

(** X4.  The border crop only removes time steps: the result with border
    crop [B >= 0] at time [t] is the result without border crop at time
    [t + floor(B / stride)], in each of the three formats, as long as the
    crop is not longer than the convolution. *)
Theorem call_crop_is_slice :
  forall (layer : Layer) (x : tensor) (B : Z) (d0 d1 d2 ks ns : nat),
    shape x = [d0; d1; d2] -> bank_shape layer ks ns ->
    (1 <= stride layer)%Z -> (0 <= B)%Z ->
    (B / stride layer <= Z.of_nat (conv_len layer x))%Z ->
    let cropped := with_border_crop layer B in
    let whole := with_border_crop layer 0 in
    let k := Z.to_nat (B / stride layer) in
    exists yc ym yp zc zm zp,
      call (set_outputformat cropped "complex") x = Ok yc /\
      call (set_outputformat cropped "magnitude") x = Ok ym /\
      call (set_outputformat cropped "phase") x = Ok yp /\
      call (set_outputformat whole "complex") x = Ok zc /\
      call (set_outputformat whole "magnitude") x = Ok zm /\
      call (set_outputformat whole "phase") x = Ok zp /\
      forall b c t s,
        data ym (out_index layer b c t s) = data zm (out_index layer b c (t + k) s) /\
        data yp (out_index layer b c t s) = data zp (out_index layer b c (t + k) s) /\
        ((c < 2 * n_channels layer x)%nat ->
         data yc (out_index layer b c t s) = data zc (out_index layer b c (t + k) s)).
Proof.
  intros layer x B d0 d1 d2 ks ns Hx Hb Hst HB Hle. cbv zeta.
  destruct (call_values (with_border_crop layer B) x d0 d1 d2 ks ns Hx Hb Hst)
    as (yc & ym & yp & Ec & Em & Ep & _ & _ & _ & D).
  destruct (call_values (with_border_crop layer 0) x d0 d1 d2 ks ns Hx Hb Hst)
    as (zc & zm & zp & Fc & Fm & Fp & _ & _ & _ & D0).
  exists yc, ym, yp, zc, zm, zp.
  repeat (split; [assumption |]).
  intros b c t s.
  change (out_index (with_border_crop layer B)) with (out_index layer) in D.
  change (out_index (with_border_crop layer 0)) with (out_index layer) in D0.
  change (n_channels (with_border_crop layer B) x) with (n_channels layer x) in D.
  change (n_channels (with_border_crop layer 0) x) with (n_channels layer x) in D0.
  cbn [real_part imaginary_part with_border_crop] in D, D0.
  split; [| split].
  - destruct (D b c t s) as (-> & _). destruct (D0 b c (t + Z.to_nat (B / stride layer))%nat s) as (-> & _).
    rewrite !(correlate_crop layer x _ B) by assumption. reflexivity.
  - destruct (D b c t s) as (_ & -> & _). destruct (D0 b c (t + Z.to_nat (B / stride layer))%nat s) as (_ & -> & _).
    rewrite !(correlate_crop layer x _ B) by assumption. reflexivity.
  - intros Hc. destruct (complex_channel_cases _ _ Hc) as [H | (c' & H & ->)].
    + destruct (D b c t s) as (_ & _ & C). destruct (C H) as [-> _].
      destruct (D0 b c (t + Z.to_nat (B / stride layer))%nat s) as (_ & _ & C0).
      destruct (C0 H) as [-> _].
      apply correlate_crop; assumption.
    + destruct (D b c' t s) as (_ & _ & C). destruct (C H) as [_ ->].
      destruct (D0 b c' (t + Z.to_nat (B / stride layer))%nat s) as (_ & _ & C0).
      destruct (C0 H) as [_ ->].
      rewrite (correlate_crop layer x _ B) by assumption. reflexivity.
Qed.

Lemma correlate_layout (self : Layer) (xl xf bank : tensor) (d0 T C : nat)
    (b c t s : nat) :
  shape xl = [d0; T; C] -> shape xf = [d0; C; T] ->
  (forall b c u, data xf [b; c; u] = data xl [b; u; c]) ->
  correlate (with_data_format self "channels_first") xf bank b c t s
  = correlate (with_data_format self "channels_last") xl bank b c t s.
Proof.
  intros Hl Hf Hd.
  unfold correlate, first_kept, pad_before, padded_input, time_in, in_index, crop,
    channels_last.
  cbn [with_data_format data_format stride border_crop real_part
       String.eqb Ascii.eqb Bool.eqb].
  rewrite Hl, Hf. cbn [nth].
  apply sum_upto_ext. intros j _.
  destruct ((0 <=? _) && (_ <? _))%Z; [rewrite Hd |]; reflexivity.
Qed.

(** X5.  The two data formats give the same transform: when the
    channels-first signal is the channels-last signal with its last two axes
    exchanged, entry [[b, c, t, s]] of the channels-first result is entry
    [[b, t, s, c]] of the channels-last result, in each of the three
    formats. *)
Theorem call_layouts_agree :
  forall (layer : Layer) (xl xf : tensor) (d0 T C ks ns : nat),
    shape xl = [d0; T; C] -> shape xf = [d0; C; T] ->
    (forall b c u, data xf [b; c; u] = data xl [b; u; c]) ->
    bank_shape layer ks ns -> (1 <= stride layer)%Z ->
    let last := with_data_format layer "channels_last" in
    let first := with_data_format layer "channels_first" in
    exists yc ym yp zc zm zp,
      call (set_outputformat last "complex") xl = Ok yc /\
      call (set_outputformat last "magnitude") xl = Ok ym /\
      call (set_outputformat last "phase") xl = Ok yp /\
      call (set_outputformat first "complex") xf = Ok zc /\
      call (set_outputformat first "magnitude") xf = Ok zm /\
      call (set_outputformat first "phase") xf = Ok zp /\
      forall b c t s,
        data zm [b; c; t; s] = data ym [b; t; s; c] /\
        data zp [b; c; t; s] = data yp [b; t; s; c] /\
        ((c < 2 * C)%nat -> data zc [b; c; t; s] = data yc [b; t; s; c]).
Proof.
  intros layer xl xf d0 T C ks ns Hl Hf Hd Hb Hst. cbv zeta.
  destruct (call_values (with_data_format layer "channels_last") xl d0 T C ks ns
              Hl Hb Hst)
    as (yc & ym & yp & Ec & Em & Ep & _ & _ & _ & D).
  destruct (call_values (with_data_format layer "channels_first") xf d0 C T ks ns
              Hf Hb Hst)
    as (zc & zm & zp & Fc & Fm & Fp & _ & _ & _ & F).
  exists yc, ym, yp, zc, zm, zp.
  repeat (split; [assumption |]).
  assert (Nl : n_channels (with_data_format layer "channels_last") xl = C)
    by (unfold n_channels; rewrite Hl; reflexivity).
  assert (Nf : n_channels (with_data_format layer "channels_first") xf = C)
    by (unfold n_channels; rewrite Hf; reflexivity).
  rewrite Nl in D. rewrite Nf in F.
  change (out_index (with_data_format layer "channels_last"))
    with (fun b c t s : nat => [b; t; s; c]) in D.
  change (out_index (with_data_format layer "channels_first"))
    with (fun b c t s : nat => [b; c; t; s]) in F.
  cbn beta in D, F. cbn [real_part imaginary_part with_data_format] in D, F.
  intros b c t s. split; [| split].
  - destruct (D b c t s) as (-> & _). destruct (F b c t s) as (-> & _).
    rewrite !(correlate_layout layer xl xf _ d0 T C) by assumption. reflexivity.
  - destruct (D b c t s) as (_ & -> & _). destruct (F b c t s) as (_ & -> & _).
    rewrite !(correlate_layout layer xl xf _ d0 T C) by assumption. reflexivity.
  - intros Hc. destruct (complex_channel_cases _ _ Hc) as [H | (c' & H & ->)].
    + destruct (D b c t s) as (_ & _ & G). destruct (G H) as [-> _].
      destruct (F b c t s) as (_ & _ & G'). destruct (G' H) as [-> _].
      apply (correlate_layout layer xl xf _ d0 T C); assumption.
    + destruct (D b c' t s) as (_ & _ & G). destruct (G H) as [_ ->].
      destruct (F b c' t s) as (_ & _ & G'). destruct (G' H) as [_ ->].
      rewrite (correlate_layout layer xl xf _ d0 T C) by assumption. reflexivity.
Qed.

(** ** Magnitude and phase *)

Lemma sqrt_1_sqr_pos (z : R) : 0 < sqrt (1 + z²).
Proof. apply sqrt_lt_R0. pose proof (Rle_0_sqr z). lra. Qed.

Lemma hypot_factor (x y : R) :
  x <> 0 -> sqrt (x ^ 2 + y ^ 2) = Rabs x * sqrt (1 + (y / x)²).
Proof.
  intros Hx.
  replace (x ^ 2 + y ^ 2) with (x² * (1 + (y / x)²))
    by (unfold Rsqr; field; exact Hx).
  rewrite sqrt_mult; [| apply Rle_0_sqr | pose proof (Rle_0_sqr (y / x)); lra].
  rewrite sqrt_Rsqr_abs. reflexivity.
Qed.

Lemma cos_minus_PI (a : R) : cos (a - PI) = - cos a.
Proof. rewrite cos_minus, cos_PI, sin_PI. ring. Qed.

Lemma sin_minus_PI (a : R) : sin (a - PI) = - sin a.
Proof. rewrite sin_minus, cos_PI, sin_PI. ring. Qed.

(** The point [(x, y)] from its distance to the origin and its angle. *)
Lemma polar (x y : R) :
  sqrt (x ^ 2 + y ^ 2) * cos (atan2_R y x) = x /\
  sqrt (x ^ 2 + y ^ 2) * sin (atan2_R y x) = y.
Proof.
  unfold atan2_R.
  destruct (Rlt_dec 0 x) as [Hx | Hx].
  - rewrite hypot_factor by lra. rewrite Rabs_right by lra.
    rewrite cos_atan, sin_atan. pose proof (sqrt_1_sqr_pos (y / x)).
    split; field; lra.
  - destruct (Rlt_dec x 0) as [Hx' | Hx'].
    + rewrite hypot_factor by lra. rewrite Rabs_left by lra.
      pose proof (sqrt_1_sqr_pos (y / x)).
      destruct (Rle_dec 0 y).
      * rewrite neg_cos, neg_sin, cos_atan, sin_atan. split; field; lra.
      * rewrite cos_minus_PI, sin_minus_PI, cos_atan, sin_atan. split; field; lra.
    + assert (x = 0) by lra. subst x.
      replace (0 ^ 2 + y ^ 2) with (y²) by (unfold Rsqr; ring).
      rewrite sqrt_Rsqr_abs.
      destruct (Rlt_dec 0 y).
      * rewrite Rabs_right by lra. rewrite cos_PI2, sin_PI2. split; ring.
      * destruct (Rlt_dec y 0).
        -- rewrite Rabs_left by lra. rewrite cos_neg, sin_neg, cos_PI2, sin_PI2.
           split; ring.
        -- assert (y = 0) by lra. subst y. rewrite Rabs_R0. split; ring.
Qed.

(** The angle is in [(-PI, PI]]. *)
Lemma atan2_R_range (y x : R) : - PI < atan2_R y x <= PI.
Proof.
  unfold atan2_R. pose proof PI_RGT_0 as Hpi.
  destruct (Rlt_dec 0 x) as [Hx | Hx].
  - pose proof (atan_bound (y / x)). lra.
  - destruct (Rlt_dec x 0) as [Hx' | Hx'].
    + destruct (Rle_dec 0 y) as [Hy | Hy].
      * assert (Hz : y / x <= 0).
        { unfold Rdiv. replace 0 with (y * 0) by ring.
          apply Rmult_le_compat_l; [exact Hy |].
          apply Rlt_le, Rinv_lt_0_compat, Hx'. }
        pose proof (atan_bound (y / x)) as Ha.
        assert (atan (y / x) <= 0).
        { destruct Hz as [Hz | Hz].
          - apply Rlt_le. rewrite <- atan_0. apply atan_increasing. exact Hz.
          - rewrite Hz, atan_0. lra. }
        lra.
      * assert (Hz : 0 < y / x).
        { replace (y / x) with ((- y) * / (- x)) by (field; lra).
          apply Rmult_lt_0_compat; [lra | apply Rinv_0_lt_compat; lra]. }
        pose proof (atan_bound (y / x)) as Ha.
        assert (0 < atan (y / x))
          by (rewrite <- atan_0; apply atan_increasing; exact Hz).
        lra.
    + destruct (Rlt_dec 0 y); [lra |]. destruct (Rlt_dec y 0); lra.
Qed.

(** X6.  The complex result is recovered from the magnitude and the phase
    results: on every entry, magnitude times the cosine of the phase is the
    real response and magnitude times the sine of the phase is the imaginary
    one. *)
Theorem call_polar_round_trip :
  forall (layer : Layer) (x : tensor) (d0 d1 d2 ks ns : nat),
    shape x = [d0; d1; d2] -> bank_shape layer ks ns -> (1 <= stride layer)%Z ->
    exists yc ym yp,
      call (set_outputformat layer "complex") x = Ok yc /\
      call (set_outputformat layer "magnitude") x = Ok ym /\
      call (set_outputformat layer "phase") x = Ok yp /\
      forall b c t s,
        (c < n_channels layer x)%nat ->
        data ym (out_index layer b c t s) * cos (data yp (out_index layer b c t s))
        = data yc (out_index layer b c t s) /\
        data ym (out_index layer b c t s) * sin (data yp (out_index layer b c t s))
        = data yc (out_index layer b (c + n_channels layer x) t s).
Proof.
  intros layer x d0 d1 d2 ks ns Hx Hb Hst.
  destruct (call_values layer x d0 d1 d2 ks ns Hx Hb Hst)
    as (yc & ym & yp & Ec & Em & Ep & _ & _ & _ & D).
  exists yc, ym, yp. repeat (split; [assumption |]).
  intros b c t s Hc. destruct (D b c t s) as (-> & -> & C).
  destruct (C Hc) as [-> ->]. apply polar.
Qed.

(** X7.  Every entry of the magnitude result is non-negative, and every
    entry of the phase result is in the interval from [-PI], excluded, to
    [PI], included. *)
Theorem call_magnitude_phase_range :
  forall (layer : Layer) (x : tensor) (d0 d1 d2 ks ns : nat),
    shape x = [d0; d1; d2] -> bank_shape layer ks ns -> (1 <= stride layer)%Z ->
    exists ym yp,
      call (set_outputformat layer "magnitude") x = Ok ym /\
      call (set_outputformat layer "phase") x = Ok yp /\
      forall b c t s,
        0 <= data ym (out_index layer b c t s) /\
        - PI < data yp (out_index layer b c t s) <= PI.
Proof.
  intros layer x d0 d1 d2 ks ns Hx Hb Hst.
  destruct (call_values layer x d0 d1 d2 ks ns Hx Hb Hst)
    as (yc & ym & yp & Ec & Em & Ep & _ & _ & _ & D).
  exists ym, yp. repeat (split; [assumption |]).
  intros b c t s. destruct (D b c t s) as (-> & -> & _).
  split; [apply sqrt_pos | apply atan2_R_range].
Qed.

(** ** Strides and border crops outside their range *)

Lemma conv2d_same_raises (input filters : tensor) (sw : Z) :
  (sw <= 0)%Z -> raises (conv2d_same input filters 1 sw).
Proof.
  intros Hs. unfold conv2d_same.
  destruct (rank input <? 4)%nat; [eexists; reflexivity |].
  assert (E : ((1 <=? 0) || (sw <=? 0))%Z = true).
  { apply orb_true_iff. right. apply Z.leb_le. exact Hs. }
  rewrite E. eexists. reflexivity.
Qed.

Lemma call_raises_stride (self : Layer) (x : tensor) :
  (stride self <= 0)%Z -> raises (call self x).
Proof.
  intros Hs. unfold call.
  apply raises_bind. intros c _.
  apply raises_bind. intros x1 _.
  apply raises_bind. intros x2 _.
  apply raises_bind. intros x3 _.
  destruct (conv2d_same_raises x3 (real_part self) (stride self) Hs) as [e ->].
  exists e. reflexivity.
Qed.

(** X8.  The stride is not validated: the constructor builds a layer for
    a stride of zero or below, and every call of that layer fails, whatever
    the input. *)
Theorem nonpositive_stride_fails_at_call :
  forall a : Args,
    0 < arg_lower_freq a -> arg_lower_freq a <= arg_upper_freq a ->
    (2 <= arg_n_scales a)%Z ->
    Py.str_in (arg_output a) ["complex"; "magnitude"; "phase"]%string = true ->
    Py.str_in (arg_data_format a) ["channels_last"; "channels_first"]%string = true ->
    0 <= arg_wavelet_width a ->
    (arg_stride a <= 0)%Z ->
    exists layer,
      ComplexMorletCWT_init a = Ok layer /\
      stride layer = arg_stride a /\
      forall x : tensor, raises (call layer x).
Proof.
  intros a Hl Hlu Hn Hout Hfmt Hw Hs.
  destruct (init_returns a Hl Hlu Hn Hout Hfmt Hw)
    as (layer & o & Ei & _ & _ & _ & _ & _ & _ & _ & Est & _).
  exists layer. split; [exact Ei |]. split; [exact Est |].
  intros x. apply call_raises_stride. rewrite Est. exact Hs.
Qed.

Lemma kept_len_negative (self : Layer) (x : tensor) :
  (crop self < 0)%Z ->
  Z.of_nat (kept_len self x) = Z.min (Z.of_nat (conv_len self x)) (- crop self) /\
  (first_kept self x + kept_len self x = conv_len self x)%nat.
Proof.
  intros Hc. unfold kept_len, first_kept, Py.slice_len, Py.slice_start,
    Py.slice_stop, Py.clip. fold (conv_len self x).
  destruct (Z.ltb_spec 0 (crop self)); [lia |].
  destruct (Z.ltb_spec (crop self) 0); [| lia].
  split; lia.
Qed.

Lemma call_time_out (self : Layer) (x : tensor) (d0 d1 d2 ks ns : nat) :
  shape x = [d0; d1; d2] -> bank_shape self ks ns -> (1 <= stride self)%Z ->
  exists y, call self x = Ok y /\ time_out self y = kept_len self x.
Proof.
  intros Hx Hb Hst.
  destruct (call_returns self x d0 d1 d2 ks ns Hx Hb Hst) as (y & Ey & Ty).
  exists y. split; [exact Ey |]. exact Ty.
Qed.

(** X9.  The border crop is not validated either: with a negative border
    crop the slice keeps the last [-floor(border_crop / stride)] positions of
    the convolution (all of them when there are fewer), instead of cutting
    both ends. *)
Theorem negative_border_crop_keeps_tail :
  forall (layer : Layer) (x : tensor) (d0 d1 d2 ks ns : nat),
    shape x = [d0; d1; d2] -> bank_shape layer ks ns ->
    (1 <= stride layer)%Z -> (border_crop layer < 0)%Z ->
    exists y,
      call layer x = Ok y /\
      Z.of_nat (time_out layer y)
      = Z.min (Zceil (INR (time_in layer x) / IZR (stride layer)))
              (- Zfloor (IZR (border_crop layer) / IZR (stride layer))) /\
      (first_kept layer x + time_out layer y = conv_len layer x)%nat.
Proof.
  intros layer x d0 d1 d2 ks ns Hx Hb Hst HB.
  destruct (call_time_out layer x d0 d1 d2 ks ns Hx Hb Hst) as (y & Ey & Ty).
  assert (Hc : (crop layer < 0)%Z).
  { unfold crop. apply Z.div_lt_upper_bound; lia. }
  destruct (kept_len_negative layer x Hc) as [K1 K2].
  exists y. split; [exact Ey |]. rewrite Ty. split; [| exact K2].
  rewrite K1. rewrite <- crop_floor by exact Hst.
  unfold conv_len. rewrite same_out_ceil by lia.
  rewrite (INR_IZR_INZ (Z.to_nat (stride layer))), Z2Nat.id by lia. reflexivity.
Qed.

(** ** Constructing a layer and calling it *)

Lemma str_in_output (o : string) :
  Py.str_in o ["complex"; "magnitude"; "phase"]%string = true ->
  o = "complex"%string \/ o = "magnitude"%string \/ o = "phase"%string.
Proof.
  unfold Py.str_in. cbn [existsb]. rewrite !orb_true_iff, !String.eqb_eq.
  intros [H | [H | [H | H]]]; [tauto | tauto | tauto | discriminate].
Qed.

(** X10.  A layer built from valid arguments takes every signal of rank 3
    and returns a tensor of rank 4: batch, time, scales and channels in the
    channels-last format, batch, channels, time and scales otherwise, with
    [n_scales] scales, [max(0, ceil(time_in / stride) - 2 * floor(border_crop
    / stride))] time steps, and twice the channels of the signal in the
    complex format, as many as the signal in the two others. *)
Theorem init_then_call_shape :
  forall (a : Args) (x : tensor) (d0 d1 d2 : nat),
    valid_args a -> shape x = [d0; d1; d2] ->
    exists layer y,
      ComplexMorletCWT_init a = Ok layer /\
      call layer x = Ok y /\
      let ch := n_channels layer x in
      let ch_out :=
        if (arg_output a =? "complex")%string then (2 * ch)%nat else ch in
      let steps :=
        Z.to_nat (Z.max 0 (Zceil (INR (time_in layer x) / IZR (arg_stride a))
                           - 2 * (arg_border_crop a / arg_stride a))) in
      shape y
      = if (arg_data_format a =? "channels_last")%string
        then [d0; steps; Z.to_nat (arg_n_scales a); ch_out]
        else [d0; ch_out; steps; Z.to_nat (arg_n_scales a)].
Proof.
  intros a x d0 d1 d2 Hv Hx.
  destruct (init_valid a Hv)
    as (layer & o & Ei & _ & _ & Hlen & Est & Ebc & Eout & Efmt & _ & Hb).
  destruct Hv as (_ & _ & _ & _ & _ & _ & Hbc & Hst & Hout & _).
  assert (Hst' : (1 <= stride layer)%Z) by (rewrite Est; exact Hst).
  destruct (call_values layer x d0 d1 d2 _ _ Hx (is_bank_shape layer o Hb) Hst')
    as (yc & ym & yp & Ec & Em & Ep & Sc & Sm & Sp & _).
  assert (Hsteps : kept_len layer x
                   = Z.to_nat (Z.max 0 (Zceil (INR (time_in layer x) / IZR (arg_stride a))
                                        - 2 * (arg_border_crop a / arg_stride a)))).
  { apply Nat2Z.inj. unfold kept_len.
    assert (Hc : (0 <= crop layer)%Z)
      by (unfold crop; rewrite Est, Ebc; apply Z.div_pos; lia).
    rewrite slice_len_crop by exact Hc.
    unfold conv_len. rewrite same_out_ceil by lia.
    rewrite (INR_IZR_INZ (Z.to_nat (stride layer))), Z2Nat.id by lia.
    unfold crop. rewrite Est, Ebc. lia. }
  unfold out_shape in Sc, Sm, Sp. rewrite Hsteps, Hx, Hlen in Sc, Sm, Sp.
  cbn [nth] in Sc, Sm, Sp. unfold channels_last in Sc, Sm, Sp.
  rewrite Efmt in Sc, Sm, Sp.
  assert (Hcall : forall f y, arg_output a = f ->
                    call (set_outputformat layer f) x = Ok y -> call layer x = Ok y).
  { intros f y <- H. rewrite <- Eout, set_outputformat_same in H. exact H. }
  exists layer.
  destruct (str_in_output _ Hout) as [E | [E | E]]; rewrite E.
  - exists yc. split; [exact Ei |]. split; [exact (Hcall _ _ E Ec) |]. cbv zeta.
    cbn [String.eqb Ascii.eqb Bool.eqb]. rewrite Sc.
    replace (2 * n_channels layer x)%nat
      with (n_channels layer x + n_channels layer x)%nat by lia.
    reflexivity.
  - exists ym. split; [exact Ei |]. split; [exact (Hcall _ _ E Em) |]. cbv zeta.
    cbn [String.eqb Ascii.eqb Bool.eqb]. exact Sm.
  - exists yp. split; [exact Ei |]. split; [exact (Hcall _ _ E Ep) |]. cbv zeta.
    cbn [String.eqb Ascii.eqb Bool.eqb]. exact Sp.
Qed.

(** ** More on the scales *)

Lemma Rpower_inv_base (x p : R) : 0 < x -> Rpower (/ x) p = Rpower x (- p).
Proof.
  intros Hx. unfold Rpower. rewrite ln_Rinv by exact Hx. f_equal. ring.
Qed.

Lemma Rpower_le_1 (x q : R) : 0 < x -> x <= 1 -> 0 <= q -> Rpower x q <= 1.
Proof.
  intros Hx Hx1 Hq. unfold Rpower.
  assert (Hln : ln x <= 0).
  { destruct Hx1 as [H | ->]; [| rewrite ln_1; lra].
    apply Rlt_le. rewrite <- ln_1. apply ln_increasing; assumption. }
  rewrite <- exp_0.
  assert (Hle : q * ln x <= 0).
  { replace 0 with (q * 0) by ring. apply Rmult_le_compat_l; assumption. }
  destruct Hle as [H | ->]; [apply Rlt_le, exp_increasing, H | apply Rle_refl].
Qed.

Lemma Rpower_ge_base (x q : R) : 0 < x -> x <= 1 -> q <= 1 -> x <= Rpower x q.
Proof.
  intros Hx Hx1 Hq.
  rewrite <- (Rpower_1 x Hx) at 1. unfold Rpower.
  assert (Hln : ln x <= 0).
  { destruct Hx1 as [H | ->]; [| rewrite ln_1; lra].
    apply Rlt_le. rewrite <- ln_1. apply ln_increasing; assumption. }
  assert (Hle : 1 * ln x <= q * ln x).
  { generalize dependent (ln x). intros l Hln. nra. }
  destruct Hle as [H | ->]; [apply Rlt_le, exp_increasing, H | apply Rle_refl].
Qed.

(** The frequency of scale [i], in closed form. *)
Lemma frequency_closed_form (lower upper : R) (n : Z) (i : nat) :
  0 < lower -> lower <= upper -> (2 <= n)%Z ->
  1 / (1 / upper
       * Rpower (Rpower (1 / lower / (1 / upper)) (1 / IZR (n - 1))) (INR i))
  = upper * Rpower (lower / upper) (INR i / IZR (n - 1)).
Proof.
  intros Hl Hlu Hn.
  assert (Hu : 0 < upper) by lra.
  assert (Hr : 0 < upper / lower) by (apply Rdiv_lt_0_compat; assumption).
  replace (1 / lower / (1 / upper)) with (upper / lower) by (field; lra).
  rewrite Rpower_mult.
  replace (lower / upper) with (/ (upper / lower)) by (field; lra).
  rewrite Rpower_inv_base by exact Hr.
  rewrite Rpower_Ropp.
  replace (1 / IZR (n - 1) * INR i) with (INR i / IZR (n - 1))
    by (field; apply not_0_IZR; lia).
  field. split; [| lra].
  unfold Rpower. pose proof (exp_pos (INR i / IZR (n - 1) * ln (upper / lower))). lra.
Qed.

(** X11.  The frequencies are geometrically spaced between the two ends:
    frequency [i] is [upper_freq * (lower_freq / upper_freq)^(i / (n_scales
    - 1))], it lies between [lower_freq] and [upper_freq], and its scale is
    its reciprocal, between [1 / upper_freq] and [1 / lower_freq]. *)
Theorem frequencies_geometric :
  forall (lower upper : R) (n : Z),
    0 < lower -> lower < upper -> (2 <= n)%Z ->
    exists scales frequencies,
      generate_scales lower upper n = Ok (scales, frequencies) /\
      forall i, (i < Z.to_nat n)%nat ->
        nth i frequencies 0
        = upper * Rpower (lower / upper) (INR i / IZR (n - 1)) /\
        lower <= nth i frequencies 0 <= upper /\
        nth i scales 0 = 1 / nth i frequencies 0 /\
        1 / upper <= nth i scales 0 <= 1 / lower.
Proof.
  intros lower upper n Hl Hlu Hn.
  assert (Hu : 0 < upper) by lra.
  rewrite (generate_scales_eq lower upper n Hl Hlu Hn).
  eexists. eexists. split; [reflexivity |].
  intros i Hi.
  assert (Hnth := scale_nth lower upper n i Hi).
  assert (Hfr : nth i (map (fun s => 1 / s)
                        (map (fun i => 1 / upper
                           * Rpower (Rpower (1 / lower / (1 / upper)) (1 / IZR (n - 1)))
                               (INR i)) (seq 0 (Z.to_nat n)))) 0
                = upper * Rpower (lower / upper) (INR i / IZR (n - 1))).
  { rewrite (nth_indep _ 0 (1 / 0))
      by (rewrite !length_map, length_seq; exact Hi).
    rewrite (map_nth (fun s => 1 / s)), Hnth.
    apply frequency_closed_form; [exact Hl | lra | exact Hn]. }
  assert (Hq0 : 0 <= INR i / IZR (n - 1)).
  { apply Rmult_le_pos; [apply pos_INR |].
    apply Rlt_le, Rinv_0_lt_compat, IZR_lt. lia. }
  assert (Hq1 : INR i / IZR (n - 1) <= 1).
  { apply (Rmult_le_reg_r (IZR (n - 1))); [apply IZR_lt; lia |].
    unfold Rdiv. rewrite Rmult_assoc, Rinv_l by (apply not_0_IZR; lia).
    rewrite Rmult_1_r, Rmult_1_l, INR_IZR_INZ. apply IZR_le. lia. }
  assert (Hb0 : 0 < lower / upper) by (apply Rdiv_lt_0_compat; assumption).
  assert (Hb1 : lower / upper <= 1).
  { apply (Rmult_le_reg_r upper); [exact Hu |].
    unfold Rdiv. rewrite Rmult_assoc, Rinv_l by lra. lra. }
  assert (P1 := Rpower_le_1 _ _ Hb0 Hb1 Hq0).
  assert (P2 := Rpower_ge_base _ _ Hb0 Hb1 Hq1).
  set (p := Rpower (lower / upper) (INR i / IZR (n - 1))) in *.
  assert (Hf : lower <= upper * p <= upper).
  { split.
    - replace lower with (upper * (lower / upper)) by (field; lra).
      apply Rmult_le_compat_l; lra.
    - replace upper with (upper * 1) at 2 by ring.
      apply Rmult_le_compat_l; lra. }
  assert (Hpos : 0 < upper * p) by lra.
  rewrite Hfr.
  assert (Hs : nth i (map (fun i => 1 / upper
                 * Rpower (Rpower (1 / lower / (1 / upper)) (1 / IZR (n - 1)))
                     (INR i)) (seq 0 (Z.to_nat n))) 0 = 1 / (upper * p)).
  { rewrite Hnth. unfold p.
    rewrite <- (frequency_closed_form lower upper n i Hl (Rlt_le _ _ Hlu) Hn).
    set (r := Rpower _ (INR i)).
    assert (0 < r) by apply exp_pos.
    field. split; lra. }
  rewrite Hs.
  split; [reflexivity |]. split; [exact Hf |]. split; [reflexivity |].
  split.
  - unfold Rdiv. rewrite !Rmult_1_l. apply Rinv_le_contravar; lra.
  - unfold Rdiv. rewrite !Rmult_1_l. apply Rinv_le_contravar; lra.
Qed.

Lemma Rpower_1_base (p : R) : Rpower 1 p = 1.
Proof. unfold Rpower. rewrite ln_1, Rmult_0_r. apply exp_0. Qed.

(** X12.  Equal frequencies pass the first check, which rejects only
    [lower_freq > upper_freq]: the layer is built, and all its scales are
    [1 / upper_freq] and all its frequencies [upper_freq]. *)
Theorem equal_frequencies_constant_scales :
  forall a : Args,
    0 < arg_lower_freq a -> arg_lower_freq a = arg_upper_freq a ->
    (2 <= arg_n_scales a)%Z ->
    Py.str_in (arg_output a) ["complex"; "magnitude"; "phase"]%string = true ->
    Py.str_in (arg_data_format a) ["channels_last"; "channels_first"]%string = true ->
    0 <= arg_wavelet_width a ->
    exists layer,
      ComplexMorletCWT_init a = Ok layer /\
      length (scales (attrs layer)) = Z.to_nat (arg_n_scales a) /\
      length (frequencies (attrs layer)) = Z.to_nat (arg_n_scales a) /\
      Forall (fun s => s = 1 / arg_upper_freq a) (scales (attrs layer)) /\
      Forall (fun f => f = arg_upper_freq a) (frequencies (attrs layer)).
Proof.
  intros a Hl Heq Hn Hout Hfmt Hw.
  destruct (init_returns a Hl ltac:(lra) Hn Hout Hfmt Hw)
    as (layer & o & Ei & Eg & _).
  exists layer. split; [exact Ei |].
  rewrite generate_scales_returns in Eg by (lra || lia).
  injection Eg as Esc Efr. rewrite <- Efr, <- Esc.
  rewrite !length_map, length_seq.
  split; [reflexivity |]. split; [reflexivity |].
  assert (Hone : forall i : nat,
            1 / arg_upper_freq a
            * Rpower (Rpower (1 / arg_lower_freq a / (1 / arg_upper_freq a))
                        (1 / IZR (arg_n_scales a - 1))) (INR i)
            = 1 / arg_upper_freq a).
  { intros i. rewrite Heq.
    replace (1 / arg_upper_freq a / (1 / arg_upper_freq a)) with 1 by (field; lra).
    rewrite !Rpower_1_base. ring. }
  split.
  - apply Forall_forall. intros s Hs. apply in_map_iff in Hs.
    destruct Hs as [i [<- _]]. apply Hone.
  - apply Forall_forall. intros f Hf. apply in_map_iff in Hf.
    destruct Hf as [s [<- Hs]]. apply in_map_iff in Hs.
    destruct Hs as [i [<- _]]. rewrite Hone. field. lra.
Qed.

(** X13.  The exceptions behind the four checks.  With known strings: a
    zero [lower_freq] (the second check rejects only [lower_freq < 0]) and
    [n_scales = 1] both end in a [ZeroDivisionError]; [n_scales <= 0] ends in
    the [ValueError] of the maximum of an empty array; a negative
    [wavelet_width] ends in the [ValueError] of [int] on a NaN. *)
Theorem init_late_exceptions :
  forall a : Args,
    Py.str_in (arg_output a) ["complex"; "magnitude"; "phase"]%string = true ->
    Py.str_in (arg_data_format a) ["channels_last"; "channels_first"]%string = true ->
    (arg_lower_freq a = 0 -> 0 <= arg_upper_freq a ->
     ComplexMorletCWT_init a = Raise ZeroDivisionError) /\
    (0 < arg_lower_freq a -> arg_lower_freq a <= arg_upper_freq a ->
     arg_n_scales a = 1%Z ->
     ComplexMorletCWT_init a = Raise ZeroDivisionError) /\
    (0 < arg_lower_freq a -> arg_lower_freq a <= arg_upper_freq a ->
     (arg_n_scales a <= 0)%Z ->
     ComplexMorletCWT_init a
     = Raise (ValueError "zero-size array to reduction operation maximum which has no identity")) /\
    (0 < arg_lower_freq a -> arg_lower_freq a <= arg_upper_freq a ->
     (2 <= arg_n_scales a)%Z -> arg_wavelet_width a < 0 ->
     ComplexMorletCWT_init a
     = Raise (ValueError "cannot convert float NaN to integer")).
Proof.
  intros a Hout Hfmt.
  split; [| split; [| split]].
  - intros H0 Hu. unfold ComplexMorletCWT_init.
    destruct (Rgt_dec _ _) as [H | _]; [lra |].
    destruct (Rlt_dec _ _) as [H | _]; [lra |].
    rewrite Hout, Hfmt. cbn [negb].
    unfold generate_scales, Py.truediv.
    destruct (Req_dec_T (arg_upper_freq a) 0); [reflexivity |]. cbn [bind].
    destruct (Req_dec_T (arg_lower_freq a) 0); [reflexivity | contradiction].
  - intros Hl Hlu Hn. unfold ComplexMorletCWT_init.
    destruct (Rgt_dec _ _) as [H | _]; [lra |].
    destruct (Rlt_dec _ _) as [H | _]; [lra |].
    rewrite Hout, Hfmt. cbn [negb].
    unfold generate_scales, Py.truediv.
    destruct (Req_dec_T (arg_upper_freq a) 0); [lra |]. cbn [bind].
    destruct (Req_dec_T (arg_lower_freq a) 0); [lra |]. cbn [bind].
    destruct (Req_dec_T (1 / arg_upper_freq a) 0) as [E | _].
    { exfalso. unfold Rdiv in E. rewrite Rmult_1_l in E.
      apply (Rinv_neq_0_compat (arg_upper_freq a)); [lra | exact E]. }
    cbn [bind]. rewrite Hn. cbn [Z.sub Z.add Z.opp Z.pos_sub].
    destruct (Req_dec_T 0 0) as [_ | N]; [reflexivity | contradiction N; reflexivity].
  - intros Hl Hlu Hn. unfold ComplexMorletCWT_init.
    destruct (Rgt_dec _ _) as [H | _]; [lra |].
    destruct (Rlt_dec _ _) as [H | _]; [lra |].
    rewrite Hout, Hfmt. cbn [negb].
    rewrite generate_scales_returns by (lra || lia). cbn [bind fst snd].
    unfold ContinuousWaveletTransform_init, _build_wavelet_bank, one_side,
      truncation_size. cbn [scales].
    replace (Z.to_nat (arg_n_scales a)) with 0%nat by lia. reflexivity.
  - intros Hl Hlu Hn Hw. unfold ComplexMorletCWT_init.
    destruct (Rgt_dec _ _) as [H | _]; [lra |].
    destruct (Rlt_dec _ _) as [H | _]; [lra |].
    rewrite Hout, Hfmt. cbn [negb].
    rewrite generate_scales_returns by (lra || lia). cbn [bind fst snd].
    unfold ContinuousWaveletTransform_init, _build_wavelet_bank, one_side,
      truncation_size. cbn [scales initial_wavelet_width].
    destruct (Z.to_nat (arg_n_scales a)) as [| k] eqn:E; [lia |].
    cbn [seq map Py.np_max bind]. unfold Py.np_sqrt.
    destruct (Rlt_dec (4.5 * arg_wavelet_width a) 0) as [_ | N]; [| lra].
    reflexivity.
Qed.



(** ** More on the bank *)

(** X15.  The modulus of a tap is the Gaussian envelope over the
    normalization constant: at tap [k] of the column of scale [s], with
    [t = k / fs], the squares of the real and of the imaginary part add up to
    the square of [exp(-(t/s)^2 / wavelet_width) / norm]. *)
Theorem bank_modulus_is_envelope :
  forall self : MorletAttrs,
    scales self <> [] -> 0 <= initial_wavelet_width self ->
    exists re im o,
      _build_wavelet_bank self = Ok (re, im) /\
      one_side self = Ok o /\
      forall (k : Z) (j : nat),
        (- o <= k <= o)%Z -> (j < length (scales self))%nat ->
        let s := nth j (scales self) 0 in
        let t := IZR k / fs self in
        data re [0; Z.to_nat (k + o); 0; j]%nat ^ 2
        + data im [0; Z.to_nat (k + o); 0; j]%nat ^ 2
        = (exp (- (t / s) ^ 2 / wavelet_width self) / norm_constant self s) ^ 2.
Proof.
  intros self Hsc Hw.
  destruct (one_side_returns self Hsc Hw) as [o Ho].
  destruct (build_returns self o Ho Hsc) as (re & im & Eb & Hb).
  exists re, im, o. split; [exact Eb |]. split; [exact Ho |].
  intros k j Hk Hj. cbv zeta.
  destruct (bank_tap self o re im 0 0 k j Hb Hk Hj) as [-> ->].
  set (e := exp _ / _). set (u := 2 * PI * _).
  pose proof (sin2_cos2 u) as H. unfold Rsqr in H.
  replace ((e * cos u) ^ 2 + (e * sin u) ^ 2)
    with (e ^ 2 * (sin u * sin u + cos u * cos u)) by ring.
  rewrite H. ring.
Qed.

Lemma pow2_gt_0 (u : R) : u <> 0 -> 0 < u ^ 2.
Proof.
  intros Hu. destruct (Rtotal_order u 0) as [H | [H | H]]; [nra | contradiction | nra].
Qed.

Lemma envelope_le_1 (u w : R) : 0 < w -> exp (- u ^ 2 / w) <= 1.
Proof.
  intros Hw. rewrite <- exp_0.
  assert (H : - u ^ 2 / w <= 0).
  { unfold Rdiv. replace 0 with (0 * / w) by ring.
    apply Rmult_le_compat_r; [apply Rlt_le, Rinv_0_lt_compat, Hw |].
    pose proof (pow2_ge_0 u). lra. }
  destruct H as [H | ->]; [apply Rlt_le, exp_increasing, H | apply Rle_refl].
Qed.

Lemma envelope_lt_1 (u w : R) : 0 < w -> u <> 0 -> exp (- u ^ 2 / w) < 1.
Proof.
  intros Hw Hu. rewrite <- exp_0. apply exp_increasing.
  unfold Rdiv. replace 0 with (0 * / w) by ring.
  apply Rmult_lt_compat_r; [apply Rinv_0_lt_compat, Hw |].
  assert (0 < u ^ 2) by (apply pow2_gt_0; exact Hu). lra.
Qed.

(** X16.  For valid attributes no tap is larger in absolute value than the
    center tap of the real part of its column, and every tap off the center
    is strictly smaller. *)
Theorem bank_peak_at_center :
  forall self : MorletAttrs,
    valid_attrs self ->
    exists re im o,
      _build_wavelet_bank self = Ok (re, im) /\
      one_side self = Ok o /\
      forall (k : Z) (j : nat),
        (- o <= k <= o)%Z -> (j < length (scales self))%nat ->
        let center := data re [0; Z.to_nat o; 0; j]%nat in
        Rabs (data re [0; Z.to_nat (k + o); 0; j]%nat) <= center /\
        Rabs (data im [0; Z.to_nat (k + o); 0; j]%nat) <= center /\
        (k <> 0%Z ->
         Rabs (data re [0; Z.to_nat (k + o); 0; j]%nat) < center /\
         Rabs (data im [0; Z.to_nat (k + o); 0; j]%nat) < center).
Proof.
  intros self Hv.
  destruct (one_side_valid self Hv) as (m & _ & _ & Eo & Hpos).
  set (o := Zfloor _) in Eo, Hpos.
  destruct Hv as (Hiw & Hw & Hfs & Hsf & Hsc & Hall).
  destruct (build_returns self o Eo Hsc) as (re & im & Eb & Hb).
  exists re, im, o. split; [exact Eb |]. split; [exact Eo |].
  intros k j Hk Hj. cbv zeta.
  destruct (bank_center self o re im 0 0 j Hb Hpos Hj) as [-> _].
  destruct (bank_tap self o re im 0 0 k j Hb Hk Hj) as [-> ->].
  set (s := nth j (scales self) 0).
  assert (Hs : 0 < s).
  { rewrite Forall_forall in Hall. apply Hall, nth_In, Hj. }
  assert (Hn := norm_constant_pos self s Hw Hfs Hs).
  set (u := IZR k / fs self / s).
  assert (He0 : 0 < exp (- u ^ 2 / wavelet_width self)) by apply exp_pos.
  assert (He1 := envelope_le_1 u (wavelet_width self) Hw).
  set (e := exp (- u ^ 2 / wavelet_width self)) in *.
  assert (Hinv : 0 < / norm_constant self s) by (apply Rinv_0_lt_compat, Hn).
  assert (Hc := COS_bound (2 * PI * u)). assert (Hsn := SIN_bound (2 * PI * u)).
  assert (Ac : Rabs (cos (2 * PI * u)) <= 1) by (apply Rabs_le; lra).
  assert (As : Rabs (sin (2 * PI * u)) <= 1) by (apply Rabs_le; lra).
  assert (Hbase : 0 < e / norm_constant self s)
    by (apply Rdiv_lt_0_compat; assumption).
  assert (Hble : e / norm_constant self s <= 1 / norm_constant self s).
  { unfold Rdiv. apply Rmult_le_compat_r; lra. }
  rewrite !Rabs_mult, (Rabs_right (e / norm_constant self s)) by lra.
  split; [| split].
  - pose proof (Rabs_pos (cos (2 * PI * u))). nra.
  - pose proof (Rabs_pos (sin (2 * PI * u))). nra.
  - intros Hk0.
    assert (Hu : u <> 0).
    { unfold u. intros E.
      assert (IZR k = 0).
      { replace (IZR k) with (IZR k / fs self / s * (fs self * s)) by (field; lra).
        rewrite E. ring. }
      apply eq_IZR in H. contradiction. }
    assert (Hlt := envelope_lt_1 u (wavelet_width self) Hw Hu). fold e in Hlt.
    assert (Hblt : e / norm_constant self s < 1 / norm_constant self s).
    { unfold Rdiv. apply Rmult_lt_compat_r; lra. }
    split.
    + pose proof (Rabs_pos (cos (2 * PI * u))). nra.
    + pose proof (Rabs_pos (sin (2 * PI * u))). nra.
Qed.

Lemma sqr_lt_of_abs (a b : R) : 0 <= a -> a < Rabs b -> a ^ 2 < b ^ 2.
Proof.
  intros Ha Hab. rewrite <- (pow2_abs b).
  pose proof (Rabs_pos b). nra.
Qed.

Lemma sqr_le_of_abs (a b : R) : Rabs b <= a -> b ^ 2 <= a ^ 2.
Proof.
  intros Hab. rewrite <- (pow2_abs b).
  pose proof (Rabs_pos b). nra.
Qed.

(** X17.  What the truncation of the kernel drops and keeps, for valid
    attributes: beyond [one_side] the Gaussian envelope of every scale is
    below [exp(-4.5 * size_factor^2 * initial_wavelet_width /
    wavelet_width)], so below [exp(-4.5)], three standard deviations, as long
    as the width has not grown past [size_factor^2] times its initial value;
    within [one_side] the envelope of the largest scale is not below that
    level. *)
Theorem truncation_at_three_sigma :
  forall self : MorletAttrs,
    valid_attrs self ->
    exists (o : Z) (m : R),
      one_side self = Ok o /\
      is_max m (scales self) /\
      let level := exp (- (4.5 * size_factor self ^ 2 * initial_wavelet_width self
                           / wavelet_width self)) in
      (forall (k : Z) (s : R),
          (o < Z.abs k)%Z -> In s (scales self) ->
          exp (- (IZR k / fs self / s) ^ 2 / wavelet_width self) < level) /\
      (forall k : Z,
          (Z.abs k <= o)%Z ->
          level <= exp (- (IZR k / fs self / m) ^ 2 / wavelet_width self)) /\
      (wavelet_width self <= size_factor self ^ 2 * initial_wavelet_width self ->
       level <= exp (- 4.5)).
Proof.
  intros self Hv.
  destruct (one_side_valid self Hv) as (m & Hm & _ & Eo & Hpos).
  destruct Hv as (Hiw & Hw & Hfs & Hsf & Hsc & Hall).
  assert (Hmpos : 0 < m) by (eapply is_max_pos; eassumption).
  set (q := sqrt (4.5 * initial_wavelet_width self)) in *.
  assert (Hq : 0 < q) by (apply sqrt_lt_R0; lra).
  assert (Hqq : q ^ 2 = 4.5 * initial_wavelet_width self).
  { unfold q. rewrite <- Rsqr_pow2. apply Rsqr_sqrt. lra. }
  set (V := size_factor self * (m * q * fs self)) in *.
  assert (HV : 0 <= V).
  { unfold V. apply Rmult_le_pos; [lra |]. apply Rlt_le.
    apply Rmult_lt_0_compat; [apply Rmult_lt_0_compat |]; assumption. }
  destruct (Zfloor_bound V) as [Fl Fu].
  exists (Zfloor V), m. split; [exact Eo |]. split; [exact Hm |]. cbv zeta.
  set (w := wavelet_width self) in *. set (sf := size_factor self) in *.
  set (f := fs self) in *. set (w0 := initial_wavelet_width self) in *.
  assert (Hlevel : forall u, (sf * q) ^ 2 < u ^ 2 ->
            exp (- u ^ 2 / w) < exp (- (4.5 * sf ^ 2 * w0 / w))).
  { intros u Hu. apply exp_increasing.
    replace (- u ^ 2 / w) with (- (u ^ 2 / w)) by (field; lra).
    apply Ropp_lt_contravar. unfold Rdiv.
    apply Rmult_lt_compat_r; [apply Rinv_0_lt_compat, Hw |].
    replace (4.5 * sf ^ 2 * w0) with ((sf * q) ^ 2) by (rewrite Rpow_mult_distr, Hqq; ring).
    exact Hu. }
  assert (Hlevel' : forall u, u ^ 2 <= (sf * q) ^ 2 ->
            exp (- (4.5 * sf ^ 2 * w0 / w)) <= exp (- u ^ 2 / w)).
  { intros u Hu.
    assert (Hle : - (4.5 * sf ^ 2 * w0 / w) <= - u ^ 2 / w).
    { replace (- u ^ 2 / w) with (- (u ^ 2 / w)) by (field; lra).
      apply Ropp_le_contravar. unfold Rdiv.
      apply Rmult_le_compat_r; [apply Rlt_le, Rinv_0_lt_compat, Hw |].
      replace (4.5 * sf ^ 2 * w0) with ((sf * q) ^ 2)
        by (rewrite Rpow_mult_distr, Hqq; ring).
      exact Hu. }
    destruct Hle as [H | ->]; [apply Rlt_le, exp_increasing, H | apply Rle_refl]. }
  split; [| split].
  - intros k s Hk Hs.
    assert (Hs0 : 0 < s) by (rewrite Forall_forall in Hall; apply Hall, Hs).
    assert (Hsm : s <= m) by (apply Hm, Hs).
    apply Hlevel. apply sqr_lt_of_abs.
    { apply Rmult_le_pos; lra. }
    assert (Hak : V < Rabs (IZR k)).
    { rewrite <- abs_IZR.
      assert (IZR (Zfloor V) + 1 <= IZR (Z.abs k)).
      { rewrite <- (plus_IZR _ 1). apply IZR_le. lia. }
      lra. }
    replace (IZR k / f / s) with (IZR k * / (f * s)) by (field; lra).
    rewrite Rabs_mult, (Rabs_right (/ (f * s))).
    2:{ apply Rle_ge, Rlt_le, Rinv_0_lt_compat, Rmult_lt_0_compat; assumption. }
    assert (Hfs' : 0 < f * s) by (apply Rmult_lt_0_compat; assumption).
    apply (Rmult_lt_reg_r (f * s)); [exact Hfs' |].
    replace (Rabs (IZR k) * / (f * s) * (f * s)) with (Rabs (IZR k))
      by (field; lra).
    apply Rle_lt_trans with V; [| exact Hak].
    unfold V.
    replace (sf * q * (f * s)) with (sf * (s * q * f)) by ring.
    apply Rmult_le_compat_l; [lra |].
    apply Rmult_le_compat_r; [lra |].
    apply Rmult_le_compat_r; lra.
  - intros k Hk. apply Hlevel'. apply sqr_le_of_abs.
    assert (Hak : Rabs (IZR k) <= V).
    { rewrite <- abs_IZR.
      assert (IZR (Z.abs k) <= IZR (Zfloor V)) by (apply IZR_le; exact Hk).
      lra. }
    replace (IZR k / f / m) with (IZR k * / (f * m)) by (field; lra).
    rewrite Rabs_mult, (Rabs_right (/ (f * m))).
    2:{ apply Rle_ge, Rlt_le, Rinv_0_lt_compat, Rmult_lt_0_compat; assumption. }
    assert (Hfm : 0 < f * m) by (apply Rmult_lt_0_compat; assumption).
    apply (Rmult_le_reg_r (f * m)); [exact Hfm |].
    replace (Rabs (IZR k) * / (f * m) * (f * m)) with (Rabs (IZR k))
      by (field; lra).
    replace (sf * q * (f * m)) with V by (unfold V; ring).
    exact Hak.
  - intros Hgrow.
    assert (Hge : 4.5 <= 4.5 * sf ^ 2 * w0 / w).
    { apply (Rmult_le_reg_r w); [exact Hw |].
      replace (4.5 * sf ^ 2 * w0 / w * w) with (4.5 * sf ^ 2 * w0) by (field; lra).
      nra. }
    assert (Hle : - (4.5 * sf ^ 2 * w0 / w) <= - 4.5) by lra.
    destruct Hle as [H | ->]; [apply Rlt_le, exp_increasing, H | apply Rle_refl].
Qed.

(** X20.  Column [j] of the bank of a layer as constructed oscillates at
    [frequencies[j]]: at tap [k], with [t = k / fs] and [f =
    frequencies[j]], the real part is a positive envelope,
    [exp(-(f*t)^2 / wavelet_width) * 2 * f / (sqrt(pi * wavelet_width) * fs)],
    times [cos(2*pi*f*t)], and the imaginary part that envelope times
    [sin(2*pi*f*t)]. *)
Theorem bank_column_frequency :
  forall a : Args,
    valid_args a ->
    exists layer o,
      ComplexMorletCWT_init a = Ok layer /\
      one_side (attrs layer) = Ok o /\
      forall (k : Z) (j : nat),
        (- o <= k <= o)%Z -> (j < Z.to_nat (arg_n_scales a))%nat ->
        let f := nth j (frequencies (attrs layer)) 0 in
        let t := IZR k / arg_fs a in
        let envelope :=
          exp (- (f * t) ^ 2 / arg_wavelet_width a)
          * (2 * f / (sqrt (PI * arg_wavelet_width a) * arg_fs a)) in
        0 < envelope /\
        data (real_part layer) [0; Z.to_nat (k + o); 0; j]%nat
        = envelope * cos (2 * PI * (f * t)) /\
        data (imaginary_part layer) [0; Z.to_nat (k + o); 0; j]%nat
        = envelope * sin (2 * PI * (f * t)).
Proof.
  intros a Hv.
  destruct (init_valid a Hv)
    as (layer & o & Ei & Hva & Eiw & Hlen & _ & _ & _ & _ & Eo & Hb).
  destruct Hv as (Hw & Hfs & Hl & Hlu & Hn & Hsf & Hbc & Hst & Hout & Hfmt).
  destruct (init_returns a Hl (Rlt_le _ _ Hlu) Hn Hout Hfmt (Rlt_le _ _ Hw))
    as (l2 & o2 & Ei2 & Eg & _ & Eww & Efs & _).
  rewrite Ei in Ei2. injection Ei2 as <-.
  assert (Efr : frequencies (attrs layer) = map (fun s => 1 / s) (scales (attrs layer))).
  { rewrite (generate_scales_eq _ _ _ Hl Hlu Hn) in Eg. injection Eg as <- <-.
    reflexivity. }
  exists layer, o. split; [exact Ei |]. split; [exact Eo |].
  intros k j Hk Hj. rewrite <- Hlen in Hj. cbv zeta.
  destruct (bank_tap (attrs layer) o _ _ 0 0 k j Hb Hk Hj) as [-> ->].
  rewrite Efr.
  rewrite (nth_indep _ 0 (1 / 0)) by (rewrite length_map; exact Hj).
  rewrite (map_nth (fun s => 1 / s)).
  set (s := nth j (scales (attrs layer)) 0).
  assert (Hs : 0 < s).
  { destruct Hva as (_ & _ & _ & _ & _ & Hall).
    rewrite Forall_forall in Hall. apply Hall, nth_In, Hj. }
  unfold norm_constant. rewrite Eww, Efs.
  assert (Hsq : 0 < sqrt (PI * arg_wavelet_width a))
    by (apply sqrt_lt_R0, Rmult_lt_0_compat; [apply PI_RGT_0 | exact Hw]).
  replace (1 / s * (IZR k / arg_fs a)) with (IZR k / arg_fs a / s) by (field; lra).
  set (u := IZR k / arg_fs a / s).
  assert (He := exp_pos (- u ^ 2 / arg_wavelet_width a)).
  assert (Hfac : 0 < 2 * (1 / s) / (sqrt (PI * arg_wavelet_width a) * arg_fs a)).
  { apply Rdiv_lt_0_compat.
    - apply Rmult_lt_0_compat; [lra | apply Rdiv_lt_0_compat; lra].
    - apply Rmult_lt_0_compat; assumption. }
  split; [apply Rmult_lt_0_compat; assumption |].
  split; field; lra.
Qed.

(** ** The stride *)

Lemma same_out_stride_1 (n : nat) : same_out n 1 = n.
Proof. unfold same_out. rewrite Nat.div_1_r. lia. Qed.

(** The last position of the strided convolution starts inside the
    signal. *)
Lemma same_out_last (n s : nat) :
  (1 <= s)%nat -> ((same_out n s - 1) * s <= n - 1)%nat.
Proof.
  intros Hs. unfold same_out.
  assert (Hq := Nat.div_mod_eq (n + s - 1) s).
  assert (Hr := Nat.mod_upper_bound (n + s - 1) s ltac:(lia)).
  set (q := ((n + s - 1) / s)%nat) in *.
  set (r := ((n + s - 1) mod s)%nat) in *.
  destruct q as [| q]; [cbn; lia |].
  replace (S q - 1)%nat with q by lia. nia.
Qed.

Lemma pad_before_stride (n k s : nat) :
  (1 <= s)%nat -> (same_pad_before n k s <= same_pad_before n k 1)%nat.
Proof.
  intros Hs. unfold same_pad_before. rewrite same_out_stride_1.
  pose proof (same_out_last n s Hs) as H.
  apply Nat.Div0.div_le_mono. lia.
Qed.

(** The offset of the strided positions among the dense ones stays inside
    the signal. *)
Lemma stride_offset_in_range (n k s t : nat) :
  (1 <= s)%nat -> (t < same_out n s)%nat ->
  (t * s + (same_pad_before n k 1 - same_pad_before n k s) < n)%nat.
Proof.
  intros Hs Ht. unfold same_pad_before. rewrite same_out_stride_1.
  pose proof (same_out_last n s Hs) as H.
  set (L := same_out n s) in *.
  assert (Hn : (1 <= n)%nat).
  { destruct n; [| lia]. unfold L, same_out in Ht.
    rewrite Nat.div_small in Ht by lia. lia. }
  assert (Ht' : (t * s <= (L - 1) * s)%nat) by (apply Nat.mul_le_mono_r; lia).
  set (g := (n - 1 - (L - 1) * s)%nat).
  assert (Hg : ((L - 1) * s + g = n - 1)%nat) by (unfold g; lia).
  replace ((n - 1) * 1 + k - n)%nat with (k - 1)%nat by lia.
  assert (Hd : ((k - 1) / 2 - ((L - 1) * s + k - n) / 2 <= g)%nat).
  { assert (E1 := Nat.div_mod_eq (k - 1) 2).
    assert (E2 := Nat.div_mod_eq ((L - 1) * s + k - n) 2).
    assert (M1 := Nat.mod_upper_bound (k - 1) 2 ltac:(lia)).
    assert (M2 := Nat.mod_upper_bound ((L - 1) * s + k - n) 2 ltac:(lia)).
    lia. }
  lia.
Qed.

Lemma correlate_stride (self : Layer) (x bank : tensor) (s : Z) (b c t j : nat) :
  (1 <= s)%Z ->
  let strided := with_stride (with_border_crop self 0) s in
  let dense := with_stride (with_border_crop self 0) 1 in
  correlate strided x bank b c t j
  = correlate dense x bank b c
      (t * Z.to_nat s + (pad_before dense x - pad_before strided x)) j.
Proof.
  intros Hs. cbv zeta. unfold correlate.
  assert (F1 : first_kept (with_stride (with_border_crop self 0) s) x = 0%nat).
  { unfold first_kept, crop, Py.slice_start, Py.clip.
    cbn [with_stride with_border_crop border_crop stride].
    rewrite Z.div_0_l by lia. cbn [Z.ltb Z.compare]. lia. }
  assert (F2 : first_kept (with_stride (with_border_crop self 0) 1) x = 0%nat).
  { unfold first_kept, crop, Py.slice_start, Py.clip.
    cbn [with_stride with_border_crop border_crop stride].
    rewrite Z.div_0_l by lia. cbn [Z.ltb Z.compare]. lia. }
  rewrite F1, F2.
  assert (Hp : (pad_before (with_stride (with_border_crop self 0) s) x
                <= pad_before (with_stride (with_border_crop self 0) 1) x)%nat).
  { unfold pad_before. cbn [with_stride with_border_crop stride real_part].
    change (time_in (with_stride (with_border_crop self 0) s) x)
      with (time_in self x).
    change (time_in (with_stride (with_border_crop self 0) 1) x)
      with (time_in self x).
    change (Z.to_nat 1) with 1%nat. apply pad_before_stride. lia. }
  apply sum_upto_ext. intros i _.
  cbn [stride with_stride]. change (Z.to_nat 1) with 1%nat.
  f_equal.
  unfold padded_input.
  change (time_in (with_stride (with_border_crop self 0) s) x)
    with (time_in (with_stride (with_border_crop self 0) 1) x).
  change (in_index (with_stride (with_border_crop self 0) s))
    with (in_index (with_stride (with_border_crop self 0) 1)).
  match goal with
  | |- (if (0 <=? ?z1)%Z && _ then _ else _) = (if (0 <=? ?z2)%Z && _ then _ else _) =>
      replace z2 with z1 by lia
  end.
  reflexivity.
Qed.

(** X18.  Without border crop, the transform with stride [s] keeps every
    [s]-th time step of the transform with stride 1: its entry at time [t]
    is the entry of the dense transform at time [t * s + offset], in each of
    the three formats, where [offset] is the difference of the two SAME
    paddings; every such time is a time step of the signal. *)
Theorem call_stride_subsamples :
  forall (layer : Layer) (x : tensor) (s : Z) (d0 d1 d2 ks ns : nat),
    shape x = [d0; d1; d2] -> bank_shape layer ks ns -> (1 <= s)%Z ->
    let strided := with_stride (with_border_crop layer 0) s in
    let dense := with_stride (with_border_crop layer 0) 1 in
    let offset := (pad_before dense x - pad_before strided x)%nat in
    exists yc ym yp zc zm zp,
      call (set_outputformat strided "complex") x = Ok yc /\
      call (set_outputformat strided "magnitude") x = Ok ym /\
      call (set_outputformat strided "phase") x = Ok yp /\
      call (set_outputformat dense "complex") x = Ok zc /\
      call (set_outputformat dense "magnitude") x = Ok zm /\
      call (set_outputformat dense "phase") x = Ok zp /\
      (forall t, (t < conv_len strided x)%nat ->
                 (t * Z.to_nat s + offset < time_in layer x)%nat) /\
      forall b c t j,
        data ym (out_index layer b c t j)
        = data zm (out_index layer b c (t * Z.to_nat s + offset) j) /\
        data yp (out_index layer b c t j)
        = data zp (out_index layer b c (t * Z.to_nat s + offset) j) /\
        ((c < 2 * n_channels layer x)%nat ->
         data yc (out_index layer b c t j)
         = data zc (out_index layer b c (t * Z.to_nat s + offset) j)).
Proof.
  intros layer x s d0 d1 d2 ks ns Hx Hb Hs. cbv zeta.
  destruct (call_values (with_stride (with_border_crop layer 0) s) x d0 d1 d2 ks ns
              Hx Hb Hs)
    as (yc & ym & yp & Ec & Em & Ep & _ & _ & _ & D).
  destruct (call_values (with_stride (with_border_crop layer 0) 1) x d0 d1 d2 ks ns
              Hx Hb ltac:(cbn; lia))
    as (zc & zm & zp & Fc & Fm & Fp & _ & _ & _ & F).
  exists yc, ym, yp, zc, zm, zp.
  repeat (split; [assumption |]).
  split.
  { intros t Ht. unfold pad_before, conv_len in *.
    cbn [with_stride with_border_crop stride real_part] in *.
    change (time_in (with_stride (with_border_crop layer 0) s) x)
      with (time_in layer x) in *.
    change (time_in (with_stride (with_border_crop layer 0) 1) x)
      with (time_in layer x).
    change (Z.to_nat 1) with 1%nat.
    apply stride_offset_in_range; [lia | exact Ht]. }
  change (out_index (with_stride (with_border_crop layer 0) s))
    with (out_index layer) in D.
  change (out_index (with_stride (with_border_crop layer 0) 1))
    with (out_index layer) in F.
  change (n_channels (with_stride (with_border_crop layer 0) s) x)
    with (n_channels layer x) in D.
  change (n_channels (with_stride (with_border_crop layer 0) 1) x)
    with (n_channels layer x) in F.
  cbn [real_part imaginary_part with_stride with_border_crop] in D, F.
  set (off := (pad_before (with_stride (with_border_crop layer 0) 1) x
               - pad_before (with_stride (with_border_crop layer 0) s) x)%nat).
  assert (C : forall bank b c t j,
            correlate (with_stride (with_border_crop layer 0) s) x bank b c t j
            = correlate (with_stride (with_border_crop layer 0) 1) x bank b c
                (t * Z.to_nat s + off) j)
    by (intros; apply correlate_stride; exact Hs).
  intros b c t j. split; [| split].
  - destruct (D b c t j) as (-> & _).
    destruct (F b c (t * Z.to_nat s + off)%nat j) as (-> & _).
    rewrite !C. reflexivity.
  - destruct (D b c t j) as (_ & -> & _).
    destruct (F b c (t * Z.to_nat s + off)%nat j) as (_ & -> & _).
    rewrite !C. reflexivity.
  - intros Hc. destruct (complex_channel_cases _ _ Hc) as [H | (c' & H & ->)].
    + destruct (D b c t j) as (_ & _ & G). destruct (G H) as [-> _].
      destruct (F b c (t * Z.to_nat s + off)%nat j) as (_ & _ & G').
      destruct (G' H) as [-> _]. apply C.
    + destruct (D b c' t j) as (_ & _ & G). destruct (G H) as [_ ->].
      destruct (F b c' (t * Z.to_nat s + off)%nat j) as (_ & _ & G').
      destruct (G' H) as [_ ->]. rewrite C. reflexivity.
Qed.

(** ** The transform as a convolution *)

Lemma sum_upto_shift (n : nat) (f : nat -> R) :
  sum_upto (S n) f = f 0%nat + sum_upto n (fun j => f (S j)).
Proof.
  induction n as [| n IH]; [cbn; ring |].
  change (sum_upto (S (S n)) f) with (sum_upto (S n) f + f (S n)).
  rewrite IH. cbn [sum_upto]. ring.
Qed.

Lemma sum_upto_rev (n : nat) (f : nat -> R) :
  sum_upto n f = sum_upto n (fun j => f (n - 1 - j)%nat).
Proof.
  revert f. induction n as [| n IH]; intros f; [reflexivity |].
  rewrite sum_upto_shift. cbn [sum_upto].
  rewrite (IH (fun j => f (S j))).
  replace (S n - 1 - n)%nat with 0%nat by lia.
  rewrite Rplus_comm. f_equal.
  apply sum_upto_ext. intros j Hj. f_equal. lia.
Qed.

(** A built bank read from the other end: the real part is the same, the
    imaginary part changes sign. *)
Lemma is_bank_mirror (self : MorletAttrs) (o : Z) (re im : tensor) (j s : nat) :
  is_bank self o re im ->
  (j < Z.to_nat (2 * o + 1))%nat -> (s < length (scales self))%nat ->
  data re [0; Z.to_nat (2 * o + 1) - 1 - j; 0; s]%nat = data re [0; j; 0; s]%nat /\
  data im [0; Z.to_nat (2 * o + 1) - 1 - j; 0; s]%nat = - data im [0; j; 0; s]%nat.
Proof.
  intros Hb Hj Hs.
  assert (Ho : (0 <= o)%Z) by lia.
  assert (H1 : (- o <= Z.of_nat j - o <= o)%Z) by lia.
  assert (H2 : (- o <= - (Z.of_nat j - o) <= o)%Z) by lia.
  destruct (bank_tap self o re im 0 0 (Z.of_nat j - o) s Hb H1 Hs) as [Rp Ip].
  destruct (bank_tap self o re im 0 0 (- (Z.of_nat j - o)) s Hb H2 Hs) as [Rm Im].
  cbv zeta in Rp, Ip, Rm, Im.
  replace (Z.to_nat (Z.of_nat j - o + o)) with j in Rp, Ip by lia.
  replace (Z.to_nat (- (Z.of_nat j - o) + o))
    with (Z.to_nat (2 * o + 1) - 1 - j)%nat in Rm, Im by lia.
  rewrite Rp, Ip, Rm, Im. rewrite opp_IZR.
  set (u := IZR (Z.of_nat j - o) / fs self / nth s (scales self) 0).
  replace (- IZR (Z.of_nat j - o) / fs self / nth s (scales self) 0) with (- u)
    by (unfold u, Rdiv; ring).
  replace ((- u) ^ 2) with (u ^ 2) by ring.
  replace (2 * PI * - u) with (- (2 * PI * u)) by ring.
  rewrite cos_neg, sin_neg. split; ring.
Qed.

(** X19.  A layer as constructed computes the convolution of the signal
    with the complex wavelet: in the complex format the entry at time [t] is
    the sum over the taps [j] of the signal at time [q - j] times tap [j],
    with the real part of the bank for channel [c] and with the imaginary
    part itself, not negated, for channel [c + n_channels]; the negated
    filter of [call] makes up for [conv2d] not flipping its filter.  With a
    stride of 1 and no border crop [q = t + one_side]: the wavelet is
    centered on time [t]. *)
Theorem call_is_convolution :
  forall (a : Args) (x : tensor) (d0 d1 d2 : nat),
    valid_args a -> arg_output a = "complex"%string -> shape x = [d0; d1; d2] ->
    exists layer y o,
      ComplexMorletCWT_init a = Ok layer /\
      call layer x = Ok y /\
      one_side (attrs layer) = Ok o /\
      forall b c t s,
        (c < n_channels layer x)%nat -> (s < Z.to_nat (arg_n_scales a))%nat ->
        let q := (Z.of_nat ((first_kept layer x + t) * Z.to_nat (arg_stride a))
                  - Z.of_nat (pad_before layer x) + 2 * o)%Z in
        data y (out_index layer b c t s)
        = sum_upto (Z.to_nat (2 * o + 1)) (fun j =>
            padded_input layer x b (q - Z.of_nat j) c
            * data (real_part layer) [0; j; 0; s]%nat) /\
        data y (out_index layer b (c + n_channels layer x) t s)
        = sum_upto (Z.to_nat (2 * o + 1)) (fun j =>
            padded_input layer x b (q - Z.of_nat j) c
            * data (imaginary_part layer) [0; j; 0; s]%nat) /\
        (arg_stride a = 1%Z -> arg_border_crop a = 0%Z ->
         q = (Z.of_nat t + o)%Z).
Proof.
  intros a x d0 d1 d2 Hv Hout Hx.
  destruct (init_valid a Hv)
    as (layer & o & Ei & Hva & _ & Hlen & Est & Ebc & Eout & _ & Eo & Hb).
  destruct Hv as (_ & _ & _ & _ & _ & _ & Hbc & Hst & _ & _).
  assert (Hst' : (1 <= stride layer)%Z) by (rewrite Est; exact Hst).
  destruct (one_side_valid _ Hva) as (m & _ & _ & Eo' & Hpos).
  rewrite Eo in Eo'. injection Eo' as Eo'. rewrite <- Eo' in Hpos. clear Eo' m.
  pose proof (is_bank_shape layer o Hb) as Hbs.
  destruct (call_values layer x d0 d1 d2 _ _ Hx Hbs Hst')
    as (yc & ym & yp & Ec & _ & _ & _ & _ & _ & D).
  assert (Ecall : call layer x = Ok yc).
  { rewrite <- (set_outputformat_same layer), Eout, Hout. exact Ec. }
  exists layer, yc, o. split; [exact Ei |]. split; [exact Ecall |].
  split; [exact Eo |].
  intros b c t s Hc Hs. rewrite <- Hlen in Hs. cbv zeta.
  destruct (D b c t s) as (_ & _ & G). destruct (G Hc) as [-> ->].
  unfold correlate. destruct Hbs as [-> ->]. cbn [nth]. rewrite Est.
  set (n := Z.to_nat (2 * o + 1)).
  set (p := ((first_kept layer x + t) * Z.to_nat (arg_stride a))%nat).
  split; [| split].
  - rewrite sum_upto_rev. apply sum_upto_ext. intros j Hj. unfold n in *.
    destruct (is_bank_mirror _ o _ _ j s Hb Hj Hs) as [-> _].
    f_equal. f_equal. lia.
  - rewrite sum_upto_rev, <- sum_upto_opp. apply sum_upto_ext. intros j Hj.
    unfold n in *.
    destruct (is_bank_mirror _ o _ _ j s Hb Hj Hs) as [_ ->].
    replace (Z.of_nat (p + (Z.to_nat (2 * o + 1) - 1 - j))
             - Z.of_nat (pad_before layer x))%Z
      with (Z.of_nat p - Z.of_nat (pad_before layer x) + 2 * o - Z.of_nat j)%Z
      by lia.
    ring.
  - intros E1 E0.
    assert (Hfk : first_kept layer x = 0%nat).
    { unfold first_kept, crop, Py.slice_start, Py.clip. rewrite Ebc, E0, Est, E1.
      cbn [Z.div Z.div_eucl Z.ltb Z.compare fst]. lia. }
    assert (Hpad : pad_before layer x = Z.to_nat o).
    { unfold pad_before, same_pad_before. destruct Hb as (-> & _). cbn [nth].
      rewrite Est, E1. change (Z.to_nat 1) with 1%nat. rewrite same_out_stride_1.
      set (T := time_in layer x).
      replace ((T - 1) * 1 + Z.to_nat (2 * o + 1) - T)%nat
        with (if (T =? 0)%nat then Z.to_nat (2 * o + 1) else (2 * Z.to_nat o)%nat).
      - destruct (T =? 0)%nat.
        + replace (Z.to_nat (2 * o + 1)) with (1 + Z.to_nat o * 2)%nat by lia.
          rewrite Nat.div_add by lia. cbn. lia.
        + rewrite Nat.mul_comm, Nat.div_mul by lia. reflexivity.
      - destruct (Nat.eqb_spec T 0); lia. }
    unfold p. rewrite Hfk, Hpad, E1. change (Z.to_nat 1) with 1%nat. lia.
Qed.

(** ** The statements at [example_args] *)

Lemma example_attrs_valid : valid_attrs example_attrs.
Proof.
  unfold valid_attrs, example_attrs. cbn.
  repeat split; try lra; try discriminate.
  repeat constructor; lra.
Qed.

(** The bank formula with the variable at 2 and the kernel sized at 1. *)
Lemma build_wavelet_bank_formula_witness :
  exists re im o,
    _build_wavelet_bank (set_wavelet_width example_attrs 2) = Ok (re, im) /\
    one_side example_attrs = Ok o /\
    shape re = [1; Z.to_nat (2 * o + 1); 1; 3]%nat /\
    shape im = [1; Z.to_nat (2 * o + 1); 1; 3]%nat /\
    forall (k : Z) (j : nat),
      (- o <= k <= o)%Z -> (j < 3)%nat ->
      let s := nth j [0.04; 0.2; 1] 0 in
      let t := IZR k / 100 in
      data re [0; Z.to_nat (k + o); 0; j]%nat
      = exp (- (t / s) ^ 2 / 2) / (sqrt (PI * 2) * s * 100 / 2)
        * cos (2 * PI * (t / s)) /\
      data im [0; Z.to_nat (k + o); 0; j]%nat
      = exp (- (t / s) ^ 2 / 2) / (sqrt (PI * 2) * s * 100 / 2)
        * sin (2 * PI * (t / s)).
Proof.
  apply (build_wavelet_bank_formula example_attrs 2).
  - cbn. discriminate.
  - cbn. lra.
Defined.

(** The sizing at [example_args], with the variable at 2 afterwards. *)
Lemma kernel_size_spec_witness :
  exists (layer : Layer) (o : Z),
    ComplexMorletCWT_init example_args = Ok layer /\
    (0 <= o)%Z /\
    Z.odd (2 * o + 1) = true /\
    kernel_size (set_wavelet_width (attrs layer) 2) = Ok (2 * o + 1)%Z.
Proof.
  destruct (kernel_size_spec example_args)
    as (layer & m & Ei & _ & _ & Hpos & Hodd & _ & Hall).
  - unfold valid_args. cbn. repeat split; try lra; try lia.
  - exists layer. eexists. split; [exact Ei |]. split; [exact Hpos |].
    split; [exact Hodd |]. apply (Hall 2).
Defined.

Lemma generate_scales_spec_witness :
  exists scales frequencies,
    generate_scales 1 25 3 = Ok (scales, frequencies) /\
    strictly_increasing scales /\
    strictly_decreasing frequencies /\
    nth 0 frequencies 0 = 25 /\
    nth 2 frequencies 0 = 1.
Proof.
  destruct (proj1 generate_scales_spec 1 25 3%Z ltac:(lra) ltac:(lra) ltac:(lia))
    as (sc & fr & E & _ & _ & _ & Hi & Hd & H0 & Hl).
  exists sc, fr. repeat (split; [assumption |]). exact Hl.
Defined.

(** 128 time steps in, 128 out, with no border crop and a stride of 1. *)
Lemma time_out_spec_witness :
  exists y,
    call example_layer (zeros [1; 128; 1]%nat) = Ok y /\
    time_out example_layer y = 128%nat.
Proof.
  destruct (time_out_spec example_layer (zeros [1; 128; 1]%nat) 1 128 1 5 3)
    as (y & Ey & _ & _ & _ & H0 & _).
  - reflexivity.
  - split; reflexivity.
  - cbn. lia.
  - cbn. lia.
  - exists y. split; [exact Ey |]. apply H0; reflexivity.
Defined.

Lemma output_formats_agree_witness :
  exists yc ym yp,
    call (set_outputformat example_layer "complex") (zeros [2; 128; 1]%nat) = Ok yc /\
    call (set_outputformat example_layer "magnitude") (zeros [2; 128; 1]%nat) = Ok ym /\
    call (set_outputformat example_layer "phase") (zeros [2; 128; 1]%nat) = Ok yp /\
    channels_out example_layer yc = 2%nat /\
    channels_out example_layer ym = 1%nat /\
    channels_out example_layer yp = 1%nat.
Proof.
  destruct (output_formats_agree example_layer (zeros [2; 128; 1]%nat) 2 128 1 5 3)
    as (yc & ym & yp & Ec & Em & Ep & Hc & Hm & Hp & _).
  - reflexivity.
  - split; reflexivity.
  - cbn. lia.
  - exists yc, ym, yp. repeat (split; [assumption |]). exact Hp.
Defined.

Lemma bank_symmetry_witness :
  exists re im o,
    _build_wavelet_bank example_attrs = Ok (re, im) /\
    one_side example_attrs = Ok o /\
    forall (k : Z) (j : nat),
      (0 <= k <= o)%Z -> (j < 3)%nat ->
      data re [0; Z.to_nat (o + k); 0; j]%nat
      = data re [0; Z.to_nat (o - k); 0; j]%nat /\
      data im [0; Z.to_nat (o + k); 0; j]%nat
      = - data im [0; Z.to_nat (o - k); 0; j]%nat.
Proof.
  destruct (bank_symmetry example_attrs) as (re & im & o & Eb & Eo & _ & _ & H).
  - cbn. discriminate.
  - cbn. lra.
  - exists re, im, o. split; [exact Eb |]. split; [exact Eo | exact H].
Defined.

(** An input of rank 2 is refused, an input of rank 3 is taken. *)
Lemma call_shape_errors_witness :
  raises (call example_layer (zeros [1; 128]%nat)) /\
  returns (call example_layer (zeros [1; 128; 7]%nat)).
Proof.
  destruct (call_shape_errors example_layer (zeros [1; 128]%nat)) as (H1 & _).
  destruct (call_shape_errors example_layer (zeros [1; 128; 7]%nat))
    as (_ & _ & _ & _ & H5).
  split.
  - apply H1; [reflexivity | cbn; lia].
  - apply (H5 1%nat 128%nat 7%nat 5%nat 3%nat);
      [reflexivity | split; reflexivity | cbn; lia].
Defined.

Lemma bank_center_tap_witness :
  exists re im o,
    _build_wavelet_bank example_attrs = Ok (re, im) /\
    one_side example_attrs = Ok o /\
    forall j : nat,
      (j < 3)%nat ->
      data im [0; Z.to_nat o; 0; j]%nat = 0 /\
      0 < data re [0; Z.to_nat o; 0; j]%nat.
Proof.
  destruct (bank_center_tap example_attrs example_attrs_valid)
    as (re & im & o & Eb & Eo & _ & _ & H).
  exists re, im, o. split; [exact Eb |]. split; [exact Eo |].
  intros j Hj. destruct (H j Hj) as (H0 & _ & _ & Hp). split; [exact H0 | exact Hp].
Defined.

(** ** The further statements at concrete inputs *)

Lemma example_layer_bank : bank_shape example_layer 5 3.
Proof. split; reflexivity. Qed.

Lemma call_complex_entries_witness :
  exists y,
    call (set_outputformat example_layer "complex") ramp_signal = Ok y /\
    forall t s,
      data y [0; t; s; 0]%nat
      = sum_upto 5 (fun j =>
          padded_input example_layer ramp_signal 0
            (Z.of_nat ((first_kept example_layer ramp_signal + t) * 1 + j)
             - Z.of_nat (pad_before example_layer ramp_signal)) 0
          * data (real_part example_layer) [0; j; 0; s]%nat).
Proof.
  destruct (call_complex_entries example_layer ramp_signal 1 4 1 5 3)
    as (y & Ey & D).
  - reflexivity.
  - exact example_layer_bank.
  - cbn. lia.
  - exists y. split; [exact Ey |]. intros t s.
    destruct (D 0%nat 0%nat t s) as [H _]; [cbn; lia | exact H].
Defined.

Lemma call_complex_linear_witness :
  exists zx zy z,
    call (set_outputformat example_layer "complex") ramp_signal = Ok zx /\
    call (set_outputformat example_layer "complex") (zeros [1; 4; 1]%nat) = Ok zy /\
    call (set_outputformat example_layer "complex")
      (lin_comb 2 ramp_signal (zeros [1; 4; 1]%nat)) = Ok z /\
    shape z = shape zx.
Proof.
  destruct (call_complex_linear example_layer 2 ramp_signal (zeros [1; 4; 1]%nat)
              1 4 1 5 3)
    as (zx & zy & z & Ex & Ey & Ez & Sz & _).
  - reflexivity.
  - reflexivity.
  - exact example_layer_bank.
  - cbn. lia.
  - exists zx, zy, z. repeat (split; [assumption |]). exact Sz.
Defined.

Lemma call_channel_independent_witness :
  exists yc yc',
    call (set_outputformat example_layer "complex") ramp_signal = Ok yc /\
    call (set_outputformat example_layer "complex")
      (lin_comb 1 ramp_signal (zeros [1; 4; 1]%nat)) = Ok yc' /\
    forall t s, data yc' [0; t; s; 0]%nat = data yc [0; t; s; 0]%nat.
Proof.
  destruct (call_channel_independent example_layer ramp_signal
              (lin_comb 1 ramp_signal (zeros [1; 4; 1]%nat)) 1 4 1 5 3 0 0)
    as (yc & ym & yp & yc' & ym' & yp' & Ec & _ & _ & Ec' & _ & _ & D).
  - reflexivity.
  - reflexivity.
  - exact example_layer_bank.
  - cbn. lia.
  - cbn. lia.
  - intros u. cbn. ring.
  - exists yc, yc'. split; [exact Ec |]. split; [exact Ec' |].
    intros t s. apply (D t s).
Defined.

Lemma call_crop_is_slice_witness :
  exists ym zm,
    call (set_outputformat (with_border_crop example_layer 2) "magnitude")
      (zeros [1; 128; 1]%nat) = Ok ym /\
    call (set_outputformat (with_border_crop example_layer 0) "magnitude")
      (zeros [1; 128; 1]%nat) = Ok zm /\
    forall t s, data ym [0; t; s; 0]%nat = data zm [0; t + 2; s; 0]%nat.
Proof.
  destruct (call_crop_is_slice example_layer (zeros [1; 128; 1]%nat) 2 1 128 1 5 3)
    as (yc & ym & yp & zc & zm & zp & _ & Em & _ & _ & Fm & _ & D).
  - reflexivity.
  - exact example_layer_bank.
  - cbn. lia.
  - lia.
  - vm_compute. discriminate.
  - exists ym, zm. split; [exact Em |]. split; [exact Fm |].
    intros t s. apply (D 0%nat 0%nat t s).
Defined.

Lemma call_layouts_agree_witness :
  exists ym zm,
    call (set_outputformat (with_data_format example_layer "channels_last")
            "magnitude") (zeros [1; 4; 2]%nat) = Ok ym /\
    call (set_outputformat (with_data_format example_layer "channels_first")
            "magnitude") (zeros [1; 2; 4]%nat) = Ok zm /\
    forall b c t s, data zm [b; c; t; s] = data ym [b; t; s; c].
Proof.
  destruct (call_layouts_agree example_layer (zeros [1; 4; 2]%nat)
              (zeros [1; 2; 4]%nat) 1 4 2 5 3)
    as (yc & ym & yp & zc & zm & zp & _ & Em & _ & _ & Fm & _ & D).
  - reflexivity.
  - reflexivity.
  - intros b c u. reflexivity.
  - exact example_layer_bank.
  - cbn. lia.
  - exists ym, zm. split; [exact Em |]. split; [exact Fm |].
    intros b c t s. apply (D b c t s).
Defined.

Lemma call_polar_round_trip_witness :
  exists yc ym yp,
    call (set_outputformat example_layer "complex") ramp_signal = Ok yc /\
    call (set_outputformat example_layer "magnitude") ramp_signal = Ok ym /\
    call (set_outputformat example_layer "phase") ramp_signal = Ok yp /\
    forall t s,
      data ym [0; t; s; 0]%nat * cos (data yp [0; t; s; 0]%nat)
      = data yc [0; t; s; 0]%nat.
Proof.
  destruct (call_polar_round_trip example_layer ramp_signal 1 4 1 5 3)
    as (yc & ym & yp & Ec & Em & Ep & D).
  - reflexivity.
  - exact example_layer_bank.
  - cbn. lia.
  - exists yc, ym, yp. repeat (split; [assumption |]).
    intros t s. destruct (D 0%nat 0%nat t s) as [H _]; [cbn; lia | exact H].
Defined.

Lemma call_magnitude_phase_range_witness :
  exists ym yp,
    call (set_outputformat example_layer "magnitude") ramp_signal = Ok ym /\
    call (set_outputformat example_layer "phase") ramp_signal = Ok yp /\
    forall t s,
      0 <= data ym [0; t; s; 0]%nat /\ - PI < data yp [0; t; s; 0]%nat <= PI.
Proof.
  destruct (call_magnitude_phase_range example_layer ramp_signal 1 4 1 5 3)
    as (ym & yp & Em & Ep & D).
  - reflexivity.
  - exact example_layer_bank.
  - cbn. lia.
  - exists ym, yp. repeat (split; [assumption |]).
    intros t s. apply (D 0%nat 0%nat t s).
Defined.

Lemma nonpositive_stride_fails_at_call_witness :
  exists layer,
    ComplexMorletCWT_init zero_stride_args = Ok layer /\
    stride layer = 0%Z /\
    forall x : tensor, raises (call layer x).
Proof.
  apply (nonpositive_stride_fails_at_call zero_stride_args);
    cbn; try lra; try lia; reflexivity.
Defined.

Lemma negative_border_crop_keeps_tail_witness :
  exists y,
    call (with_border_crop example_layer (-2)) (zeros [1; 128; 1]%nat) = Ok y /\
    (first_kept (with_border_crop example_layer (-2)) (zeros [1; 128; 1]%nat)
     + time_out (with_border_crop example_layer (-2)) y
     = conv_len (with_border_crop example_layer (-2)) (zeros [1; 128; 1]%nat))%nat.
Proof.
  destruct (negative_border_crop_keeps_tail (with_border_crop example_layer (-2))
              (zeros [1; 128; 1]%nat) 1 128 1 5 3)
    as (y & Ey & _ & H).
  - reflexivity.
  - exact example_layer_bank.
  - cbn. lia.
  - cbn. lia.
  - exists y. split; [exact Ey | exact H].
Defined.

Lemma init_then_call_shape_witness :
  exists layer y,
    ComplexMorletCWT_init example_args = Ok layer /\
    call layer (zeros [1; 128; 1]%nat) = Ok y /\
    exists steps, shape y = [1; steps; 3; 2]%nat.
Proof.
  destruct (init_then_call_shape example_args (zeros [1; 128; 1]%nat) 1 128 1)
    as (layer & y & Ei & Ey & S).
  - exact example_args_valid.
  - reflexivity.
  - exists layer, y. split; [exact Ei |]. split; [exact Ey |].
    cbv zeta in S. cbn [example_args args_with arg_output arg_data_format
                        arg_n_scales String.eqb Ascii.eqb Bool.eqb] in S.
    eexists. rewrite S. f_equal. f_equal. f_equal. f_equal.
    destruct (init_valid example_args example_args_valid)
      as (l2 & o & Ei2 & _ & _ & _ & _ & _ & _ & Efmt & _).
    rewrite Ei in Ei2. injection Ei2 as <-.
    unfold n_channels, channels_last. rewrite Efmt. reflexivity.
Defined.

Lemma frequencies_geometric_witness :
  exists scales frequencies,
    generate_scales 1 25 3 = Ok (scales, frequencies) /\
    forall i, (i < 3)%nat -> 1 <= nth i frequencies 0 <= 25.
Proof.
  destruct (frequencies_geometric 1 25 3%Z ltac:(lra) ltac:(lra) ltac:(lia))
    as (sc & fr & E & H).
  exists sc, fr. split; [exact E |]. intros i Hi. apply (H i Hi).
Defined.

Lemma equal_frequencies_constant_scales_witness :
  exists layer,
    ComplexMorletCWT_init equal_freq_args = Ok layer /\
    Forall (fun f => f = 25) (frequencies (attrs layer)).
Proof.
  destruct (equal_frequencies_constant_scales equal_freq_args)
    as (layer & Ei & _ & _ & _ & H);
    try (cbn; lra); try (cbn; lia); try reflexivity.
  exists layer. split; [exact Ei | exact H].
Defined.

Lemma init_late_exceptions_witness :
  ComplexMorletCWT_init one_scale_args = Raise ZeroDivisionError.
Proof.
  apply (init_late_exceptions one_scale_args);
    cbn; try lra; try lia; reflexivity.
Defined.


Lemma bank_modulus_is_envelope_witness :
  exists re im o,
    _build_wavelet_bank example_attrs = Ok (re, im) /\
    one_side example_attrs = Ok o /\
    forall (k : Z) (j : nat),
      (- o <= k <= o)%Z -> (j < 3)%nat ->
      data re [0; Z.to_nat (k + o); 0; j]%nat ^ 2
      + data im [0; Z.to_nat (k + o); 0; j]%nat ^ 2
      = (exp (- (IZR k / 100 / nth j [0.04; 0.2; 1] 0) ^ 2 / 1)
         / norm_constant example_attrs (nth j [0.04; 0.2; 1] 0)) ^ 2.
Proof.
  apply (bank_modulus_is_envelope example_attrs).
  - cbn. discriminate.
  - cbn. lra.
Defined.

Lemma bank_peak_at_center_witness :
  exists re im o,
    _build_wavelet_bank example_attrs = Ok (re, im) /\
    one_side example_attrs = Ok o /\
    forall (k : Z) (j : nat),
      (- o <= k <= o)%Z -> (j < 3)%nat ->
      Rabs (data re [0; Z.to_nat (k + o); 0; j]%nat)
      <= data re [0; Z.to_nat o; 0; j]%nat.
Proof.
  destruct (bank_peak_at_center example_attrs example_attrs_valid)
    as (re & im & o & Eb & Eo & H).
  exists re, im, o. split; [exact Eb |]. split; [exact Eo |].
  intros k j Hk Hj. apply (H k j Hk Hj).
Defined.

Lemma truncation_at_three_sigma_witness :
  exists (o : Z) (m : R),
    one_side example_attrs = Ok o /\
    is_max m (scales example_attrs) /\
    forall (k : Z) (s : R),
      (o < Z.abs k)%Z -> In s (scales example_attrs) ->
      exp (- (IZR k / 100 / s) ^ 2 / 1) < exp (- 4.5).
Proof.
  destruct (truncation_at_three_sigma example_attrs example_attrs_valid)
    as (o & m & Eo & Hm & H1 & _ & H3).
  exists o, m. split; [exact Eo |]. split; [exact Hm |].
  intros k s Hk Hs.
  eapply Rlt_le_trans; [apply (H1 k s Hk Hs) |].
  apply H3. cbn. lra.
Defined.

Lemma call_stride_subsamples_witness :
  exists ym zm,
    call (set_outputformat (with_stride (with_border_crop example_layer 0) 2)
            "magnitude") (zeros [1; 128; 1]%nat) = Ok ym /\
    call (set_outputformat (with_stride (with_border_crop example_layer 0) 1)
            "magnitude") (zeros [1; 128; 1]%nat) = Ok zm /\
    exists offset,
      forall t s, data ym [0; t; s; 0]%nat = data zm [0; t * 2 + offset; s; 0]%nat.
Proof.
  destruct (call_stride_subsamples example_layer (zeros [1; 128; 1]%nat) 2
              1 128 1 5 3)
    as (yc & ym & yp & zc & zm & zp & _ & Em & _ & _ & Fm & _ & _ & D).
  - reflexivity.
  - exact example_layer_bank.
  - lia.
  - exists ym, zm. split; [exact Em |]. split; [exact Fm |].
    eexists. intros t s. apply (D 0%nat 0%nat t s).
Defined.

Lemma call_is_convolution_witness :
  exists layer y o,
    ComplexMorletCWT_init example_args = Ok layer /\
    call layer (zeros [1; 128; 1]%nat) = Ok y /\
    one_side (attrs layer) = Ok o.
Proof.
  destruct (call_is_convolution example_args (zeros [1; 128; 1]%nat) 1 128 1)
    as (layer & y & o & Ei & Ey & Eo & _).
  - exact example_args_valid.
  - reflexivity.
  - reflexivity.
  - exists layer, y, o. split; [exact Ei |]. split; [exact Ey | exact Eo].
Defined.

Lemma bank_column_frequency_witness :
  exists layer o,
    ComplexMorletCWT_init example_args = Ok layer /\
    one_side (attrs layer) = Ok o /\
    forall (k : Z) (j : nat),
      (- o <= k <= o)%Z -> (j < 3)%nat ->
      let f := nth j (frequencies (attrs layer)) 0 in
      data (real_part layer) [0; Z.to_nat (k + o); 0; j]%nat
      = exp (- (f * (IZR k / 100)) ^ 2 / 1) * (2 * f / (sqrt (PI * 1) * 100))
        * cos (2 * PI * (f * (IZR k / 100))).
Proof.
  destruct (bank_column_frequency example_args example_args_valid)
    as (layer & o & Ei & Eo & H).
  exists layer, o. split; [exact Ei |]. split; [exact Eo |].
  intros k j Hk Hj. apply (H k j Hk Hj).
Defined.
